(** * Athena Protocol: configuration resolution and targeted file reading

    A shallow embedding of the provider-configuration engine
    ([src/config-manager.ts], [src/utils/env-provider.ts]), of the unified
    file reader ([src/internal-tools/unified-read-files.ts] with the schemas
    of [src/types/internal-tool-types.ts]) and of the targeted-analysis
    assembler ([src/core/thinking-validator.ts]) with the reading service
    it calls ([src/services/tool-calling-service.ts]), with the properties
    the specification states about them. *)

From Stdlib Require Import ZArith List String Ascii Bool Lia.
From Stdlib Require Import Floats.SpecFloat.
From Stdlib Require DecimalString.
From stdpp Require Import gmap strings list.

Local Open Scope string_scope.
Local Open Scope Z_scope.

#[local] Set Warnings "-clear-no-such-hyp".

(** ** JavaScript helpers shared by the modules below *)

(** [a ?? b]: the right operand is used only when the left one is
    [undefined] (here: [None]). *)
Definition nullish {A} (a b : option A) : option A :=
  match a with
  | Some x => Some x
  | None => b
  end.

Infix "??" := nullish (at level 45, right associativity).

(** Object spread [{ ...lo, ...hi }]: own keys of [hi] overwrite those of
    [lo]. *)
Definition spread {V} (lo hi : gmap string V) : gmap string V := hi ∪ lo.

Lemma lookup_spread {V} (lo hi : gmap string V) k :
  spread lo hi !! k = (hi !! k) ?? (lo !! k).
Proof.
  unfold spread. rewrite lookup_union.
  destruct (hi !! k), (lo !! k); reflexivity.
Qed.

(** ** String built-ins

    A string is a sequence of 8-bit characters.  Provider names, variable
    names and the patterns below are ASCII. *)

Module Js.

Definition code (c : ascii) : nat := nat_of_ascii c.

(** White space and line terminators, as [trim] and [Number] skip them:
    TAB, LF, VT, FF, CR, SP and NBSP. *)
Definition is_white_space (c : ascii) : bool :=
  let n := code c in
  ((9 <=? n) && (n <=? 13) || (n =? 32) || (n =? 160))%nat.

Fixpoint trimStart (s : string) : string :=
  match s with
  | String c s' => if is_white_space c then trimStart s' else s
  | EmptyString => EmptyString
  end.

(** [trimEnd]: a character stays when it, or a later one, is no white
    space. *)
Fixpoint trimEnd (s : string) : string :=
  match s with
  | String c s' =>
      match trimEnd s' with
      | EmptyString => if is_white_space c then EmptyString
                       else String c EmptyString
      | t => String c t
      end
  | EmptyString => EmptyString
  end.

Definition trim (s : string) : string := trimEnd (trimStart s).

(** Truthiness of a string: it is not empty. *)
Definition truthy (s : string) : bool :=
  match s with
  | EmptyString => false
  | _ => true
  end.

(** [v?.trim()] used as a condition, for [v : string | undefined]. *)
Definition trimmed_truthy (v : option string) : bool :=
  match v with
  | Some s => truthy (trim s)
  | None => false
  end.

Definition is_lower (c : ascii) : bool := ((97 <=? code c) && (code c <=? 122))%nat.
Definition is_upper (c : ascii) : bool := ((65 <=? code c) && (code c <=? 90))%nat.

Definition upcase (c : ascii) : ascii :=
  if is_lower c then ascii_of_nat (code c - 32) else c.

Fixpoint toUpperCase (s : string) : string :=
  match s with
  | String c s' => String (upcase c) (toUpperCase s')
  | EmptyString => EmptyString
  end.

(** [s.startsWith(p)] *)
Fixpoint startsWith (p s : string) : bool :=
  match p, s with
  | EmptyString, _ => true
  | String a p', String b s' => Ascii.eqb a b && startsWith p' s'
  | String _ _, EmptyString => false
  end.

(** [s.includes(p)] *)
Fixpoint includes (p s : string) : bool :=
  startsWith p s ||
  match s with
  | String _ s' => includes p s'
  | EmptyString => false
  end.

(** [s.split(sep)] for a one-character separator: [cur] holds, reversed,
    the piece being read. *)
Fixpoint split_go (sep : ascii) (cur : string) (s : string) : list string :=
  match s with
  | EmptyString => [String.rev cur]
  | String c s' =>
      if Ascii.eqb c sep then String.rev cur :: split_go sep EmptyString s'
      else split_go sep (String c cur) s'
  end.

Definition split (sep : ascii) (s : string) : list string :=
  split_go sep EmptyString s.

(** [l.join(sep)] *)
Fixpoint join (sep : string) (l : list string) : string :=
  match l with
  | [] => EmptyString
  | [x] => x
  | x :: rest => x +:+ sep +:+ join sep rest
  end.

Lemma append_nil_l (s : string) : "" +:+ s = s.
Proof. reflexivity. Qed.

Lemma append_cons c (s t : string) : String c s +:+ t = String c (s +:+ t).
Proof. reflexivity. Qed.

Lemma append_nil_r (s : string) : s +:+ "" = s.
Proof.
  induction s as [|c s IH]; [done|]. by rewrite append_cons, IH.
Qed.

Lemma append_assoc (a b c : string) : (a +:+ b) +:+ c = a +:+ (b +:+ c).
Proof.
  induction a as [|x a IH]; [done|]. by rewrite !append_cons, IH.
Qed.

Lemma append_eq_nil (a b : string) : a +:+ b = "" → a = "" ∧ b = "".
Proof. destruct a; [done|]. rewrite append_cons. discriminate. Qed.

Lemma append_inj_l (p a b : string) : p +:+ a = p +:+ b → a = b.
Proof.
  induction p as [|c p IH]; [done|]. rewrite !append_cons.
  intros H. injection H as H. by apply IH.
Qed.

(** [s.endsWith(p)]: [p] is [s] or ends what follows its first
    character. *)
Fixpoint endsWith (p s : string) : bool :=
  String.eqb p s ||
  match s with
  | String _ s' => endsWith p s'
  | EmptyString => false
  end.

(** [s.slice(0, -1)] and [s.slice(1)] *)
Fixpoint slice_0_minus1 (s : string) : string :=
  match s with
  | String c EmptyString => EmptyString
  | String c s' => String c (slice_0_minus1 s')
  | EmptyString => EmptyString
  end.

Definition slice_1 (s : string) : string :=
  match s with
  | String _ s' => s'
  | EmptyString => EmptyString
  end.

Lemma startsWith_spec (p s : string) :
  startsWith p s = true ↔ ∃ r, s = p +:+ r.
Proof.
  revert s. induction p as [|a p IH]; intros s; cbn.
  - split; [|done]. intros _. by exists s.
  - destruct s as [|b s].
    + split; [done|]. intros [r Hr]. rewrite append_cons in Hr. discriminate.
    + rewrite andb_true_iff, IH, Ascii.eqb_eq. split.
      * intros [-> [r ->]]. exists r. by rewrite append_cons.
      * intros [r Hr]. rewrite append_cons in Hr. injection Hr as -> ->.
        split; [done|]. by exists r.
Qed.

Lemma endsWith_spec (p s : string) :
  endsWith p s = true ↔ ∃ a, s = a +:+ p.
Proof.
  induction s as [|c s IH]; cbn.
  - rewrite orb_false_r, String.eqb_eq. split.
    + intros ->. by exists "".
    + intros [a Ha]. symmetry in Ha. by apply append_eq_nil in Ha as [_ ->].
  - rewrite orb_true_iff, String.eqb_eq, IH. split.
    + intros [->|[a ->]]; [by exists ""|]. exists (String c a).
      by rewrite append_cons.
    + intros [[|c' a] Ha].
      * left. by rewrite append_nil_l in Ha.
      * right. rewrite append_cons in Ha. injection Ha as -> ->. by exists a.
Qed.

Lemma includes_spec (p s : string) :
  includes p s = true ↔ ∃ a b, s = a +:+ p +:+ b.
Proof.
  induction s as [|c s IH].
  - cbn [includes]. rewrite orb_false_r, startsWith_spec. split.
    + intros [r Hr]. exists "", r. by rewrite append_nil_l.
    + intros ([|c a] & b & H); [by exists b|].
      rewrite append_cons in H. discriminate.
  - cbn [includes]. rewrite orb_true_iff, startsWith_spec, IH. split.
    + intros [[r Hr]|(a & b & ->)].
      * exists "", r. by rewrite append_nil_l.
      * exists (String c a), b. by rewrite append_cons.
    + intros ([|c' a] & b & H).
      * left. exists b. by rewrite append_nil_l in H.
      * right. rewrite append_cons in H. injection H as -> ->. by exists a, b.
Qed.

Lemma slice_0_minus1_snoc (s : string) (c : ascii) :
  slice_0_minus1 (s +:+ String c "") = s.
Proof.
  induction s as [|a s IH]; [done|].
  rewrite append_cons. cbn [slice_0_minus1].
  destruct (s +:+ String c "") eqn:E.
  - apply append_eq_nil in E as [_ ?]. discriminate.
  - by rewrite IH.
Qed.

Lemma trimEnd_idemp (s : string) : trimEnd (trimEnd s) = trimEnd s.
Proof.
  induction s as [|c s IH]; [done|]. cbn [trimEnd].
  destruct (trimEnd s) as [|d t] eqn:Et.
  - destruct (is_white_space c) eqn:Ec; [done|]. cbn. by rewrite Ec.
  - cbn [trimEnd] in *. by rewrite IH.
Qed.

Lemma trimStart_head (s : string) :
  trimStart s = ""
  ∨ ∃ c s', trimStart s = String c s' ∧ is_white_space c = false.
Proof.
  induction s as [|c s IH]; [by left|]. cbn.
  destruct (is_white_space c) eqn:Ec; [exact IH|]. right. by exists c, s.
Qed.

Lemma trimEnd_head (c : ascii) (s : string) :
  is_white_space c = false → ∃ t, trimEnd (String c s) = String c t.
Proof.
  intros Ec. cbn. destruct (trimEnd s); [|by eexists].
  rewrite Ec. by eexists.
Qed.

(** [trim] leaves a trimmed string as it is. *)
Lemma trim_idemp (s : string) : trim (trim s) = trim s.
Proof.
  unfold trim. destruct (trimStart_head s) as [->|(c & s' & -> & Ec)];
    [done|].
  destruct (trimEnd_head c s' Ec) as [t Ht]. rewrite Ht.
  cbn [trimStart]. rewrite Ec, <- Ht. apply trimEnd_idemp.
Qed.

Definition downcase (c : ascii) : ascii :=
  if is_upper c then ascii_of_nat (code c + 32) else c.

Fixpoint toLowerCase (s : string) : string :=
  match s with
  | String c s' => String (downcase c) (toLowerCase s')
  | EmptyString => EmptyString
  end.

(** A string that contains [p +:+ q] contains [p]. *)
Lemma includes_prefix (p q s : string) :
  includes (p +:+ q) s = true → includes p s = true.
Proof.
  rewrite !includes_spec. intros (a & b & ->). exists a, (q +:+ b).
  by rewrite append_assoc.
Qed.

(** A string of white space only. *)
Fixpoint all_white_space (s : string) : bool :=
  match s with
  | String c s' => is_white_space c && all_white_space s'
  | EmptyString => true
  end.

Lemma trimEnd_empty (s : string) : trimEnd s = "" → all_white_space s = true.
Proof.
  induction s as [|c s IH]; [done|]. cbn.
  destruct (trimEnd s); [|done].
  destruct (is_white_space c); [|done]. intros _. by rewrite IH.
Qed.

Lemma trim_empty (s : string) : trim s = "" → all_white_space s = true.
Proof.
  unfold trim. induction s as [|c s IH]; [done|]. cbn [trimStart].
  destruct (is_white_space c) eqn:Ec.
  - intros H. cbn. by rewrite Ec, IH.
  - intros H%trimEnd_empty. cbn in H. by rewrite Ec in H.
Qed.

Lemma rev_app_append (a b : string) :
  String.rev_app a b = String.rev a +:+ b.
Proof.
  unfold String.rev. revert b. induction a as [|c a IH]; intros b; [done|].
  cbn. rewrite (IH (String c "")), (IH (String c b)).
  by rewrite append_assoc.
Qed.

Lemma split_go_white_space (cur s : string) :
  all_white_space s = true →
  split_go "," cur s = [String.rev cur +:+ s].
Proof.
  revert cur. induction s as [|c s IH]; intros cur H; cbn.
  - by rewrite append_nil_r.
  - cbn in H. apply andb_true_iff in H as [Hc Hs].
    destruct (Ascii.eqb_spec c ",") as [->|_]; [done|].
    rewrite (IH _ Hs).
    change (String.rev (String c cur)) with (String.rev_app cur (String c "")).
    by rewrite rev_app_append, append_assoc.
Qed.

(** A blank string has only blank pieces between its commas. *)
Lemma split_blank (s : string) :
  trim s = "" → map trim (split "," s) = [""].
Proof.
  intros H. unfold split.
  rewrite (split_go_white_space _ _ (trim_empty _ H)). cbn.
  by rewrite append_nil_l, H.
Qed.

End Js.

(** ** [Number(string)]

    The built-in conversion of a string to a number (ECMAScript
    StringToNumber), with IEEE 754 binary64 values as [spec_float]s. *)

Module JsNumber.

Definition prec : Z := 53.
Definition emax : Z := 1024.

Definition digit_of (base : N) (c : ascii) : option N :=
  (let n := N.of_nat (Js.code c) in
   let d :=
     if (48 <=? n) && (n <=? 57) then Some (n - 48)
     else if (97 <=? n) && (n <=? 122) then Some (n - 87)
     else if (65 <=? n) && (n <=? 90) then Some (n - 55)
     else None in
   match d with
   | Some d => if d <? base then Some d else None
   | None => None
   end)%N.

(** The longest run of digits at the start of [s]: the number read
    (continuing [acc]), how many digits it has, and what follows. *)
Fixpoint scan_digits (base acc : N) (count : nat) (s : string)
  : N * nat * string :=
  match s with
  | String c s' =>
      match digit_of base c with
      | Some d => scan_digits base (acc * base + d)%N (S count) s'
      | None => (acc, count, s)
      end
  | EmptyString => (acc, count, s)
  end.

Definition read_sign (s : string) : bool * string :=
  match s with
  | String "-" s' => (true, s')
  | String "+" s' => (false, s')
  | _ => (false, s)
  end.

(** [digits], [digits.digits?], [.digits], each with an optional
    exponent part: the decimal mantissa and exponent. *)
Definition StrUnsignedDecimalLiteral (s : string) : option (N * Z) :=
  let '(int_val, int_n, r1) := scan_digits 10 0 0 s in
  let '(m, frac_n, r2) :=
    match r1 with
    | String "." r => scan_digits 10 int_val 0 r
    | _ => (int_val, 0%nat, r1)
    end in
  if (int_n + frac_n =? 0)%nat then None
  else
    match r2 with
    | EmptyString => Some (m, - Z.of_nat frac_n)
    | String c r3 =>
        if Ascii.eqb c "e" || Ascii.eqb c "E" then
          let '(neg, r4) := read_sign r3 in
          let '(ev, en, r5) := scan_digits 10 0 0 r4 in
          match en, r5 with
          | S _, EmptyString =>
              Some (m, (if neg then - Z.of_N ev else Z.of_N ev)
                       - Z.of_nat frac_n)
          | _, _ => None
          end
        else None
    end.

(** [0x], [0o] and [0b] literals (no sign). *)
Definition NonDecimalIntegerLiteral (s : string) : option (option N) :=
  match s with
  | String "0" (String p r) =>
      let base :=
        if Ascii.eqb p "x" || Ascii.eqb p "X" then Some 16%N
        else if Ascii.eqb p "o" || Ascii.eqb p "O" then Some 8%N
        else if Ascii.eqb p "b" || Ascii.eqb p "B" then Some 2%N
        else None in
      match base with
      | Some b =>
          Some match scan_digits b 0 0 r with
               | (v, S _, EmptyString) => Some v
               | _ => None
               end
      | None => None
      end
  | _ => None
  end.

(** The double nearest to [m * 10 ^ e10] (ties to even), signed. *)
Definition of_decimal (neg : bool) (m : N) (e10 : Z) : spec_float :=
  match m with
  | N0 => S754_zero neg
  | Npos p =>
      if 0 <=? e10 then
        match Zpos p * 10 ^ e10 with
        | Zpos n => binary_round prec emax neg n 0
        | _ => S754_nan
        end
      else
        let '(q, e, l) :=
          SFdiv_core_binary prec emax (Zpos p) 0 (10 ^ (- e10)) 0 in
        binary_round_aux prec emax neg q e l
  end.

Definition Number (s : string) : spec_float :=
  let t := Js.trim s in
  match t with
  | EmptyString => S754_zero false
  | _ =>
      match NonDecimalIntegerLiteral t with
      | Some (Some v) => of_decimal false v 0
      | Some None => S754_nan
      | None =>
          let '(neg, r) := read_sign t in
          if String.eqb r "Infinity" then S754_infinity neg
          else
            match StrUnsignedDecimalLiteral r with
            | Some (m, e10) => of_decimal neg m e10
            | None => S754_nan
            end
      end
  end.

Definition isNaN (x : spec_float) : bool :=
  match x with
  | S754_nan => true
  | _ => false
  end.

Definition zero : spec_float := S754_zero false.
Definition two : spec_float := binary_normalize prec emax 2 0 false.

(** [x >= y] and [x <= y] on numbers *)
Definition ge (x y : spec_float) : bool := SFleb y x.
Definition le (x y : spec_float) : bool := SFleb x y.

(** [x > y] and [x < y] on numbers *)
Definition gt (x y : spec_float) : bool := SFltb y x.
Definition lt (x y : spec_float) : bool := SFltb x y.

(** The number an integer denotes (exact below [2 ^ 53]). *)
Definition of_Z (z : Z) : spec_float := binary_normalize prec emax z 0 false.

(** [Math.floor(x)]: a finite number [±m * 2 ^ e] with [e < 0] is cut
    at the binary point, downwards; the other numbers are integers,
    infinite or [NaN] and stay as they are. *)
Definition floor (x : spec_float) : spec_float :=
  match x with
  | S754_finite s m e =>
      if 0 <=? e then x
      else
        let q := Zpos m / 2 ^ (- e) in
        let r := Zpos m mod 2 ^ (- e) in
        if s then
          binary_normalize prec emax (- (if r =? 0 then q else q + 1)) 0 true
        else binary_normalize prec emax q 0 false
  | _ => x
  end.

(** A number that is not [NaN] and not below zero. *)
Definition is_nonnegative (x : spec_float) : bool :=
  negb (isNaN x) && ge x zero.

Lemma shr_1_nonneg (mrs : shr_record) : 0 ≤ shr_m mrs → 0 ≤ shr_m (shr_1 mrs).
Proof.
  destruct mrs as [m r s]. cbn. intros Hm.
  destruct m as [|[p|p|]|p]; cbn; lia.
Qed.

Lemma iter_pos_shr_1_nonneg (n : positive) (mrs : shr_record) :
  0 ≤ shr_m mrs → 0 ≤ shr_m (SpecFloat.iter_pos shr_1 n mrs).
Proof.
  revert mrs. induction n as [n IH|n IH|]; intros mrs Hm; cbn.
  - by apply IH, IH, shr_1_nonneg.
  - by apply IH, IH.
  - by apply shr_1_nonneg.
Qed.

Lemma shr_fexp_nonneg (m e : Z) (l : location) :
  0 ≤ m → 0 ≤ shr_m (fst (shr_fexp prec emax m e l)).
Proof.
  intros Hm. unfold shr_fexp, shr.
  assert (0 ≤ shr_m (shr_record_of_loc m l)) as H0
    by (by destruct l as [|[]]).
  destruct (_ - e); [done| |done]. cbn [fst].
  by apply iter_pos_shr_1_nonneg.
Qed.

Lemma binary_round_aux_nonnegative (m e : Z) (l : location) :
  0 ≤ m → is_nonnegative (binary_round_aux prec emax false m e l) = true.
Proof.
  intros Hm. unfold binary_round_aux.
  pose proof (shr_fexp_nonneg m e l Hm) as H1.
  destruct (shr_fexp prec emax m e l) as [mrs' e']. cbn [fst] in H1.
  assert (0 ≤ round_nearest_even (shr_m mrs') (loc_of_shr_record mrs'))
    as H2.
  { unfold round_nearest_even.
    destruct (loc_of_shr_record mrs') as [|[]]; try done; [|lia].
    destruct (Z.even _); lia. }
  pose proof (shr_fexp_nonneg _ e' loc_Exact H2) as H3.
  destruct (shr_fexp prec emax _ e' loc_Exact) as [mrs'' e'']. cbn [fst] in H3.
  destruct (shr_m mrs'') as [|p|p]; [done| |lia].
  by destruct (e'' <=? emax - prec).
Qed.

Lemma of_Z_nonnegative (z : Z) : 0 ≤ z → is_nonnegative (of_Z z) = true.
Proof.
  intros Hz. unfold of_Z, binary_normalize.
  destruct z as [|p|p]; [done| |lia].
  unfold binary_round. destruct (shl_align _ _ _) as [mz ez].
  by apply binary_round_aux_nonnegative.
Qed.

(** [Math.floor] of a number above zero is a number, and not below
    zero. *)
Lemma floor_nonnegative (x : spec_float) :
  isNaN x = false → gt x zero = true → is_nonnegative (floor x) = true.
Proof.
  destruct x as [s|s| |s m e]; cbn; try done.
  - by destruct s.
  - destruct s; [done|]. intros _ _.
    destruct (Z.leb_spec 0 e) as [He|He]; [done|].
    apply (of_Z_nonnegative (Z.pos m / 2 ^ (- e))).
    apply Z.div_pos; [lia|]. apply Z.pow_pos_nonneg; lia.
Qed.

Definition one : spec_float := binary_normalize prec emax 1 0 false.

(** [parseInt(s)] without a radix: leading white space is skipped, then
    a sign, then [0x] or [0X] selects base 16; the longest run of digits
    that follows is read, and what comes after it is ignored.  With no
    digit the result is [NaN]. *)
Definition parseInt (s : string) : spec_float :=
  let '(neg, r) := read_sign (Js.trimStart s) in
  let '(base, digits) :=
    match r with
    | String "0" (String p r') =>
        if Ascii.eqb p "x" || Ascii.eqb p "X" then (16%N, r') else (10%N, r)
    | _ => (10%N, r)
    end in
  match scan_digits base 0 0 digits with
  | (v, S _, _) => of_decimal neg v 0
  | (_, O, _) => S754_nan
  end.

(** [parseFloat(s)]: leading white space is skipped, and the longest
    start of what follows that is a decimal literal is read: a sign,
    then [Infinity] or digits with an optional fraction and an optional
    exponent part.  With none the result is [NaN]. *)
Definition parseFloat (s : string) : spec_float :=
  let '(neg, r) := read_sign (Js.trimStart s) in
  if Js.startsWith "Infinity" r then S754_infinity neg
  else
    let '(int_val, int_n, r1) := scan_digits 10 0 0 r in
    let '(m, frac_n, r2) :=
      match r1 with
      | String "." r' => scan_digits 10 int_val 0 r'
      | _ => (int_val, 0%nat, r1)
      end in
    if (int_n + frac_n =? 0)%nat then S754_nan
    else
      let e :=
        match r2 with
        | String c r3 =>
            if Ascii.eqb c "e" || Ascii.eqb c "E" then
              let '(eneg, r4) := read_sign r3 in
              match scan_digits 10 0 0 r4 with
              | (ev, S _, _) => if eneg then - Z.of_N ev else Z.of_N ev
              | (_, O, _) => 0
              end
            else 0
        | EmptyString => 0
        end in
      of_decimal neg m (e - Z.of_nat frac_n).

(** *** Numbers as text ([Number::toString], [toFixed]) *)

(** The decimal digits of a non-negative integer, and [count] zeros. *)
Definition digits (z : Z) : string :=
  DecimalString.NilZero.string_of_int (Z.to_int z).

Fixpoint zeros (count : nat) : string :=
  match count with
  | O => ""
  | S count' => String "0" (zeros count')
  end.

(** A positive finite number [m * 2 ^ e] as a fraction. *)
Definition fraction (m : positive) (e : Z) : Z * Z :=
  if 0 <=? e then (Zpos m * 2 ^ e, 1) else (Zpos m, 2 ^ (- e)).

(** [p / q] scaled by [10 ^ n] *)
Definition scale10 (n : Z) (pq : Z * Z) : Z * Z :=
  let '(p, q) := pq in
  if 0 <=? n then (p * 10 ^ n, q) else (p, q * 10 ^ (- n)).

(** [10 ^ n <= p / q] *)
Definition pow10_le (n : Z) (pq : Z * Z) : bool :=
  let '(p, q) := scale10 (- n) pq in q <=? p.

(** The [n] with [10 ^ (n - 1) <= p / q < 10 ^ n], for a binary64
    value. *)
Definition decimal_exponent (pq : Z * Z) : Z :=
  default 0
    (find (λ n, pow10_le (n - 1) pq && negb (pow10_le n pq))
       (seqZ (-324) 635)).

(** A candidate [(s, n)] with [k] digits denotes [s * 10 ^ (n - k)]; it
    stands for [x] when that decimal reads back as [x]. *)
Definition reads_back (x : spec_float) (k : Z) (c : Z * Z) : bool :=
  let '(s, n) := c in
  (10 ^ (k - 1) <=? s) && (s <? 10 ^ k)
  && SFeqb (of_decimal false (Z.to_N s) (n - k)) x.

(** The [k]-digit decimals next to [x = p / q], the nearer one first
    (the even one when they are as near); a neighbour of [k + 1] digits
    is the power of ten above. *)
Definition neighbours (pq : Z * Z) (n k : Z) : list (Z * Z) :=
  let '(p, q) := scale10 (k - n) pq in
  let s0 := p / q in
  let below := (s0, n) in
  let above := if s0 + 1 =? 10 ^ k then (10 ^ (k - 1), n + 1) else (s0 + 1, n) in
  match 2 * p ?= (2 * s0 + 1) * q with
  | Lt => [below; above]
  | Gt => [above; below]
  | Eq => if Z.even s0 then [below; above] else [above; below]
  end.

(** The shortest decimal that reads back as [x], with its [n]. *)
Fixpoint shortest (x : spec_float) (pq : Z * Z) (n k : Z) (fuel : nat)
  : Z * Z * Z :=
  match find (reads_back x k) (neighbours pq n k) with
  | Some (s, n') => (s, n', k)
  | None =>
      match fuel with
      | O => (0, 0, 1)
      | S fuel' => shortest x pq n (k + 1) fuel'
      end
  end.

Definition toString_positive (m : positive) (e : Z) : string :=
  let pq := fraction m e in
  let '(s, n, k) :=
    shortest (S754_finite false m e) pq (decimal_exponent pq) 1 20 in
  let ds := digits s in
  if (k <=? n) && (n <=? 21) then ds +:+ zeros (Z.to_nat (n - k))
  else if (0 <? n) && (n <=? 21) then
    substring 0 (Z.to_nat n) ds +:+ "."
    +:+ substring (Z.to_nat n) (Z.to_nat (k - n)) ds
  else if (-6 <? n) && (n <=? 0) then
    "0." +:+ zeros (Z.to_nat (- n)) +:+ ds
  else
    let exponent :=
      "e" +:+ (if n <? 0 then "-" else "+") +:+ digits (Z.abs (n - 1)) in
    if k =? 1 then ds +:+ exponent
    else substring 0 1 ds +:+ "."
         +:+ substring 1 (Z.to_nat (k - 1)) ds +:+ exponent.

(** [`${x}`] and [String(x)] for a number: the shortest decimal that
    denotes [x], in positional notation when its exponent is between -7
    and 21 and in exponent notation otherwise. *)
Definition toString (x : spec_float) : string :=
  match x with
  | S754_nan => "NaN"
  | S754_zero _ => "0"
  | S754_infinity s => if s then "-Infinity" else "Infinity"
  | S754_finite s m e =>
      (if s then "-" else "") +:+ toString_positive m e
  end.

(** [x.toFixed(f)]: below [10 ^ 21], the nearest multiple of
    [10 ^ -f] (the larger when two are as near) with [f] digits after
    the point. *)
Definition toFixed (f : nat) (x : spec_float) : string :=
  let fixed (n : Z) :=
    let m := digits n in
    if (f =? 0)%nat then m
    else
      let m := zeros (S f - String.length m) +:+ m in
      let k := String.length m in
      substring 0 (k - f) m +:+ "." +:+ substring (k - f) f m in
  match x with
  | S754_zero _ => fixed 0
  | S754_finite s m e =>
      if pow10_le 21 (fraction m e) then toString x
      else
        let '(p, q) := scale10 (Z.of_nat f) (fraction m e) in
        (if s then "-" else "") +:+ fixed ((2 * p + q) / (2 * q))
  | _ => toString x
  end.

End JsNumber.

(** ** Regular expressions

    The patterns of [validateApiKey] use literal characters, character
    classes, [.], [?] and [*], anchored at the start with [^] and some at
    the end with [$].  [test] is computed with derivatives; [Matches] is
    the language a pattern denotes. *)

Module Regex.
Import Js.

Inductive re :=
  | Void
  | Eps
  | Class (p : ascii → bool)
  | Cat (r1 r2 : re)
  | Alt (r1 r2 : re)
  | Star (r : re).

Fixpoint nullable (r : re) : bool :=
  match r with
  | Void => false
  | Eps => true
  | Class _ => false
  | Cat r1 r2 => nullable r1 && nullable r2
  | Alt r1 r2 => nullable r1 || nullable r2
  | Star _ => true
  end.

Fixpoint deriv (c : ascii) (r : re) : re :=
  match r with
  | Void => Void
  | Eps => Void
  | Class p => if p c then Eps else Void
  | Cat r1 r2 =>
      if nullable r1 then Alt (Cat (deriv c r1) r2) (deriv c r2)
      else Cat (deriv c r1) r2
  | Alt r1 r2 => Alt (deriv c r1) (deriv c r2)
  | Star r1 => Cat (deriv c r1) (Star r1)
  end.

(** The whole of [s] is matched by [r]. *)
Fixpoint matches (r : re) (s : string) : bool :=
  match s with
  | EmptyString => nullable r
  | String c s' => matches (deriv c r) s'
  end.

(** A character, with the [i] flag or without. *)
Definition chr (ignoreCase : bool) (a : ascii) : re :=
  Class (λ c, if ignoreCase then Ascii.eqb (Js.upcase c) (Js.upcase a)
              else Ascii.eqb c a).

(** A literal run of characters. *)
Fixpoint lit (ignoreCase : bool) (s : string) : re :=
  match s with
  | EmptyString => Eps
  | String a s' => Cat (chr ignoreCase a) (lit ignoreCase s')
  end.

(** [[-_]] *)
Definition dash_or_underscore : re :=
  Class (λ c, Ascii.eqb c "-" || Ascii.eqb c "_").

(** [.]: any character but a line terminator. *)
Definition dot : re :=
  Class (λ c, negb ((Js.code c =? 10)%nat || (Js.code c =? 13)%nat)).

Definition any : re := Class (λ _, true).

(** [r?] *)
Definition opt (r : re) : re := Alt r Eps.

(** A pattern written [/^body/] or [/^body$/]. *)
Record pattern := {
  body : re;
  anchored_end : bool
}.

(** [pattern.test(s)]: without [$] anything may follow the match. *)
Definition test (p : pattern) (s : string) : bool :=
  if anchored_end p then matches (body p) s
  else matches (Cat (body p) (Star any)) s.

(** The language of a pattern. *)
Inductive Matches : re → string → Prop :=
  | MEps : Matches Eps ""
  | MClass p c : p c = true → Matches (Class p) (String c "")
  | MCat r1 r2 s1 s2 :
      Matches r1 s1 → Matches r2 s2 → Matches (Cat r1 r2) (s1 +:+ s2)
  | MAltL r1 r2 s : Matches r1 s → Matches (Alt r1 r2) s
  | MAltR r1 r2 s : Matches r2 s → Matches (Alt r1 r2) s
  | MStar0 r : Matches (Star r) ""
  | MStarS r s1 s2 :
      Matches r s1 → Matches (Star r) s2 → Matches (Star r) (s1 +:+ s2).

Lemma nullable_Matches r : nullable r = true ↔ Matches r "".
Proof.
  split.
  - induction r as [| |p|r1 IH1 r2 IH2|r1 IH1 r2 IH2|r IH]; cbn; intros H.
    + discriminate.
    + constructor.
    + discriminate.
    + apply andb_true_iff in H as [H1 H2].
      change "" with ("" +:+ ""). constructor; auto.
    + apply orb_true_iff in H as [H|H]; [apply MAltL|apply MAltR]; auto.
    + constructor.
  - intros H. remember "" as s eqn:Es.
    induction H as [|p c Hp|r1 r2 s1 s2 H1 IH1 H2 IH2|r1 r2 s H IH
                   |r1 r2 s H IH|r|r s1 s2 H1 IH1 H2 IH2]; cbn; try done.
    + apply append_eq_nil in Es as [-> ->]. by rewrite IH1, IH2.
    + by rewrite IH.
    + rewrite IH by done. apply orb_true_r.
Qed.

Lemma deriv_Matches c r s : Matches (deriv c r) s ↔ Matches r (String c s).
Proof.
  split.
  - revert s. induction r as [| |p|r1 IH1 r2 IH2|r1 IH1 r2 IH2|r IH];
      cbn; intros s H.
    + inversion H.
    + inversion H.
    + destruct (p c) eqn:Hp; inversion H; subst. by constructor.
    + destruct (nullable r1) eqn:Hn.
      * inversion H as [| | | ? ? ? H'| ? ? ? H'| |]; subst.
        -- inversion H' as [| |? ? s1 s2 Ha Hb| | | |]; subst.
           change (String c (s1 +:+ s2)) with (String c s1 +:+ s2).
           constructor; auto.
        -- change (String c s) with ("" +:+ String c s).
           constructor; [by apply nullable_Matches|auto].
      * inversion H as [| |? ? s1 s2 Ha Hb| | | |]; subst.
        change (String c (s1 +:+ s2)) with (String c s1 +:+ s2).
        constructor; auto.
    + inversion H; subst; [apply MAltL|apply MAltR]; auto.
    + inversion H as [| |? ? s1 s2 Ha Hb| | | |]; subst.
      change (String c (s1 +:+ s2)) with (String c s1 +:+ s2).
      constructor; auto.
  - intros H. remember (String c s) as cs eqn:Ecs. revert s Ecs.
    induction H as [|p a Hp|r1 r2 s1 s2 H1 IH1 H2 IH2|r1 r2 s' H IH
                   |r1 r2 s' H IH|r|r s1 s2 H1 IH1 H2 IH2];
      intros s Ecs; cbn.
    + discriminate.
    + injection Ecs as -> <-. rewrite Hp. constructor.
    + destruct s1 as [|a s1].
      * rewrite append_nil_l in Ecs.
        subst s2. apply nullable_Matches in H1. rewrite H1.
        apply MAltR. by apply IH2.
      * rewrite append_cons in Ecs. injection Ecs as -> <-.
        destruct (nullable r1); [apply MAltL|]; constructor; auto.
    + apply MAltL. by apply IH.
    + apply MAltR. by apply IH.
    + discriminate.
    + destruct s1 as [|a s1].
      * by apply IH2.
      * rewrite append_cons in Ecs. injection Ecs as -> <-.
        constructor; auto.
Qed.

Theorem matches_Matches r s : matches r s = true ↔ Matches r s.
Proof.
  revert r. induction s as [|c s IH]; intros r; cbn.
  - apply nullable_Matches.
  - rewrite IH. apply deriv_Matches.
Qed.

(** Strings on one line: no LF and no CR. *)
Fixpoint single_line (s : string) : bool :=
  match s with
  | EmptyString => true
  | String c s' =>
      negb ((Js.code c =? 10)%nat || (Js.code c =? 13)%nat) && single_line s'
  end.

Lemma Matches_lit_ci (l pre : string) :
  Js.toUpperCase pre = Js.toUpperCase l → Matches (lit true l) pre.
Proof.
  revert pre. induction l as [|a l IH]; intros [|c pre]; cbn;
    try discriminate.
  - constructor.
  - intros [= Hc Hs].
    change (String c pre) with (String c "" +:+ pre).
    constructor; [|by apply IH].
    constructor. rewrite Hc. apply Ascii.eqb_refl.
Qed.

Lemma Matches_star_any (s : string) : Matches (Star any) s.
Proof.
  induction s as [|c s IH]; [constructor|].
  change (String c s) with (String c "" +:+ s). by repeat constructor.
Qed.

Lemma Matches_star_dot (s : string) :
  single_line s = true → Matches (Star dot) s.
Proof.
  induction s as [|c s IH]; cbn; [constructor|].
  intros [Hc Hs]%andb_true_iff.
  change (String c s) with (String c "" +:+ s).
  constructor; [by constructor|by apply IH].
Qed.

Lemma test_prefix (p : pattern) (pre rest : string) :
  anchored_end p = false → Matches (body p) pre →
  test p (pre +:+ rest) = true.
Proof.
  intros Ha Hm. unfold test. rewrite Ha. apply matches_Matches.
  constructor; [done|apply Matches_star_any].
Qed.

Lemma test_whole (p : pattern) (s : string) :
  anchored_end p = true → Matches (body p) s → test p s = true.
Proof. intros Ha Hm. unfold test. rewrite Ha. by apply matches_Matches. Qed.

End Regex.

(** ** Environment source chain ([src/utils/env-provider.ts]) *)

Module EnvProvider.

(** What reading a property of an object gives when it is there: a
    string the object holds itself, or the property of that name which
    every object inherits from [Object.prototype] (a function, or the
    prototype itself for [__proto__]). *)
Inductive Value :=
  | Text (s : string)
  | Inherited (name : string).

(** The property names of [Object.prototype] (as the language defines it;
    the program adds none). *)
Definition Object_prototype : list string :=
  [ "constructor"; "__defineGetter__"; "__defineSetter__"; "hasOwnProperty";
    "__lookupGetter__"; "__lookupSetter__"; "isPrototypeOf";
    "propertyIsEnumerable"; "toString"; "valueOf"; "__proto__";
    "toLocaleString" ].

(** [object[key]] on an object whose own properties are [own]: an own
    property first, then the prototype. *)
Definition property (own : gmap string string) (key : string)
  : option Value :=
  match own !! key with
  | Some s => Some (Text s)
  | None =>
      if bool_decide (key ∈ Object_prototype) then Some (Inherited key)
      else None
  end.

(** [key in object] *)
Definition has_property (own : gmap string string) (key : string) : bool :=
  bool_decide (is_Some (own !! key)) || bool_decide (key ∈ Object_prototype).

(** The [EnvironmentProvider] interface.  [get] is declared to return
    [string | undefined]; what the implementations return is a property
    of an object.  The record [getAll] returns is given by its own
    properties. *)
Record EnvironmentProvider := {
  get : string → option Value;
  has : string → bool;
  getAll : gmap string string
}.

(** [ProcessEnvProvider], over the variables [process.env] holds (all
    of them strings, so [getAll] skips none as [undefined]).  [getAll]
    copies them one by one with [result[key] = value]; on the fresh object
    an assignment to [__proto__] reaches the setter of [Object.prototype],
    which ignores a string, so a variable of that name is not copied. *)
Definition ProcessEnvProvider (process_env : gmap string string)
  : EnvironmentProvider :=
  {| get := λ key, property process_env key;
     has := λ key, has_property process_env key;
     getAll := delete "__proto__" process_env |}.

(** [DotenvProvider]: a private copy of the parsed [.env] variables. *)
Definition DotenvProvider (envVars : gmap string string)
  : EnvironmentProvider :=
  let envVars := spread ∅ envVars in
  {| get := λ key, property envVars key;
     has := λ key, has_property envVars key;
     getAll := spread ∅ envVars |}.

Definition MergedEnvProvider (primary fallback : EnvironmentProvider)
  : EnvironmentProvider :=
  {| get := λ key, get primary key ?? get fallback key;
     has := λ key, has primary key || has fallback key;
     getAll := spread (spread ∅ (getAll fallback)) (getAll primary) |}.

Definition TripleMergedEnvProvider
    (mcpEnv dotenvEnv processEnv : EnvironmentProvider)
  : EnvironmentProvider :=
  {| get := λ key,
       get mcpEnv key ?? get dotenvEnv key ?? get processEnv key;
     has := λ key,
       has mcpEnv key || has dotenvEnv key || has processEnv key;
     getAll :=
       spread (spread (spread ∅ (getAll processEnv)) (getAll dotenvEnv))
              (getAll mcpEnv) |}.

Lemma spread_empty {V} (m : gmap string V) : spread ∅ m = m.
Proof. unfold spread. apply (right_id_L ∅ (∪)). Qed.

Lemma property_own own key s :
  own !! key = Some s → property own key = Some (Text s).
Proof. intros E. unfold property. by rewrite E. Qed.

Lemma property_plain own key :
  key ∉ Object_prototype → property own key = Text <$> own !! key.
Proof.
  intros Hk. unfold property. destruct (own !! key); [done|].
  by rewrite bool_decide_eq_false_2.
Qed.

Lemma property_inherited own key :
  key ∈ Object_prototype → own !! key = None →
  property own key = Some (Inherited key).
Proof.
  intros Hk E. unfold property. rewrite E.
  by rewrite bool_decide_eq_true_2.
Qed.

Lemma has_property_is_Some own key :
  has_property own key = bool_decide (is_Some (property own key)).
Proof.
  unfold has_property, property.
  destruct (own !! key); [done|].
  destruct (bool_decide (key ∈ Object_prototype)); reflexivity.
Qed.

Lemma not_Object_prototype_proto key :
  key ∉ Object_prototype → key ≠ "__proto__".
Proof.
  intros Hk ->. apply Hk. unfold Object_prototype. set_solver.
Qed.

(** For a variable whose name is not a property of [Object.prototype]
    the three leaf sources give precedence as intended: the
    caller-supplied value first, then the file's, then the process's; and
    the merged view holds what [get] returns. *)
Lemma triple_merged_precedence (mcp file process : gmap string string) key :
  key ∉ Object_prototype →
  let env := TripleMergedEnvProvider (DotenvProvider mcp)
               (DotenvProvider file) (ProcessEnvProvider process) in
  get env key = Text <$> (mcp !! key ?? file !! key ?? process !! key)
  ∧ property (getAll env) key = get env key
  ∧ has env key = bool_decide (is_Some (get env key)).
Proof.
  intros Hk.
  cbn [get has getAll TripleMergedEnvProvider DotenvProvider
       ProcessEnvProvider].
  rewrite !spread_empty.
  rewrite !property_plain by done. unfold has_property.
  rewrite (bool_decide_eq_false_2 _ Hk), !orb_false_r.
  rewrite !lookup_spread, lookup_delete_ne
    by (apply not_eq_sym; by apply not_Object_prototype_proto).
  by destruct (mcp !! key), (file !! key), (process !! key).
Qed.

(** Three sources that all set [LLM_TIMEOUT], two that set [LOG_LEVEL]. *)
Definition sample_mcp : gmap string string :=
  {[ "LLM_TIMEOUT" := "1000" ]}.
Definition sample_dotenv : gmap string string :=
  <[ "LOG_LEVEL" := "debug" ]> {[ "LLM_TIMEOUT" := "2000" ]}.
Definition sample_process : gmap string string :=
  <[ "LOG_LEVEL" := "info" ]> {[ "LLM_TIMEOUT" := "3000" ]}.

Lemma triple_merged_precedence_example :
  let env := TripleMergedEnvProvider (DotenvProvider sample_mcp)
               (DotenvProvider sample_dotenv)
               (ProcessEnvProvider sample_process) in
  get env "LLM_TIMEOUT" = Some (Text "1000")
  ∧ get env "LOG_LEVEL" = Some (Text "debug")
  ∧ property (getAll env) "LOG_LEVEL" = get env "LOG_LEVEL".
Proof. cbv zeta. repeat split; vm_compute; reflexivity. Qed.

(** A variable named [constructor], set in the file and in the process
    environment but not by the caller. *)
Definition shadowed_mcp : gmap string string := ∅.
Definition shadowed_dotenv : gmap string string :=
  {[ "constructor" := "from-file" ]}.
Definition shadowed_process : gmap string string :=
  {[ "constructor" := "from-process" ]}.

(** C1 — precedence of the three-tier chain, at a variable named like a
    property of [Object.prototype].  [constructor] is set in the file-based
    and the process source only; [get] returns neither value but the
    function the caller-supplied source's object inherits, while the merged
    view [getAll] holds the file-based value under that key: [get] does not
    return the file-based value, and the merged view differs from [get]. *)
Theorem triple_merged_get_returns_inherited_property :
  let env := TripleMergedEnvProvider (DotenvProvider shadowed_mcp)
               (DotenvProvider shadowed_dotenv)
               (ProcessEnvProvider shadowed_process) in
  shadowed_mcp !! "constructor" = None
  ∧ shadowed_dotenv !! "constructor" = Some "from-file"
  ∧ shadowed_process !! "constructor" = Some "from-process"
  ∧ get env "constructor" = Some (Inherited "constructor")
  ∧ getAll env !! "constructor" = Some "from-file"
  ∧ property (getAll env) "constructor" = Some (Text "from-file").
Proof. cbv zeta. repeat split; vm_compute; reflexivity. Qed.

(** X7 — The three-tier source is the two-tier one nested: [mcpEnv] merged
    over ([dotenvEnv] merged over [processEnv]), method by method. *)
Theorem triple_merged_is_nested_merged
    (mcpEnv dotenvEnv processEnv : EnvironmentProvider) :
  let triple := TripleMergedEnvProvider mcpEnv dotenvEnv processEnv in
  let nested :=
    MergedEnvProvider mcpEnv (MergedEnvProvider dotenvEnv processEnv) in
  (∀ key, get triple key = get nested key)
  ∧ (∀ key, has triple key = has nested key)
  ∧ getAll triple = getAll nested.
Proof.
  cbv zeta. split; [intros key; reflexivity|]. split.
  - intros key. cbn. symmetry. apply orb_assoc.
  - cbn [getAll TripleMergedEnvProvider MergedEnvProvider].
    by rewrite !spread_empty.
Qed.

(** [DotenvProvider.setVars(vars)]: the variables are replaced, not
    merged. *)
Definition setVars (vars : gmap string string) (p : EnvironmentProvider)
  : EnvironmentProvider := DotenvProvider vars.

(** *** The source chain built at start-up
    ([initializeEnvironmentProvider] in [src/index.ts])

    What the start-up code observes of the process, and what loading the
    [.env] file of the project root gives: the file is missing,
    [dotenv.config] returns an [error] or a [parsed] object (possibly
    [undefined]), or an exception is thrown on the way.  Console output
    is left out. *)
Record Process := {
  env : gmap string string;
  argv : list string;
  cwd : string;
  filename : string
}.

Inductive DotenvConfigOutput :=
  | ConfigError (message : string)
  | ConfigParsed (parsed : option (gmap string string)).

Inductive DotenvLoad :=
  | EnvFileMissing
  | EnvFileRead (result : DotenvConfigOutput)
  | LoadThrows (message : string).

Definition isNPX (p : Process) : bool :=
  Js.includes "_npx" (filename p) || Js.includes ".npm" (filename p)
  || Js.includes "_npx" (cwd p) || Js.includes ".npm" (cwd p)
  || existsb (λ arg, Js.includes "npx" arg) (argv p).

(** Both [ProcessEnvProvider]s read [process.env] when they are asked;
    [p] is the process at that time. *)
Definition initializeEnvironmentProvider (p : Process) (load : DotenvLoad)
  : EnvironmentProvider :=
  let mcpProvider := ProcessEnvProvider (env p) in
  let processProvider := ProcessEnvProvider (env p) in
  let dotenvProvider := DotenvProvider ∅ in
  let dotenvProvider :=
    if isNPX p then dotenvProvider
    else
      match load with
      | EnvFileRead (ConfigParsed parsed) =>
          setVars (default ∅ parsed) dotenvProvider
      | EnvFileRead (ConfigError _) => dotenvProvider
      | EnvFileMissing => dotenvProvider
      | LoadThrows _ => dotenvProvider
      end in
  TripleMergedEnvProvider mcpProvider dotenvProvider processProvider.

(** X8 — In the chain built at start-up the first and the last tier are both
    [process.env]: a variable set in [process.env] resolves to that value
    whatever the [.env] file says.  The file only supplies variables
    [process.env] lacks and whose name is not a property of
    [Object.prototype] (for such a name [process.env] lacks, [get] returns
    the inherited property and [has] is true, whatever the file says), and
    it supplies nothing at all under [npx] or when it could not be loaded.
    The merged view holds the file's variables under those of
    [process.env], a variable of [process.env] named [__proto__] left
    out. *)
Theorem initializeEnvironmentProvider_resolution (p : Process)
    (load : DotenvLoad) :
  let provider := initializeEnvironmentProvider p load in
  let file_vars :=
    if isNPX p then ∅
    else match load with
         | EnvFileRead (ConfigParsed (Some parsed)) => parsed
         | _ => ∅
         end in
  (∀ key, get provider key
          = property (env p) key ?? (Text <$> file_vars !! key))
  ∧ (∀ key value, env p !! key = Some value →
       get provider key = Some (Text value))
  ∧ (∀ key, key ∉ Object_prototype →
       get provider key = Text <$> (env p !! key ?? file_vars !! key))
  ∧ (∀ key, key ∈ Object_prototype → env p !! key = None →
       get provider key = Some (Inherited key))
  ∧ (∀ key, has provider key = bool_decide (is_Some (get provider key)))
  ∧ getAll provider = spread file_vars (delete "__proto__" (env p)).
Proof.
  cbv zeta.
  assert (∃ vars,
    initializeEnvironmentProvider p load
    = TripleMergedEnvProvider (ProcessEnvProvider (env p))
        (DotenvProvider vars) (ProcessEnvProvider (env p))
    ∧ vars = (if isNPX p then ∅
              else match load with
                   | EnvFileRead (ConfigParsed (Some parsed)) => parsed
                   | _ => ∅
                   end)) as (vars & -> & <-).
  { unfold initializeEnvironmentProvider, setVars.
    destruct (isNPX p); [by eexists|].
    destruct load as [|[m|[parsed|]]|m]; cbn [default]; by eexists. }
  assert (∀ key, get (TripleMergedEnvProvider (ProcessEnvProvider (env p))
                        (DotenvProvider vars) (ProcessEnvProvider (env p))) key
                 = property (env p) key ?? (Text <$> vars !! key)) as Hget.
  { intros key. cbn. rewrite spread_empty. unfold property.
    destruct (env p !! key); [done|].
    destruct (bool_decide (key ∈ Object_prototype)); [done|].
    by destruct (vars !! key). }
  split; [exact Hget|]. split; [|split; [|split; [|split]]].
  - intros key value Hv. rewrite Hget, (property_own _ _ _ Hv). done.
  - intros key Hk. rewrite Hget, property_plain by done.
    by destruct (env p !! key), (vars !! key).
  - intros key Hk Hv. by rewrite Hget, property_inherited.
  - intros key. rewrite Hget. cbn. rewrite spread_empty.
    rewrite !has_property_is_Some. unfold property.
    destruct (env p !! key); [done|].
    destruct (bool_decide (key ∈ Object_prototype)); [done|].
    by destruct (vars !! key).
  - cbn. rewrite !spread_empty. unfold spread.
    apply map_eq. intros key. rewrite !lookup_union.
    by destruct (delete "__proto__" (env p) !! key), (vars !! key).
Qed.

End EnvProvider.

(** ** Unified environment cache ([EnvironmentCache] in [src/config-manager.ts]) *)

Module Cache.

(** A time-to-live: a number of milliseconds, or [Infinity]. *)
Inductive Ttl := Ms (ms : Z) | Infinity.

(** [now - timestamp > ttl] *)
Definition elapsed_gt (now timestamp : Z) (t : Ttl) : bool :=
  match t with
  | Ms ms => ms <? now - timestamp
  | Infinity => false
  end.

Section EnvironmentCache.
Context {V E : Type}.

(** A cached value is any JavaScript value: [None] stands for
    [undefined], [Some v] for every other value. *)
Record ConfigCache := {
  value : option V;
  timestamp : Z;
  ttl : Ttl
}.

(** The cache object: the [cache] map, the [inFlight] map (a promise is
    named by its index in the promise store below) and the [defaultTTL]
    option given to the constructor. *)
Record EnvironmentCache := {
  cache : gmap string ConfigCache;
  inFlight : gmap string nat;
  defaultTTL : option Ttl
}.

Definition with_cache (c : EnvironmentCache) m : EnvironmentCache :=
  {| cache := m; inFlight := inFlight c; defaultTTL := defaultTTL c |}.

Definition with_inFlight (c : EnvironmentCache) f : EnvironmentCache :=
  {| cache := cache c; inFlight := f; defaultTTL := defaultTTL c |}.

(** [get(key, ttl?)] executed when [Date.now()] is [now]: the value
    returned and the cache afterwards. *)
Definition get (now : Z) (key : string) (ttl_arg : option Ttl)
    (c : EnvironmentCache) : option V * EnvironmentCache :=
  match cache c !! key with
  | None => (None, c)
  | Some entry =>
      let effectiveTTL := ttl_arg ?? Some (ttl entry) in
      match effectiveTTL with
      | Some t =>
          if elapsed_gt now (timestamp entry) t
          then (None, with_cache c (delete key (cache c)))
          else (value entry, c)
      | None => (value entry, c)
      end
  end.

(** [set(key, value, ttl?)] executed when [Date.now()] is [now]. *)
Definition set (now : Z) (key : string) (v : option V)
    (ttl_arg : option Ttl) (c : EnvironmentCache) : EnvironmentCache :=
  with_cache c
    (<[ key := {| value := v; timestamp := now;
                  ttl := default Infinity (ttl_arg ?? defaultTTL c) |} ]>
       (cache c)).

(** [delete(key)] *)
Definition delete_key (key : string) (c : EnvironmentCache)
  : bool * EnvironmentCache :=
  (bool_decide (is_Some (cache c !! key)),
   {| cache := delete key (cache c);
      inFlight := delete key (inFlight c);
      defaultTTL := defaultTTL c |}).

(** [clear()] *)
Definition clear (c : EnvironmentCache) : EnvironmentCache :=
  {| cache := ∅; inFlight := ∅; defaultTTL := defaultTTL c |}.

(** *** [getOrCompute] and the promises it creates

    JavaScript runs one job at a time.  A call of [getOrCompute] runs to
    its [return] without suspension; the two callbacks given to [then]
    run later, as one job, when the resolver's promise is settled.  The
    promise store records, for each promise built by [getOrCompute], the
    key and ttl its callbacks closed over and its state. *)

Inductive Settled := Fulfilled (v : option V) | RejectedWith (e : E).

(** What [resolver()] does when it is invoked: it throws, it returns a
    value, or it returns a promise (settled later from outside). *)
Inductive ResolverResult :=
  | Throws (e : E)
  | Returns (v : option V)
  | ReturnsPromise.

Record Computation := {
  c_key : string;
  c_ttl : option Ttl;
  c_source : ResolverResult;
  c_state : option Settled
}.

Record Runtime := {
  envCache : EnvironmentCache;
  promises : list Computation;
  resolverCalls : nat
}.

(** What the promise returned to a caller is resolved with: the cached
    value, one of the stored promises, or the exception the resolver
    threw inside the [async] body. *)
Inductive Reply := Cached (v : V) | Shares (pid : nat) | Rejects (e : E).

Definition getOrCompute (now : Z) (key : string)
    (resolver : ResolverResult) (ttl_arg : option Ttl) (rt : Runtime)
  : Reply * Runtime :=
  let '(cached, c1) := get now key ttl_arg (envCache rt) in
  match cached with
  | Some v =>
      (Cached v, {| envCache := c1; promises := promises rt;
                    resolverCalls := resolverCalls rt |})
  | None =>
      match inFlight c1 !! key with
      | Some existing =>
          (Shares existing,
           {| envCache := c1; promises := promises rt;
              resolverCalls := resolverCalls rt |})
      | None =>
          match resolver with
          | Throws e =>
              (Rejects e,
               {| envCache := c1; promises := promises rt;
                  resolverCalls := S (resolverCalls rt) |})
          | _ =>
              let promise := length (promises rt) in
              (Shares promise,
               {| envCache :=
                    with_inFlight c1 (<[ key := promise ]> (inFlight c1));
                  promises := promises rt ++
                    [ {| c_key := key; c_ttl := ttl_arg;
                         c_source := resolver; c_state := None |} ];
                  resolverCalls := S (resolverCalls rt) |})
          end
      end
  end.

(** The outcome [o] is one the resolver's result can settle with. *)
Definition settles_with (r : ResolverResult) (o : Settled) : bool :=
  match r, o with
  | Returns v, Fulfilled _ => true
  | Returns _, RejectedWith _ => false
  | ReturnsPromise, _ => true
  | Throws _, _ => false
  end.

Definition outcome_of (r : ResolverResult) (o : Settled) : Settled :=
  match r with
  | Returns v => Fulfilled v
  | _ => o
  end.

(** The job run when the resolver's promise of computation [pid] is
    settled with [o], at time [now]: the first [then] callback on
    fulfilment, the second on rejection.  [None] when [pid] names no
    pending computation or cannot settle that way. *)
Definition settle (now : Z) (pid : nat) (o : Settled) (rt : Runtime)
  : option Runtime :=
  match promises rt !! pid with
  | Some comp =>
      match c_state comp with
      | Some _ => None
      | None =>
          if settles_with (c_source comp) o then
            let o' := outcome_of (c_source comp) o in
            let c := envCache rt in
            let c1 :=
              match o' with
              | Fulfilled v => set now (c_key comp) v (c_ttl comp) c
              | RejectedWith _ => c
              end in
            Some {| envCache :=
                      with_inFlight c1 (delete (c_key comp) (inFlight c1));
                    promises :=
                      <[ pid := {| c_key := c_key comp; c_ttl := c_ttl comp;
                                   c_source := c_source comp;
                                   c_state := Some o' |} ]> (promises rt);
                    resolverCalls := resolverCalls rt |}
          else None
      end
  | None => None
  end.

(** What a caller holding [r] has received in runtime [rt], if anything
    yet. *)
Definition received (rt : Runtime) (r : Reply) : option Settled :=
  match r with
  | Cached v => Some (Fulfilled (Some v))
  | Rejects e => Some (RejectedWith e)
  | Shares pid => c ← promises rt !! pid; c_state c
  end.

(** Calls for the same key issued one after the other, at the times
    listed, before any other job runs. *)
Fixpoint fire (times : list Z) (key : string) (resolver : ResolverResult)
    (ttl_arg : option Ttl) (rt : Runtime) : list Reply * Runtime :=
  match times with
  | [] => ([], rt)
  | now :: rest =>
      let '(r, rt1) := getOrCompute now key resolver ttl_arg rt in
      let '(rs, rt2) := fire rest key resolver ttl_arg rt1 in
      (r :: rs, rt2)
  end.

End EnvironmentCache.

Arguments ConfigCache : clear implicits.
Arguments EnvironmentCache : clear implicits.
Arguments Settled : clear implicits.
Arguments ResolverResult : clear implicits.
Arguments Computation : clear implicits.
Arguments Runtime : clear implicits.
Arguments Reply : clear implicits.

Section Facts.
Context {V E : Type}.
Implicit Types (c : EnvironmentCache V) (rt : Runtime V E).

Lemma get_inFlight now key t c : inFlight (snd (get now key t c)) = inFlight c.
Proof.
  unfold get. destruct (cache c !! key) as [e|]; [|done].
  destruct (t ?? Some (ttl e)) as [t'|]; [|done].
  by destruct (elapsed_gt now (timestamp e) t').
Qed.

Lemma get_defaultTTL now key t c :
  defaultTTL (snd (get now key t c)) = defaultTTL c.
Proof.
  unfold get. destruct (cache c !! key) as [e|]; [|done].
  destruct (t ?? Some (ttl e)) as [t'|]; [|done].
  by destruct (elapsed_gt now (timestamp e) t').
Qed.

(** A read that found nothing leaves a cache in which every later read
    of that key finds nothing. *)
Definition absent key t c : Prop := ∀ now, fst (get now key t c) = None.

Lemma get_None_absent now key t c :
  fst (get now key t c) = None → absent key t (snd (get now key t c)).
Proof.
  unfold absent, get. intros H now'.
  destruct (cache c !! key) as [e|] eqn:Ee; cbn.
  - destruct (t ?? Some (ttl e)) as [t'|] eqn:Et.
    + destruct (elapsed_gt now (timestamp e) t') eqn:Eg; cbn in *.
      * by rewrite lookup_delete_eq.
      * rewrite Ee, Et. by destruct (elapsed_gt now' (timestamp e) t').
    + by destruct t.
  - by rewrite Ee.
Qed.

Lemma absent_get now key t c :
  absent key t c → absent key t (snd (get now key t c)).
Proof. intros H. apply get_None_absent, H. Qed.

Lemma get_set now t0 key v T c :
  get now key None (set t0 key v (Some (Ms T)) c)
  = if T <? now - t0
    then (None, with_cache (set t0 key v (Some (Ms T)) c)
                  (delete key (cache (set t0 key v (Some (Ms T)) c))))
    else (v, set t0 key v (Some (Ms T)) c).
Proof. unfold get, set. cbn. by rewrite lookup_insert_eq. Qed.

Lemma get_set_call_site now t0 key v T T' c :
  get now key (Some (Ms T')) (set t0 key v (Some (Ms T)) c)
  = if T' <? now - t0
    then (None, with_cache (set t0 key v (Some (Ms T)) c)
                  (delete key (cache (set t0 key v (Some (Ms T)) c))))
    else (v, set t0 key v (Some (Ms T)) c).
Proof. unfold get, set. cbn. by rewrite lookup_insert_eq. Qed.

(** While the key stays absent from the cache and its promise stays in
    the in-flight map, every further call returns that promise and runs
    nothing. *)
Lemma fire_in_flight times key (resolver : ResolverResult V E) t rt pid :
  absent key t (envCache rt) →
  inFlight (envCache rt) !! key = Some pid →
  fst (fire times key resolver t rt) = map (λ _, Shares pid) times
  ∧ resolverCalls (snd (fire times key resolver t rt)) = resolverCalls rt
  ∧ promises (snd (fire times key resolver t rt)) = promises rt
  ∧ inFlight (envCache (snd (fire times key resolver t rt)))
    = inFlight (envCache rt)
  ∧ absent key t (envCache (snd (fire times key resolver t rt))).
Proof.
  revert rt. induction times as [|now rest IH]; intros rt Habs Hfl; [done|].
  cbn [fire]. unfold getOrCompute.
  pose proof (Habs now) as Hnow.
  pose proof (get_inFlight now key t (envCache rt)) as Hin.
  pose proof (absent_get now key t (envCache rt) Habs) as Habs'.
  destruct (get now key t (envCache rt)) as [cached c1]. cbn in *.
  subst cached. rewrite Hin, Hfl.
  specialize (IH {| envCache := c1; promises := promises rt;
                    resolverCalls := resolverCalls rt |}).
  cbn in IH. rewrite Hin in IH. specialize (IH Habs' Hfl).
  destruct (fire rest key resolver t _) as [rs rt2]. cbn in *.
  destruct IH as (-> & ? & ? & ? & ?). done.
Qed.

Lemma get_fst_cache now key t c c' :
  cache c = cache c' → fst (get now key t c) = fst (get now key t c').
Proof.
  intros H. unfold get. rewrite H.
  destruct (cache c' !! key) as [e|]; [|done].
  destruct (t ?? Some (ttl e)) as [t'|]; [|done].
  by destruct (elapsed_gt now (timestamp e) t').
Qed.

Lemma absent_with_inFlight key t c f :
  absent key t c → absent key t (with_inFlight c f).
Proof.
  intros H now. rewrite <- (H now). by apply get_fst_cache.
Qed.

Lemma getOrCompute_runs_resolver now key (r : ResolverResult V E) t rt :
  fst (get now key t (envCache rt)) = None →
  inFlight (envCache rt) !! key = None →
  resolverCalls (snd (getOrCompute now key r t rt)) = S (resolverCalls rt).
Proof.
  intros Hget Hfl. unfold getOrCompute.
  pose proof (get_inFlight now key t (envCache rt)) as Hin.
  destruct (get now key t (envCache rt)) as [cached c1]. cbn in *.
  subst cached. rewrite Hin, Hfl. by destruct r.
Qed.

(** The first call for a key that is neither cached nor in flight
    invokes the resolver and registers the promise it builds. *)
Lemma getOrCompute_starts now key (resolver : ResolverResult V E) t rt :
  (∀ e, resolver ≠ Throws e) →
  fst (get now key t (envCache rt)) = None →
  inFlight (envCache rt) !! key = None →
  getOrCompute now key resolver t rt
  = (Shares (length (promises rt)),
     {| envCache :=
          with_inFlight (snd (get now key t (envCache rt)))
            (<[ key := length (promises rt) ]> (inFlight (envCache rt)));
        promises := promises rt ++
          [ {| c_key := key; c_ttl := t; c_source := resolver;
               c_state := None |} ];
        resolverCalls := S (resolverCalls rt) |}).
Proof.
  intros Hres Hget Hfl. unfold getOrCompute.
  pose proof (get_inFlight now key t (envCache rt)) as Hin.
  destruct (get now key t (envCache rt)) as [cached c1]. cbn in *.
  subst cached. rewrite Hin, Hfl.
  destruct resolver as [e| |]; [by destruct (Hres e)|done|done].
Qed.

(** Single flight.  [S (length rest)] calls for one key that is not
    cached and not in flight, with a resolver that returns a value or a
    promise: the resolver is invoked once, every caller holds the same
    promise and so receives the same outcome; the job that settles the
    promise, either way, removes the in-flight entry, and a later call
    that finds the key uncached invokes the resolver again (after a
    rejection the key is uncached at every later time). *)
Theorem getOrCompute_single_flight rt key (resolver : ResolverResult V E)
    t t1 (rest : list Z) :
  (∀ e, resolver ≠ Throws e) →
  fst (get t1 key t (envCache rt)) = None →
  inFlight (envCache rt) !! key = None →
  let times := t1 :: rest in
  let replies := fst (fire times key resolver t rt) in
  let rt1 := snd (fire times key resolver t rt) in
  let pid := length (promises rt) in
  resolverCalls rt1 = S (resolverCalls rt)
  ∧ replies = map (λ _, Shares pid) times
  ∧ inFlight (envCache rt1) !! key = Some pid
  ∧ ∀ now o, settles_with resolver o = true →
      ∃ rt2, settle now pid o rt1 = Some rt2
        ∧ Forall (λ r, received rt2 r = Some (outcome_of resolver o)) replies
        ∧ resolverCalls rt2 = S (resolverCalls rt)
        ∧ inFlight (envCache rt2) !! key = None
        ∧ (∀ e, outcome_of resolver o = RejectedWith e →
             absent key t (envCache rt2))
        ∧ (∀ now' r', fst (get now' key t (envCache rt2)) = None →
             resolverCalls (snd (getOrCompute now' key r' t rt2))
             = S (resolverCalls rt2)).
Proof.
  intros Hres Hget Hfl times replies rt1 pid.
  subst times replies rt1. cbn [fire].
  rewrite (getOrCompute_starts t1 key resolver t rt Hres Hget Hfl).
  fold pid.
  pose proof (get_None_absent t1 key t (envCache rt) Hget) as Habs.
  set (c1 := snd (get t1 key t (envCache rt))) in *.
  set (comp := {| c_key := key; c_ttl := t; c_source := resolver;
                  c_state := None |}).
  set (rt0 := {| envCache := with_inFlight c1 (<[key:=pid]> (inFlight (envCache rt)));
                 promises := promises rt ++ [comp];
                 resolverCalls := S (resolverCalls rt) |}).
  destruct (fire_in_flight rest key resolver t rt0 pid) as (Hr & Hc & Hp & Hi & Ha).
  { apply absent_with_inFlight, Habs. }
  { cbn. apply lookup_insert_eq. }
  destruct (fire rest key resolver t rt0) as [rs rt1]. cbn in Hr, Hc, Hp, Hi, Ha.
  cbn [fst snd]. subst rs.
  split; [exact Hc|]. split; [done|].
  split; [rewrite Hi; cbn; apply lookup_insert_eq|].
  intros now o Hs. unfold settle. rewrite Hp. cbn [promises rt0].
  assert ((promises rt ++ [comp])%list !! pid = Some comp) as ->.
  { subst pid. rewrite lookup_app_r by lia. by rewrite Nat.sub_diag. }
  cbn [c_state comp c_source c_key c_ttl]. rewrite Hs.
  eexists. split; [reflexivity|]. cbn [envCache promises resolverCalls].
  assert (pid < length (promises rt ++ [comp])%list)%nat as Hlt.
  { rewrite length_app. cbn. subst pid. lia. }
  split; [|split; [exact Hc|split; [|split]]].
  - change (Shares pid :: map (λ _, Shares pid) rest)
      with (map (λ _ : Z, @Shares V E pid) (t1 :: rest)).
    apply Forall_map, Forall_forall. intros ? _. cbn.
    rewrite list_lookup_insert_eq by exact Hlt. done.
  - cbn. apply lookup_delete_eq.
  - intros e He now'. rewrite He. rewrite <- (Ha now').
    by apply get_fst_cache.
  - intros now' r' Hg.
    rewrite getOrCompute_runs_resolver; [done|exact Hg|].
    cbn. apply lookup_delete_eq.
Qed.

(** C5 — lazy expiry.  After [set(key, v, T)] at time [t0], a [get(key)]
    that passes no ttl of its own returns [v], and keeps the entry, while
    [now - t0 < T] and also at [now - t0 = T]; once [now - t0 > T] it
    returns [undefined] and removes the entry.  A [get(key, T')] is decided
    against [T'] in place of [T]. *)
Theorem get_after_set_ttl c key (v : option V) T t0 now :
  let c1 := set t0 key v (Some (Ms T)) c in
  let gone := with_cache c1 (delete key (cache c1)) in
  (now - t0 < T → get now key None c1 = (v, c1))
  ∧ (now - t0 = T → get now key None c1 = (v, c1))
  ∧ (T < now - t0 → get now key None c1 = (None, gone))
  ∧ (∀ T', get now key (Some (Ms T')) c1
           = if T' <? now - t0 then (None, gone) else (v, c1)).
Proof.
  intros c1 gone. subst c1 gone. repeat split.
  - intros Hlt. rewrite get_set.
    destruct (Z.ltb_spec T (now - t0)); [lia|done].
  - intros Heq. rewrite get_set.
    destruct (Z.ltb_spec T (now - t0)); [lia|done].
  - intros Hgt. rewrite get_set.
    destruct (Z.ltb_spec T (now - t0)); [done|lia].
  - intros T'. apply get_set_call_site.
Qed.

End Facts.

Definition empty_cache : EnvironmentCache string :=
  {| cache := ∅; inFlight := ∅; defaultTTL := Some (Ms 30000) |}.

Definition empty_runtime : Runtime string string :=
  {| envCache := empty_cache; promises := []; resolverCalls := 0 |}.

Lemma getOrCompute_single_flight_witness :
  let times := [0; 0; 0] in
  let replies := fst (fire times "K" (Returns (Some "v")) None empty_runtime) in
  let rt1 := snd (fire times "K" (Returns (Some "v")) None empty_runtime) in
  resolverCalls rt1 = 1%nat
  ∧ replies = [Shares 0; Shares 0; Shares 0]
  ∧ (∃ rt2, settle 5 0%nat (Fulfilled (Some "v")) rt1 = Some rt2
       ∧ Forall (λ r, received rt2 r = Some (Fulfilled (Some "v"))) replies
       ∧ inFlight (envCache rt2) !! "K" = None).
Proof.
  assert (∀ e : string, Returns (Some "v") ≠ Throws e) as Hres
    by discriminate.
  pose proof (getOrCompute_single_flight empty_runtime "K"
                (Returns (Some "v")) None 0 [0; 0] Hres eq_refl eq_refl)
    as (H1 & H2 & _ & H4).
  cbv zeta. split; [exact H1|]. split; [exact H2|].
  destruct (H4 5 (Fulfilled (Some "v")) eq_refl) as (rt2 & Hs & Hr & _ & Hi & _).
  exists rt2. split; [exact Hs|]. split; [exact Hr|exact Hi].
Defined.

(** C2 — single flight, with a resolver that throws when it is invoked.
    Two calls for the uncached key [K], one after the other on the empty
    cache: [resolver()] is evaluated before anything is registered, so the
    first call is rejected and leaves no in-flight entry, and the second
    call invokes the resolver again.  The resolver runs twice, not once;
    each caller holds a rejection of its own and no promise is shared. *)
Theorem getOrCompute_throwing_resolver_runs_per_call :
  let calls := fire [0; 0] "K" (Throws "boom") None empty_runtime in
  resolverCalls (snd calls) = 2%nat
  ∧ fst calls = [Rejects "boom"; Rejects "boom"]
  ∧ inFlight (envCache (snd calls)) !! "K" = None
  ∧ promises (snd calls) = [].
Proof. cbv zeta. repeat split; vm_compute; reflexivity. Qed.

Lemma get_after_set_ttl_witness :
  let c1 := set 0 "K" (Some "v") (Some (Ms 100)) empty_cache in
  get 99 "K" None c1 = (Some "v", c1)
  ∧ get 100 "K" None c1 = (Some "v", c1)
  ∧ fst (get 101 "K" None c1) = None.
Proof.
  cbv zeta. split; [|split].
  - destruct (get_after_set_ttl empty_cache "K" (Some "v") 100 0 99)
      as (H & _). apply H. lia.
  - destruct (get_after_set_ttl empty_cache "K" (Some "v") 100 0 100)
      as (_ & H & _). apply H. lia.
  - destruct (get_after_set_ttl empty_cache "K" (Some "v") 100 0 101)
      as (_ & _ & H & _). rewrite H by lia. reflexivity.
Defined.

(** A read ten milliseconds after [set(key, v, 100)] that passes the
    ttl [5] of its own finds nothing, although [10 < 100]. *)
Lemma get_call_site_ttl_overrides_stored :
  let c1 := set 0 "K" (Some "v") (Some (Ms 100)) empty_cache in
  10 - 0 < 100 ∧ fst (get 10 "K" (Some (Ms 5)) c1) = None.
Proof. cbv zeta. split; [lia|reflexivity]. Qed.

Section Maintenance.
Context {V E : Type}.
Implicit Types (c : EnvironmentCache V) (rt : Runtime V E).

(** [now - entry.timestamp > entry.ttl] *)
Definition expired (now : Z) (entry : ConfigCache V) : bool :=
  elapsed_gt now (timestamp entry) (ttl entry).

(** [sweep()] executed when [Date.now()] is [now]: the number of entries
    removed and the cache afterwards.  The loop visits every entry of
    the map once; what it leaves does not depend on the order. *)
Definition sweep (now : Z) (c : EnvironmentCache V) : nat * EnvironmentCache V :=
  let '(removed, m) :=
    map_fold
      (λ key entry '(removed, m),
         if expired now entry then (S removed, delete key m)
         else (removed, m))
      (0%nat, cache c) (cache c) in
  (removed, with_cache c m).

(** [getStats()] *)
Definition getStats (c : EnvironmentCache V) : nat * nat :=
  (size (cache c), size (inFlight c)).

Lemma sweep_fold now (M0 m : gmap string (ConfigCache V)) :
  let r := map_fold
      (λ key entry '(removed, m),
         if expired now entry then (S removed, delete key m)
         else (removed, m))
      (0%nat, M0) m in
  fst r = size (filter (λ kv, expired now kv.2 = true) m)
  ∧ ∀ k, snd r !! k
         = match m !! k with
           | Some e => if expired now e then None else M0 !! k
           | None => M0 !! k
           end.
Proof.
  cbv zeta.
  apply (map_fold_weak_ind (λ r m,
    fst r = size (filter (λ kv, expired now kv.2 = true) m)
    ∧ ∀ k, snd r !! k
           = match m !! k with
             | Some e => if expired now e then None else M0 !! k
             | None => M0 !! k
             end)).
  - split; [by rewrite map_filter_empty, map_size_empty|].
    intros k. by rewrite lookup_empty.
  - intros i x m' [n M] Hi [Hn HM]. cbn in Hn, HM.
    destruct (expired now x) eqn:Ex; cbn.
    + split.
      * rewrite map_filter_insert_True by done.
        rewrite map_size_insert_None; [by rewrite Hn|].
        apply map_lookup_filter_None. by left.
      * intros k. destruct (decide (k = i)) as [->|Hne].
        -- by rewrite lookup_delete_eq, lookup_insert_eq, Ex.
        -- by rewrite lookup_delete_ne, lookup_insert_ne, HM by done.
    + split.
      * rewrite map_filter_insert_False by (cbn; congruence).
        rewrite delete_id; [done|exact Hi].
      * intros k. destruct (decide (k = i)) as [->|Hne].
        -- by rewrite lookup_insert_eq, Ex, HM, Hi.
        -- by rewrite lookup_insert_ne, HM by done.
Qed.

Lemma sweep_cache now c :
  cache (snd (sweep now c))
  = filter (λ kv, expired now kv.2 = false) (cache c).
Proof.
  unfold sweep.
  pose proof (sweep_fold now (cache c) (cache c)) as H. cbv zeta in H.
  destruct (map_fold _ _ _) as [n M]. cbn in *. destruct H as [_ HM].
  apply map_eq. intros k. rewrite HM.
  destruct (cache c !! k) as [e|] eqn:Ek.
  - destruct (expired now e) eqn:Ex.
    + symmetry. apply map_lookup_filter_None. right. intros e' He'.
      cbn. congruence.
    + symmetry. apply map_lookup_filter_Some. by split.
  - symmetry. apply map_lookup_filter_None. by left.
Qed.

Lemma sweep_count now c :
  fst (sweep now c)
  = size (filter (λ kv, expired now kv.2 = true) (cache c)).
Proof.
  unfold sweep.
  pose proof (sweep_fold now (cache c) (cache c)) as H. cbv zeta in H.
  destruct (map_fold _ _ _) as [n M]. cbn in *. by destruct H as [Hn _].
Qed.

Lemma sweep_inFlight now c : inFlight (snd (sweep now c)) = inFlight c.
Proof. unfold sweep. by destruct (map_fold _ _ _). Qed.

Lemma sweep_defaultTTL now c : defaultTTL (snd (sweep now c)) = defaultTTL c.
Proof. unfold sweep. by destruct (map_fold _ _ _). Qed.

Lemma size_filter_split now (m : gmap string (ConfigCache V)) :
  (size (filter (λ kv, expired now kv.2 = true) m)
   + size (filter (λ kv, expired now kv.2 = false) m))%nat = size m.
Proof.
  induction m as [|k e m Hk IH] using map_ind.
  - by rewrite !map_filter_empty, map_size_empty.
  - rewrite map_size_insert_None by done.
    destruct (expired now e) eqn:Ex.
    + rewrite map_filter_insert_True by done.
      rewrite map_filter_insert_False by (cbn; congruence).
      rewrite map_size_insert_None
        by (apply map_lookup_filter_None; by left).
      rewrite delete_id by done. lia.
    + rewrite map_filter_insert_False by (cbn; congruence).
      rewrite map_filter_insert_True by done.
      rewrite map_size_insert_None
        by (apply map_lookup_filter_None; by left).
      rewrite delete_id by done. lia.
Qed.

(** X1 — [sweep] removes the entries whose own ttl has run out at the time
    of the sweep, and those only; it returns how many they were, and leaves
    the other entries, the in-flight map and the default ttl as they were.
    An entry stored without limit ([Infinity]) is never swept. *)
Theorem sweep_removes_expired now c :
  cache (snd (sweep now c))
  = filter (λ kv, expired now kv.2 = false) (cache c)
  ∧ fst (sweep now c)
    = size (filter (λ kv, expired now kv.2 = true) (cache c))
  ∧ (fst (sweep now c) + size (cache (snd (sweep now c))))%nat
    = size (cache c)
  ∧ inFlight (snd (sweep now c)) = inFlight c
  ∧ defaultTTL (snd (sweep now c)) = defaultTTL c
  ∧ ∀ key e, cache c !! key = Some e → ttl e = Infinity →
      cache (snd (sweep now c)) !! key = Some e.
Proof.
  split; [apply sweep_cache|]. split; [apply sweep_count|]. split.
  { rewrite sweep_count, sweep_cache. apply size_filter_split. }
  split; [apply sweep_inFlight|]. split; [apply sweep_defaultTTL|].
  intros key e Ek Ht. rewrite sweep_cache. apply map_lookup_filter_Some.
  split; [done|]. cbn. unfold expired. by rewrite Ht.
Qed.

(** X2 — A sweep goes unnoticed by readers: a [get] that passes no ttl of
    its own, at the time of the sweep or later, returns what it would have
    returned had the sweep not run. *)
Theorem sweep_unnoticed_by_get now now' key c :
  now ≤ now' →
  fst (get now' key None (snd (sweep now c))) = fst (get now' key None c).
Proof.
  intros Hle. unfold get. rewrite sweep_cache.
  destruct (cache c !! key) as [e|] eqn:Ek.
  - destruct (expired now e) eqn:Ex.
    + rewrite (proj2 (map_lookup_filter_None _ _ _)).
      2:{ right. intros e' He'. cbn. congruence. }
      cbn. unfold expired, elapsed_gt in *.
      destruct (ttl e) as [ms|]; [|done].
      assert ((ms <? now' - timestamp e) = true) as ->; [|done].
      apply Z.ltb_lt. apply Z.ltb_lt in Ex. lia.
    + rewrite (proj2 (map_lookup_filter_Some _ _ _ _)) by (by split).
      cbn. by destruct (elapsed_gt now' (timestamp e) (ttl e)).
  - by rewrite (proj2 (map_lookup_filter_None _ _ _)) by (by left).
Qed.

End Maintenance.

Section Maintenance2.
Context {V E : Type}.
Implicit Types (c : EnvironmentCache V) (rt : Runtime V E).

(** [keys.forEach((key) => { if (test(key)) this.delete(key); })] *)
Definition delete_where (test : string → bool) (keys : list string)
    (c : EnvironmentCache V) : EnvironmentCache V :=
  foldl (λ c key, if test key then snd (delete_key key c) else c) c keys.

(** [invalidate(pattern?)] *)
Definition invalidate (pattern : option string) (c : EnvironmentCache V)
  : EnvironmentCache V :=
  match pattern with
  | Some (String a p) =>
      let pattern := String a p in
      let keys := (map_to_list (cache c)).*1 in
      if Js.endsWith "*" pattern then
        let prefix := Js.slice_0_minus1 pattern in
        delete_where (Js.startsWith prefix) keys c
      else if Js.startsWith "*" pattern then
        let suffix := Js.slice_1 pattern in
        delete_where (Js.endsWith suffix) keys c
      else delete_where (Js.includes pattern) keys c
  | _ => {| cache := ∅; inFlight := ∅; defaultTTL := defaultTTL c |}
  end.

Lemma delete_where_spec test keys c :
  let c' := delete_where test keys c in
  (∀ k, cache c' !! k
        = if bool_decide (k ∈ keys) && test k then None else cache c !! k)
  ∧ (∀ k, inFlight c' !! k
          = if bool_decide (k ∈ keys) && test k then None
            else inFlight c !! k)
  ∧ defaultTTL c' = defaultTTL c.
Proof.
  cbv zeta. revert c. induction keys as [|key keys IH]; intros c.
  - by cbn.
  - cbn [delete_where foldl]. fold (delete_where test keys).
    destruct (IH (if test key then (delete_key key c).2 else c))
      as (Hc & Hf & Hd).
    split; [|split].
    + intros k. rewrite Hc. destruct (decide (k = key)) as [->|Hne].
      * rewrite (bool_decide_eq_true_2 (key ∈ key :: keys)) by left.
        destruct (test key) eqn:Et; cbn.
        -- rewrite andb_true_r, lookup_delete_eq.
           by destruct (bool_decide _).
        -- by rewrite andb_false_r.
      * assert (bool_decide (k ∈ key :: keys) = bool_decide (k ∈ keys)) as ->.
        { apply bool_decide_ext. rewrite elem_of_cons. naive_solver. }
        destruct (bool_decide (k ∈ keys) && test k); [done|].
        destruct (test key); cbn; [by rewrite lookup_delete_ne|done].
    + intros k. rewrite Hf. destruct (decide (k = key)) as [->|Hne].
      * rewrite (bool_decide_eq_true_2 (key ∈ key :: keys)) by left.
        destruct (test key) eqn:Et; cbn.
        -- rewrite andb_true_r, lookup_delete_eq.
           by destruct (bool_decide _).
        -- by rewrite andb_false_r.
      * assert (bool_decide (k ∈ key :: keys) = bool_decide (k ∈ keys)) as ->.
        { apply bool_decide_ext. rewrite elem_of_cons. naive_solver. }
        destruct (bool_decide (k ∈ keys) && test k); [done|].
        destruct (test key); cbn; [by rewrite lookup_delete_ne|done].
    + etrans; [exact Hd|]. by destruct (test key).
Qed.

(** The keys a pattern selects: those that begin with what precedes a
    final [*]; else those that end with what follows an initial [*];
    else those the pattern occurs in. *)
Definition selects (pattern key : string) : Prop :=
  (∃ prefix rest, pattern = prefix +:+ "*" ∧ key = prefix +:+ rest)
  ∨ (Js.endsWith "*" pattern = false
     ∧ ∃ suffix front, pattern = "*" +:+ suffix ∧ key = front +:+ suffix)
  ∨ (Js.endsWith "*" pattern = false ∧ Js.startsWith "*" pattern = false
     ∧ ∃ front rest, key = front +:+ pattern +:+ rest).

Lemma cached_keys c k :
  k ∈ (map_to_list (cache c)).*1 ↔ is_Some (cache c !! k).
Proof.
  rewrite list_elem_of_fmap. split.
  - intros ([k' e] & -> & H). apply elem_of_map_to_list in H. by exists e.
  - intros [e He]. exists (k, e). split; [done|].
    by apply elem_of_map_to_list.
Qed.

(** X3 — [invalidate] with a pattern that is not empty removes from the
    cache the entries whose key the pattern selects and keeps the others as
    they are; it removes the in-flight entry of a selected key only when
    that key is in the cache.  Without a pattern, or with the empty one,
    both maps are emptied. *)
Theorem invalidate_by_pattern (pattern : string) c :
  pattern ≠ "" →
  let c' := invalidate (Some pattern) c in
  (∀ key, selects pattern key → cache c' !! key = None)
  ∧ (∀ key, ¬ selects pattern key →
       cache c' !! key = cache c !! key
       ∧ inFlight c' !! key = inFlight c !! key)
  ∧ (∀ key, selects pattern key → is_Some (cache c !! key) →
       inFlight c' !! key = None)
  ∧ (∀ key, cache c !! key = None →
       inFlight c' !! key = inFlight c !! key)
  ∧ cache (invalidate None c) = ∅ ∧ inFlight (invalidate None c) = ∅
  ∧ cache (invalidate (Some "") c) = ∅
  ∧ inFlight (invalidate (Some "") c) = ∅.
Proof.
  intros Hne c'.
  assert (∃ test, c' = delete_where test (map_to_list (cache c)).*1 c
                  ∧ ∀ key, test key = true ↔ selects pattern key)
    as (test & Hc' & Htest).
  { subst c'. destruct pattern as [|a p]; [done|]. cbn [invalidate].
    destruct (Js.endsWith "*" (String a p)) eqn:Ee.
    - eexists. split; [reflexivity|]. intros key.
      apply Js.endsWith_spec in Ee as [prefix Hp]. rewrite Hp.
      rewrite Js.slice_0_minus1_snoc, Js.startsWith_spec. split.
      + intros [r ->]. left. by exists prefix, r.
      + intros [(prefix' & r & Hp' & ->)|[[He _]|[He _]]].
        * assert (prefix' = prefix) as ->; [|by exists r].
          rewrite <- (Js.slice_0_minus1_snoc prefix' "*"), <- Hp'.
          by rewrite Js.slice_0_minus1_snoc.
        * assert (Js.endsWith "*" (prefix +:+ "*") = true) as Ht
            by (apply Js.endsWith_spec; by exists prefix).
          congruence.
        * assert (Js.endsWith "*" (prefix +:+ "*") = true) as Ht
            by (apply Js.endsWith_spec; by exists prefix).
          congruence.
    - destruct (Js.startsWith "*" (String a p)) eqn:Es.
      + eexists. split; [reflexivity|]. intros key.
        apply Js.startsWith_spec in Es as [suffix Hs].
        change ("*" +:+ suffix) with (String "*" suffix) in Hs.
        injection Hs as -> ->. cbn [Js.slice_1].
        rewrite Js.endsWith_spec. split.
        * intros [front ->]. right. left.
          split; [done|]. by exists suffix, front.
        * intros [(prefix & r & Hp & _)|[(_ & suffix' & front & Hp & ->)|(_ & Hn & _)]].
          -- assert (Js.endsWith "*" (String "*" suffix) = true) as Ht
               by (apply Js.endsWith_spec; by exists prefix).
             congruence.
          -- change ("*" +:+ suffix') with (String "*" suffix') in Hp.
             injection Hp as ->. by exists front.
          -- cbn in Hn. discriminate.
      + eexists. split; [reflexivity|]. intros key.
        rewrite Js.includes_spec. split.
        * intros (front & rest & ->). right. right. by eauto.
        * intros [(prefix & r & Hp & _)|[(_ & suffix & front & Hp & _)|(_ & _ & H)]].
          -- assert (Js.endsWith "*" (String a p) = true) as Ht
               by (apply Js.endsWith_spec; by exists prefix).
             congruence.
          -- assert (Js.startsWith "*" (String a p) = true) as Ht
               by (apply Js.startsWith_spec; by exists suffix).
             congruence.
          -- exact H. }
  destruct (delete_where_spec test (map_to_list (cache c)).*1 c)
    as (Hc & Hf & _). rewrite <- Hc' in Hc, Hf.
  split; [|split; [|split; [|split]]].
  - intros key Hsel. rewrite Hc.
    apply Htest in Hsel. rewrite Hsel, andb_true_r.
    destruct (bool_decide_reflect (key ∈ (map_to_list (cache c)).*1))
      as [|Hn]; [done|].
    rewrite cached_keys in Hn. by apply eq_None_not_Some.
  - intros key Hsel. rewrite Hc, Hf.
    assert (test key = false) as ->.
    { destruct (test key) eqn:Et; [|done]. by apply Htest in Et. }
    by rewrite andb_false_r.
  - intros key Hsel Hin. rewrite Hf.
    apply Htest in Hsel. rewrite Hsel, andb_true_r.
    by rewrite bool_decide_eq_true_2 by (by apply cached_keys).
  - intros key Hnone. rewrite Hf.
    rewrite bool_decide_eq_false_2; [done|].
    rewrite cached_keys, Hnone. by intros [? ?].
  - done.
Qed.

End Maintenance2.

Section Computations.
Context {V E : Type}.
Implicit Types (c : EnvironmentCache V) (rt : Runtime V E).

(** The ttl a value computed with the argument [t] is stored with, which
    is also the one a read with the same argument is decided against. *)
Definition stored_ttl (t : option Ttl) c : Ttl :=
  default Infinity (t ?? defaultTTL c).

(** The state after the first call for [key] and the settling of the
    promise it registered. *)
Lemma settle_after_start rt key (resolver : ResolverResult V E) t t1 t2 o :
  (∀ e, resolver ≠ Throws e) →
  fst (get t1 key t (envCache rt)) = None →
  inFlight (envCache rt) !! key = None →
  settles_with resolver o = true →
  let c1 := snd (get t1 key t (envCache rt)) in
  let rt1 := snd (getOrCompute t1 key resolver t rt) in
  let pid := length (promises rt) in
  let stored :=
    match outcome_of resolver o with
    | Fulfilled v => set t2 key v t c1
    | RejectedWith _ => c1
    end in
  settle t2 pid o rt1
  = Some {| envCache :=
              {| cache := cache stored;
                 inFlight := delete key (<[key := pid]> (inFlight (envCache rt)));
                 defaultTTL := defaultTTL (envCache rt) |};
            promises :=
              <[ pid := {| c_key := key; c_ttl := t; c_source := resolver;
                           c_state := Some (outcome_of resolver o) |} ]>
                (promises rt ++
                   [ {| c_key := key; c_ttl := t; c_source := resolver;
                        c_state := None |} ])%list;
            resolverCalls := S (resolverCalls rt) |}.
Proof.
  intros Hres Hget Hfl Hs. cbv zeta.
  rewrite (getOrCompute_starts t1 key resolver t rt Hres Hget Hfl).
  cbn [snd]. unfold settle. cbn [promises envCache resolverCalls].
  rewrite lookup_app_r by lia. rewrite Nat.sub_diag. cbn [lookup list_lookup].
  cbn [c_state c_source c_key c_ttl]. rewrite Hs.
  pose proof (get_defaultTTL t1 key t (envCache rt)) as Hd.
  f_equal. f_equal.
  destruct (outcome_of resolver o) as [v|e]; unfold with_inFlight, set,
    with_cache; cbn; by rewrite ?Hd.
Qed.

(** X4 — Once a computation has settled with a value other than [undefined],
    calls for the key (with the same ttl argument) are answered from the
    cache, without invoking their resolver and without changing the state,
    for as long as the ttl the value was stored with has not run out,
    counted from the time of settling; the first call after that invokes its
    resolver. *)
Theorem getOrCompute_serves_settled_value rt key
    (resolver : ResolverResult V E) t t1 t2 o (v : V) :
  (∀ e, resolver ≠ Throws e) →
  fst (get t1 key t (envCache rt)) = None →
  inFlight (envCache rt) !! key = None →
  settles_with resolver o = true →
  outcome_of resolver o = Fulfilled (Some v) →
  ∃ rt2,
    settle t2 (length (promises rt)) o
      (snd (getOrCompute t1 key resolver t rt)) = Some rt2
    ∧ ∀ now resolver',
        (elapsed_gt now t2 (stored_ttl t (envCache rt)) = false →
           getOrCompute now key resolver' t rt2 = (Cached v, rt2))
        ∧ (elapsed_gt now t2 (stored_ttl t (envCache rt)) = true →
           resolverCalls (snd (getOrCompute now key resolver' t rt2))
           = S (resolverCalls rt2)).
Proof.
  intros Hres Hget Hfl Hs Ho.
  pose proof (settle_after_start rt key resolver t t1 t2 o Hres Hget Hfl Hs)
    as Hsettle. cbv zeta in Hsettle. rewrite Ho in Hsettle.
  eexists. split; [exact Hsettle|].
  pose proof (get_defaultTTL t1 key t (envCache rt)) as Hd.
  set (c1 := snd (get t1 key t (envCache rt))) in *.
  intros now resolver'.
  set (c2 := {| cache := cache (set t2 key (Some v) t c1);
                inFlight := delete key (<[key:=length (promises rt)]>
                                          (inFlight (envCache rt)));
                defaultTTL := defaultTTL (envCache rt) |}).
  assert (get now key t c2
          = if elapsed_gt now t2 (stored_ttl t (envCache rt))
            then (None, with_cache c2 (delete key (cache c2)))
            else (Some v, c2)) as Hg.
  { unfold get, c2, set, stored_ttl. cbn. rewrite lookup_insert_eq. cbn.
    rewrite Hd. by destruct t as [t|]. }
  split; intros He; rewrite He in Hg.
  - unfold getOrCompute. cbn [envCache]. fold c2. by rewrite Hg.
  - apply getOrCompute_runs_resolver.
    + cbn [envCache]. fold c2. by rewrite Hg.
    + cbn. apply lookup_delete_eq.
Qed.

(** X5 — A computation that settles with [undefined] is stored, yet never
    served: every later call for the key invokes its resolver, also within
    the ttl. *)
Theorem getOrCompute_never_serves_undefined rt key
    (resolver : ResolverResult V E) t t1 t2 o :
  (∀ e, resolver ≠ Throws e) →
  fst (get t1 key t (envCache rt)) = None →
  inFlight (envCache rt) !! key = None →
  settles_with resolver o = true →
  outcome_of resolver o = Fulfilled None →
  ∃ rt2,
    settle t2 (length (promises rt)) o
      (snd (getOrCompute t1 key resolver t rt)) = Some rt2
    ∧ is_Some (cache (envCache rt2) !! key)
    ∧ ∀ now resolver',
        resolverCalls (snd (getOrCompute now key resolver' t rt2))
        = S (resolverCalls rt2).
Proof.
  intros Hres Hget Hfl Hs Ho.
  pose proof (settle_after_start rt key resolver t t1 t2 o Hres Hget Hfl Hs)
    as Hsettle. cbv zeta in Hsettle. rewrite Ho in Hsettle.
  eexists. split; [exact Hsettle|]. split.
  { cbn. rewrite lookup_insert_eq. by eexists. }
  intros now resolver'. apply getOrCompute_runs_resolver.
  - cbn [envCache]. unfold get. cbn. rewrite lookup_insert_eq. cbn.
    destruct (t ?? Some _) as [t'|]; [|done].
    by destruct (elapsed_gt now t2 t').
  - cbn. apply lookup_delete_eq.
Qed.

(** X6 — A resolver that throws when it is invoked: every call for an
    uncached key that is not in flight invokes it, is rejected with what it
    threw, and registers nothing, so [n] calls invoke it [n] times. *)
Theorem getOrCompute_resolver_throws rt key (e : E) t (times : list Z) :
  absent key t (envCache rt) →
  inFlight (envCache rt) !! key = None →
  let replies := fst (fire times key (Throws e) t rt) in
  let rt1 := snd (fire times key (Throws e) t rt) in
  replies = map (λ _, Rejects e) times
  ∧ resolverCalls rt1 = (resolverCalls rt + length times)%nat
  ∧ inFlight (envCache rt1) = inFlight (envCache rt)
  ∧ promises rt1 = promises rt.
Proof.
  revert rt. induction times as [|now rest IH]; intros rt Habs Hfl.
  { cbn. repeat split; lia. }
  cbv zeta. cbn [fire]. unfold getOrCompute.
  pose proof (Habs now) as Hnow.
  pose proof (get_inFlight now key t (envCache rt)) as Hin.
  pose proof (absent_get now key t (envCache rt) Habs) as Habs'.
  destruct (get now key t (envCache rt)) as [cached c1]. cbn in Hnow, Hin, Habs'.
  subst cached. rewrite Hin, Hfl.
  specialize (IH {| envCache := c1; promises := promises rt;
                    resolverCalls := S (resolverCalls rt) |}).
  cbn in IH. rewrite Hin in IH. specialize (IH Habs' Hfl).
  destruct (fire rest key (Throws e) t _) as [rs rt2]. cbn in *.
  destruct IH as (-> & -> & -> & ->). repeat split. lia.
Qed.

End Computations.

(** A cache holding one entry stored at time 0 for 100 ms and one
    stored without limit. *)
Definition two_entries : EnvironmentCache string :=
  set 0 "env_LLM_TIMEOUT" (Some "3000") (Some Infinity)
    (set 0 "env_OPENAI_MODEL" (Some "gpt-4o") (Some (Ms 100)) empty_cache).

Lemma sweep_unnoticed_by_get_witness :
  150 ≤ 200
  ∧ fst (get 200 "env_OPENAI_MODEL" None (snd (sweep 150 two_entries)))
    = fst (get 200 "env_OPENAI_MODEL" None two_entries).
Proof.
  split; [lia|]. apply (sweep_unnoticed_by_get 150 200). lia.
Defined.

Lemma invalidate_by_pattern_witness :
  cache (invalidate (Some "env_OPENAI*") two_entries) !! "env_OPENAI_MODEL"
  = None.
Proof.
  assert ("env_OPENAI*" ≠ "") as Hne by discriminate.
  destruct (invalidate_by_pattern "env_OPENAI*" two_entries Hne) as (H & _).
  apply H. left. exists "env_OPENAI", "_MODEL". split; reflexivity.
Defined.

Lemma getOrCompute_serves_settled_value_witness :
  ∃ rt2 : Runtime string string,
    settle 10 0%nat (Fulfilled (Some "v"))
      (snd (getOrCompute 0 "K" ReturnsPromise None empty_runtime)) = Some rt2
    ∧ getOrCompute 30010 "K" (Returns (Some "w")) None rt2 = (Cached "v", rt2).
Proof.
  assert (∀ e : string, @ReturnsPromise string string ≠ Throws e) as Hres
    by discriminate.
  destruct (getOrCompute_serves_settled_value empty_runtime "K"
              ReturnsPromise None 0 10 (Fulfilled (Some "v")) "v"
              Hres eq_refl eq_refl eq_refl eq_refl) as (rt2 & Hs & H).
  exists rt2. split; [exact Hs|].
  apply (H 30010 (Returns (Some "w"))). reflexivity.
Defined.

Lemma getOrCompute_never_serves_undefined_witness :
  ∃ rt2 : Runtime string string,
    settle 10 0%nat (Fulfilled None)
      (snd (getOrCompute 0 "K" (Returns None) None empty_runtime)) = Some rt2
    ∧ resolverCalls (snd (getOrCompute 11 "K" (Returns None) None rt2))
      = S (resolverCalls rt2).
Proof.
  assert (∀ e : string, @Returns string string None ≠ Throws e) as Hres
    by discriminate.
  destruct (getOrCompute_never_serves_undefined empty_runtime "K"
              (Returns None) None 0 10 (Fulfilled None)
              Hres eq_refl eq_refl eq_refl eq_refl) as (rt2 & Hs & _ & H).
  exists rt2. split; [exact Hs|]. apply H.
Defined.

Lemma getOrCompute_resolver_throws_witness :
  fst (fire [0; 1; 2] "K" (Throws "boom") None empty_runtime)
  = [Rejects "boom"; Rejects "boom"; Rejects "boom"]
  ∧ resolverCalls (snd (fire [0; 1; 2] "K" (Throws "boom") None empty_runtime))
    = 3%nat.
Proof.
  assert (absent "K" None (envCache empty_runtime)) as Habs by (by intros ?).
  destruct (getOrCompute_resolver_throws empty_runtime "K" "boom" None
              [0; 1; 2] Habs eq_refl) as (H1 & H2 & _).
  split; [exact H1|exact H2].
Defined.

End Cache.

(** ** Provider configuration engine ([src/config-manager.ts]) *)

Module Config.

Inductive ErrorCategory :=
  | CONFIGURATION | NETWORK | AUTHENTICATION | AUTHORIZATION | RATE_LIMIT
  | TIMEOUT | VALIDATION | PROVIDER | NOT_FOUND | CONFLICT | UNKNOWN.

(** [StandardError], without its troubleshooting text and time stamp. *)
Record StandardError := {
  message : string;
  category : ErrorCategory;
  code : string;
  provider : option string
}.

Inductive Result (A : Type) :=
  | Ok (a : A)
  | Throw (e : StandardError).
Arguments Ok {A} a.
Arguments Throw {A} e.

(** The module state the functions below run in: the global [envCache]
    and the clock, [clock w n] being what the [n]-th call of [Date.now()]
    returns. *)
Record World := {
  envCache : Cache.EnvironmentCache string;
  clock : nat → Z;
  ticks : nat
}.

Definition M (A : Type) : Type := World → Result A * World.

#[export] Instance M_ret : MRet M := λ A a w, (Ok a, w).

#[export] Instance M_bind : MBind M := λ A B k m w,
  match m w with
  | (Ok a, w') => k a w'
  | (Throw e, w') => (Throw e, w')
  end.

Definition throw {A} (e : StandardError) : M A := λ w, (Throw e, w).

(** [try { m } catch (error) { h }] *)
Definition try_catch {A} (m : M A) (h : StandardError → M A) : M A := λ w,
  match m w with
  | (Ok a, w') => (Ok a, w')
  | (Throw e, w') => h e w'
  end.

Definition Date_now : M Z := λ w,
  (Ok (clock w (ticks w)),
   {| envCache := envCache w; clock := clock w; ticks := S (ticks w) |}).

(** A method of [envCache], run on the global instance. *)
Definition on_envCache {A}
    (f : Cache.EnvironmentCache string → A * Cache.EnvironmentCache string)
  : M A := λ w,
  let '(a, c) := f (envCache w) in
  (Ok a, {| envCache := c; clock := clock w; ticks := ticks w |}).

(** [envCache.get(key)] and [envCache.set(key, value)] *)
Definition envCache_get (key : string) : M (option string) :=
  now ← Date_now; on_envCache (Cache.get now key None).

Definition envCache_set (key : string) (v : option string) : M unit :=
  now ← Date_now; on_envCache (λ c, (tt, Cache.set now key v None c)).

(** [for (const x of l) { ... push(f x) }] *)
Fixpoint for_each {A B} (f : A → M B) (l : list A) : M (list B) :=
  match l with
  | [] => mret []
  | x :: rest => y ← f x; ys ← for_each f rest; mret (y :: ys)
  end.

(** The nine [placeholderPatterns], in source order. *)
Definition placeholderPatterns : list Regex.pattern :=
  let seg := Regex.dash_or_underscore in
  let cat := fold_right Regex.Cat Regex.Eps in
  [ (* /^sk-ant-your-/ *)
    {| Regex.body := Regex.lit false "sk-ant-your-";
       Regex.anchored_end := false |};
    (* /^your[-_].*[-_]key[-_]here$/i *)
    {| Regex.body :=
         cat [Regex.lit true "your"; seg; Regex.Star Regex.dot; seg;
              Regex.lit true "key"; seg; Regex.lit true "here"];
       Regex.anchored_end := true |};
    (* /^your[-_].*[-_]here$/i *)
    {| Regex.body :=
         cat [Regex.lit true "your"; seg; Regex.Star Regex.dot; seg;
              Regex.lit true "here"];
       Regex.anchored_end := true |};
    (* /^placeholder/i *)
    {| Regex.body := Regex.lit true "placeholder";
       Regex.anchored_end := false |};
    (* /^dummy/i *)
    {| Regex.body := Regex.lit true "dummy"; Regex.anchored_end := false |};
    (* /^test.*key/i *)
    {| Regex.body :=
         cat [Regex.lit true "test"; Regex.Star Regex.dot;
              Regex.lit true "key"];
       Regex.anchored_end := false |};
    (* /^example/i *)
    {| Regex.body := Regex.lit true "example"; Regex.anchored_end := false |};
    (* /^api[_-]?key/i *)
    {| Regex.body :=
         cat [Regex.lit true "api"; Regex.opt seg; Regex.lit true "key"];
       Regex.anchored_end := false |};
    (* /^replace[_-]?me/i *)
    {| Regex.body :=
         cat [Regex.lit true "replace"; Regex.opt seg; Regex.lit true "me"];
       Regex.anchored_end := false |} ].

Section Engine.

(** [process.env], and the two tables of [src/ai-providers/index.ts]. *)
Variable process_env : gmap string string.
Variable SUPPORTED_PROVIDERS : list string.
Variable PROVIDER_API_KEYS : gmap string string.

Definition resolveEnvVariableCached (key : string) : M (option string) :=
  let cacheKey := "env_" +:+ key in
  cached ← envCache_get cacheKey;
  match cached with
  | Some s => mret (Some s)
  | None =>
      let value := process_env !! key in
      _ ← envCache_set cacheKey value;
      mret value
  end.

Definition getApiKey (providerName : string) : M (option string) :=
  match PROVIDER_API_KEYS !! providerName with
  | None => mret None
  | Some envKey =>
      if negb (Js.truthy envKey) then mret None
      else
        apiKey ← resolveEnvVariableCached envKey;
        match apiKey with
        | None => mret None
        | Some k =>
            if negb (Js.truthy k) || negb (Js.truthy (Js.trim k))
            then mret None
            else mret (Some (Js.trim k))
        end
  end.

Definition test_mode : bool :=
  bool_decide (process_env !! "NODE_ENV" = Some "test")
  || bool_decide (process_env !! "TEST_MODE" = Some "true").

Definition validateApiKey (providerName apiKey : string) : bool :=
  if negb (Js.truthy apiKey) || String.eqb (Js.trim apiKey) "" then false
  else if test_mode then
    negb (Js.includes "your_" apiKey)
    && negb (Js.includes "_here" apiKey)
    && negb (Js.includes "placeholder" apiKey)
  else
    negb (existsb (λ pattern, Regex.test pattern apiKey) placeholderPatterns).

Definition isProviderConfigured (providerName : string) : M bool :=
  apiKey ← getApiKey providerName;
  mret match apiKey with
       | Some k => validateApiKey providerName k
       | None => false
       end.

Definition getModel (providerName : string) : M string :=
  userModel ← resolveEnvVariableCached (Js.toUpperCase providerName +:+ "_MODEL");
  if Js.trimmed_truthy userModel then mret (Js.trim (default "" userModel))
  else
    defaultModel ←
      resolveEnvVariableCached (Js.toUpperCase providerName +:+ "_MODEL_DEFAULT");
    if Js.trimmed_truthy defaultModel
    then mret (Js.trim (default "" defaultModel))
    else throw {| message := "Model configuration missing for " +:+ providerName;
                  category := CONFIGURATION;
                  code := "MODEL_NOT_SET";
                  provider := Some providerName |}.

Record ProviderStatus := {
  name : string;
  model : option string;
  hasApiKey : bool
}.

Definition getConfiguredProviders : M (list ProviderStatus) :=
  for_each
    (λ name,
       apiKey ← getApiKey name;
       let hasApiKey :=
         match apiKey with
         | Some k => validateApiKey name k
         | None => false
         end in
       model ← (if hasApiKey then m ← getModel name; mret (Some m)
                else mret None);
       mret {| name := name; model := model; hasApiKey := hasApiKey |})
    SUPPORTED_PROVIDERS.

(** One tier of [getTemperature]: the value, when it is set, not blank,
    a number, and within [0, 2]. *)
Definition temperature_tier (v : option string) : option spec_float :=
  if Js.trimmed_truthy v then
    let temp := JsNumber.Number (Js.trim (default "" v)) in
    if negb (JsNumber.isNaN temp) && JsNumber.ge temp JsNumber.zero
       && JsNumber.le temp JsNumber.two
    then Some temp else None
  else None.

Definition getTemperature (providerName : string) : M spec_float :=
  providerValue ←
    resolveEnvVariableCached (Js.toUpperCase providerName +:+ "_TEMPERATURE");
  match temperature_tier providerValue with
  | Some temp => mret temp
  | None =>
      globalValue ← resolveEnvVariableCached "LLM_TEMPERATURE";
      match temperature_tier globalValue with
      | Some temp => mret temp
      | None =>
          defaultValue ← resolveEnvVariableCached "LLM_TEMPERATURE_DEFAULT";
          match temperature_tier defaultValue with
          | Some temp => mret temp
          | None =>
              throw {| message :=
                         "Temperature configuration missing for " +:+ providerName;
                       category := CONFIGURATION;
                       code := "TEMPERATURE_NOT_SET";
                       provider := Some providerName |}
          end
      end
  end.

Definition getDefaultProvider : M string :=
  provider ← resolveEnvVariableCached "DEFAULT_LLM_PROVIDER";
  if negb (Js.trimmed_truthy provider) then
    throw {| message := "Default provider configuration missing";
             category := CONFIGURATION;
             code := "DEFAULT_PROVIDER_NOT_SET";
             provider := None |}
  else mret (Js.trim (default "" provider)).

(** [priority.split(",").map(trim).filter(nonempty)] *)
Definition priority_names (priority : string) : list string :=
  filter (λ p, Js.truthy p = true) (map Js.trim (Js.split "," priority)).

Definition supported (p : string) : bool :=
  bool_decide (p ∈ SUPPORTED_PROVIDERS).

Definition configured_names (l : list ProviderStatus) : list string :=
  map name (filter (λ p, hasApiKey p = true) l).

Definition getProviderPriority : M (list string) :=
  priority ← resolveEnvVariableCached "PROVIDER_SELECTION_PRIORITY";
  let fallback :=
    try_catch
      (defaultProvider ← getDefaultProvider;
       all ← getConfiguredProviders;
       mret (defaultProvider ::
             filter (λ p, p ≠ defaultProvider) (configured_names all)))
      (λ _, all ← getConfiguredProviders; mret (configured_names all)) in
  if Js.trimmed_truthy priority then
    let providers := priority_names (default "" priority) in
    match providers with
    | [] => fallback
    | _ =>
        let invalidProviders := filter (λ p, supported p = false) providers in
        match invalidProviders with
        | [] => mret providers
        | _ =>
            throw {| message :=
                       "Invalid providers in priority configuration: "
                       +:+ Js.join ", " invalidProviders;
                     category := CONFIGURATION;
                     code := "INVALID_PROVIDERS";
                     provider := None |}
        end
    end
  else fallback.

(** [for (const provider of l) if (isProviderConfigured(provider)) return
    provider;] followed by [return null]. *)
Fixpoint first_configured (l : list string) : M (option string) :=
  match l with
  | [] => mret None
  | p :: rest =>
      isProviderConfigured p ≫= λ ok : bool,
      if ok then mret (Some p) else first_configured rest
  end.

Definition getBestAvailableProvider : M (option string) :=
  defaultProvider ← getDefaultProvider;
  (if Js.truthy defaultProvider then isProviderConfigured defaultProvider
   else mret false) ≫= λ ok : bool,
  if ok then mret (Some defaultProvider)
  else
    providerPriority ← getProviderPriority;
    first_configured providerPriority.

(** *** What the functions return from a coherent cache

    The cache is coherent with [process.env] when every entry stored
    under [env_KEY] holds the value [KEY] has in [process.env]: the state
    after [clearEnvCache()], and every state reached from it by the
    functions of this module while [process.env] stays as it is. *)

Definition coherent (w : World) : Prop :=
  ∀ key e, Cache.cache (envCache w) !! ("env_" +:+ key) = Some e →
           Cache.value e = process_env !! key.

(** [m] returns [r] from every coherent state, and leaves one. *)
Definition returns {A} (m : M A) (r : Result A) : Prop :=
  ∀ w, coherent w → ∃ w', m w = (r, w') ∧ coherent w'.

Lemma returns_ret {A} (a : A) : returns (mret a) (Ok a).
Proof. intros w Hw. by exists w. Qed.

Lemma returns_throw {A} e : returns (@throw A e) (Throw e).
Proof. intros w Hw. by exists w. Qed.

Lemma returns_bind {A B} (m : M A) (k : A → M B) a r :
  returns m (Ok a) → returns (k a) r → returns (m ≫= k) r.
Proof.
  intros Hm Hk w Hw. destruct (Hm w Hw) as (w1 & E1 & Hw1).
  destruct (Hk w1 Hw1) as (w2 & E2 & Hw2). exists w2.
  unfold mbind, M_bind. by rewrite E1.
Qed.

Lemma returns_bind_throw {A B} (m : M A) (k : A → M B) e :
  returns m (Throw e) → returns (m ≫= k) (Throw e).
Proof.
  intros Hm w Hw. destruct (Hm w Hw) as (w1 & E1 & Hw1). exists w1.
  unfold mbind, M_bind. by rewrite E1.
Qed.

Lemma returns_try_ok {A} (m : M A) h a :
  returns m (Ok a) → returns (try_catch m h) (Ok a).
Proof.
  intros Hm w Hw. destruct (Hm w Hw) as (w1 & E1 & Hw1). exists w1.
  unfold try_catch. by rewrite E1.
Qed.

Lemma returns_try_throw {A} (m : M A) h e r :
  returns m (Throw e) → returns (h e) r → returns (try_catch m h) r.
Proof.
  intros Hm Hh w Hw. destruct (Hm w Hw) as (w1 & E1 & Hw1).
  destruct (Hh w1 Hw1) as (w2 & E2 & Hw2). exists w2.
  unfold try_catch. by rewrite E1.
Qed.

Lemma returns_inj {A} (m : M A) r1 r2 w :
  coherent w → returns m r1 → returns m r2 → r1 = r2.
Proof.
  intros Hw H1 H2. destruct (H1 w Hw) as (w1 & E1 & _).
  destruct (H2 w Hw) as (w2 & E2 & _). congruence.
Qed.

Lemma returns_resolveEnvVariableCached key :
  returns (resolveEnvVariableCached key) (Ok (process_env !! key)).
Proof.
  intros w Hw. unfold resolveEnvVariableCached, envCache_get, envCache_set.
  unfold mbind, M_bind, Date_now, on_envCache, mret, M_ret. cbn.
  unfold Cache.get.
  destruct (Cache.cache (envCache w) !! ("env_" +:+ key)) as [e|] eqn:Ee; cbn.
  - destruct (Cache.elapsed_gt _ _ _) eqn:Eg; cbn.
    + eexists. split; [reflexivity|]. intros k e'. cbn.
      destruct (decide (k = key)) as [->|Hne].
      * rewrite lookup_insert_eq. by intros [= <-].
      * rewrite lookup_insert_ne
          by (intros H; apply Js.append_inj_l in H; congruence).
        rewrite lookup_delete_ne
          by (intros H; apply Js.append_inj_l in H; congruence).
        apply Hw.
    + pose proof (Hw key e Ee) as Hv. rewrite Hv.
      destruct (process_env !! key) as [v|] eqn:Ev; cbn.
      * eexists. split; [reflexivity|]. exact Hw.
      * eexists. split; [reflexivity|]. intros k e'. cbn.
        destruct (decide (k = key)) as [->|Hne].
        -- rewrite lookup_insert_eq. intros [= <-]. by rewrite Ev.
        -- rewrite lookup_insert_ne
             by (intros H; apply Js.append_inj_l in H; congruence).
           apply Hw.
  - eexists. split; [reflexivity|]. intros k e'. cbn.
    destruct (decide (k = key)) as [->|Hne].
    + rewrite lookup_insert_eq. by intros [= <-].
    + rewrite lookup_insert_ne
        by (intros H; apply Js.append_inj_l in H; congruence).
      apply Hw.
Qed.

(** The state right after [clearEnvCache()], whatever the clock. *)
Definition cleared (clk : nat → Z) : World :=
  {| envCache := {| Cache.cache := ∅; Cache.inFlight := ∅;
                    Cache.defaultTTL := Some (Cache.Ms 30000) |};
     clock := clk; ticks := 0 |}.

Lemma cleared_coherent clk : coherent (cleared clk).
Proof. intros key e. cbn. by rewrite lookup_empty. Qed.

Lemma temperature_tier_Some v t :
  temperature_tier v = Some t ↔
  ∃ s, v = Some s ∧ Js.trim s ≠ "" ∧ t = JsNumber.Number (Js.trim s)
       ∧ JsNumber.isNaN t = false
       ∧ JsNumber.ge t JsNumber.zero = true
       ∧ JsNumber.le t JsNumber.two = true.
Proof.
  unfold temperature_tier, Js.trimmed_truthy. destruct v as [s|].
  2:{ split; [done|]. by intros (? & ? & _). }
  change (default "" (Some s)) with s.
  destruct (Js.trim s) as [|c s'] eqn:Et.
  { split; [done|]. intros (? & [= <-] & H & _). congruence. }
  change (Js.truthy (String c s')) with true. cbv iota.
  set (n := JsNumber.Number (String c s')).
  split.
  - destruct (JsNumber.isNaN n) eqn:E1; [done|].
    destruct (JsNumber.ge n JsNumber.zero) eqn:E2; [|done].
    destruct (JsNumber.le n JsNumber.two) eqn:E3; [|done].
    intros [= <-]. exists s. rewrite Et. by repeat split.
  - intros (? & [= <-] & _ & -> & H1 & H2 & H3).
    rewrite Et in *. fold n in H1, H2, H3. by rewrite H1, H2, H3.
Qed.

(** C4 — tiers of [getTemperature].  The provider's own variable, then
    [LLM_TEMPERATURE], then [LLM_TEMPERATURE_DEFAULT] are consulted in
    that order; a tier is accepted when it is set, not blank, and its
    number is within [0, 2]; the first accepted value is returned, and a
    CONFIGURATION error is thrown when no tier is accepted.  With only
    [LLM_TEMPERATURE_DEFAULT=0.5] the result is 0.5; with
    [OPENAI_TEMPERATURE=0.9] it is 0.9 for ["openai"]. *)
Theorem getTemperature_tiers (providerName : string) :
  let v1 := temperature_tier
              (process_env !! (Js.toUpperCase providerName +:+ "_TEMPERATURE")) in
  let v2 := temperature_tier (process_env !! "LLM_TEMPERATURE") in
  let v3 := temperature_tier (process_env !! "LLM_TEMPERATURE_DEFAULT") in
  (∀ t, v1 = Some t → returns (getTemperature providerName) (Ok t))
  ∧ (∀ t, v1 = None → v2 = Some t →
       returns (getTemperature providerName) (Ok t))
  ∧ (∀ t, v1 = None → v2 = None → v3 = Some t →
       returns (getTemperature providerName) (Ok t))
  ∧ (v1 = None → v2 = None → v3 = None →
       ∃ e, returns (getTemperature providerName) (Throw e)
            ∧ category e = CONFIGURATION)
  ∧ (∀ v t, temperature_tier v = Some t ↔
       ∃ s, v = Some s ∧ Js.trim s ≠ "" ∧ t = JsNumber.Number (Js.trim s)
            ∧ JsNumber.isNaN t = false
            ∧ JsNumber.ge t JsNumber.zero = true
            ∧ JsNumber.le t JsNumber.two = true)
  ∧ (process_env !! "OPENAI_TEMPERATURE" = None →
     process_env !! "LLM_TEMPERATURE" = None →
     process_env !! "LLM_TEMPERATURE_DEFAULT" = Some "0.5" →
     returns (getTemperature "openai")
       (Ok (S754_finite false 4503599627370496 (-53))))
  ∧ (process_env !! "OPENAI_TEMPERATURE" = Some "0.9" →
     returns (getTemperature "openai")
       (Ok (S754_finite false 8106479329266893 (-53)))).
Proof.
  intros v1 v2 v3.
  assert (∀ p t,
    temperature_tier (process_env !! (Js.toUpperCase p +:+ "_TEMPERATURE"))
    = Some t → returns (getTemperature p) (Ok t)) as T1.
  { intros p t E. unfold getTemperature.
    eapply returns_bind; [apply returns_resolveEnvVariableCached|].
    rewrite E. apply returns_ret. }
  assert (∀ p r,
    temperature_tier (process_env !! (Js.toUpperCase p +:+ "_TEMPERATURE"))
    = None →
    returns
      (globalValue ← resolveEnvVariableCached "LLM_TEMPERATURE";
       match temperature_tier globalValue with
       | Some temp => mret temp
       | None =>
           defaultValue ← resolveEnvVariableCached "LLM_TEMPERATURE_DEFAULT";
           match temperature_tier defaultValue with
           | Some temp => mret temp
           | None =>
               throw {| message :=
                          "Temperature configuration missing for " +:+ p;
                        category := CONFIGURATION;
                        code := "TEMPERATURE_NOT_SET";
                        provider := Some p |}
           end
       end) r →
    returns (getTemperature p) r) as T2.
  { intros p r E H. unfold getTemperature.
    eapply returns_bind; [apply returns_resolveEnvVariableCached|].
    rewrite E. exact H. }
  split; [intros t E; by apply T1|].
  split.
  { intros t E1 E2. apply T2; [exact E1|].
    eapply returns_bind; [apply returns_resolveEnvVariableCached|].
    fold v2. rewrite E2. apply returns_ret. }
  split.
  { intros t E1 E2 E3. apply T2; [exact E1|].
    eapply returns_bind; [apply returns_resolveEnvVariableCached|].
    fold v2. rewrite E2.
    eapply returns_bind; [apply returns_resolveEnvVariableCached|].
    fold v3. rewrite E3. apply returns_ret. }
  split.
  { intros E1 E2 E3. eexists. split; [|shelve].
    apply T2; [exact E1|].
    eapply returns_bind; [apply returns_resolveEnvVariableCached|].
    fold v2. rewrite E2.
    eapply returns_bind; [apply returns_resolveEnvVariableCached|].
    fold v3. rewrite E3. apply returns_throw.
    Unshelve. reflexivity. }
  split; [apply temperature_tier_Some|].
  split.
  { intros E1 E2 E3. apply T2; [change (Js.toUpperCase "openai" +:+ "_TEMPERATURE")
      with "OPENAI_TEMPERATURE"; by rewrite E1|].
    eapply returns_bind; [apply returns_resolveEnvVariableCached|].
    rewrite E2. cbn.
    eapply returns_bind; [apply returns_resolveEnvVariableCached|].
    rewrite E3. apply returns_ret. }
  { intros E1. apply T1.
    change (Js.toUpperCase "openai" +:+ "_TEMPERATURE")
      with "OPENAI_TEMPERATURE". by rewrite E1. }
Qed.

Lemma validateApiKey_blank providerName apiKey :
  Js.trim apiKey = "" → validateApiKey providerName apiKey = false.
Proof.
  intros H. unfold validateApiKey. rewrite H. cbn.
  by rewrite orb_true_r.
Qed.

Lemma validateApiKey_strict providerName apiKey pattern :
  test_mode = false → pattern ∈ placeholderPatterns →
  Regex.test pattern apiKey = true →
  validateApiKey providerName apiKey = false.
Proof.
  intros Hm Hin Ht. unfold validateApiKey. rewrite Hm.
  destruct (negb (Js.truthy apiKey) || (Js.trim apiKey =? "")%string); [done|].
  apply negb_false_iff, existsb_exists. exists pattern.
  split; [by apply list_elem_of_In|done].
Qed.

(** C6 — placeholder keys.  In test mode a key is rejected exactly when
    it is blank or contains [your_], [_here] or [placeholder].  Otherwise
    it is rejected exactly when it is blank or matches one of the nine
    anchored patterns: so every key that starts with [dummy] or
    [placeholder], and every one-line key of the shape
    [your-…-here] (with [-] or [_]), in any letter case.  The key
    [your_openai_api_key_here] is rejected and [sk-abc123realkey] is
    accepted in both modes. *)
Theorem validateApiKey_placeholders (providerName : string) :
  (test_mode = true → ∀ apiKey,
     validateApiKey providerName apiKey = false ↔
     Js.trim apiKey = "" ∨ Js.includes "your_" apiKey = true
     ∨ Js.includes "_here" apiKey = true
     ∨ Js.includes "placeholder" apiKey = true)
  ∧ (test_mode = false →
     (∀ apiKey,
        validateApiKey providerName apiKey = false ↔
        Js.trim apiKey = ""
        ∨ ∃ pattern, pattern ∈ placeholderPatterns
                     ∧ Regex.test pattern apiKey = true)
     ∧ (∀ pre rest, Js.toUpperCase pre = "DUMMY" →
          validateApiKey providerName (pre +:+ rest) = false)
     ∧ (∀ pre rest, Js.toUpperCase pre = "PLACEHOLDER" →
          validateApiKey providerName (pre +:+ rest) = false)
     ∧ (∀ pre a mid b post,
          Js.toUpperCase pre = "YOUR" → Js.toUpperCase post = "HERE" →
          a ∈ ["-"; "_"]%char → b ∈ ["-"; "_"]%char →
          Regex.single_line mid = true →
          validateApiKey providerName
            (pre +:+ String a (mid +:+ String b post)) = false))
  ∧ validateApiKey providerName "your_openai_api_key_here" = false
  ∧ validateApiKey providerName "sk-abc123realkey" = true.
Proof.
  split; [|split; [|split]].
  - intros Hm apiKey. unfold validateApiKey. rewrite Hm.
    destruct apiKey as [|c k]; [by split; [left|]|].
    cbn [Js.truthy negb orb].
    destruct (String.eqb_spec (Js.trim (String c k)) "") as [E|E].
    { split; [by left|done]. }
    rewrite !negb_false_iff || idtac.
    destruct (Js.includes "your_" (String c k)) eqn:E1;
      [split; [by right; left|done]|].
    destruct (Js.includes "_here" (String c k)) eqn:E2;
      [split; [by right; right; left|done]|].
    destruct (Js.includes "placeholder" (String c k)) eqn:E3;
      [split; [by right; right; right|done]|].
    change (negb false && negb false && negb false) with true.
    split; [done|]. intros [?|[?|[?|?]]]; congruence.
  - intros Hm. split; [|split; [|split]].
    + intros apiKey. split.
      * unfold validateApiKey. rewrite Hm.
        destruct apiKey as [|c k]; [by left|]. cbn [Js.truthy negb orb].
        destruct (String.eqb_spec (Js.trim (String c k)) "") as [E|E];
          [by left|].
        intros H. right. apply negb_false_iff, existsb_exists in H.
        destruct H as (pattern & Hin & Ht). exists pattern.
        split; [by apply list_elem_of_In|done].
      * intros [H|(pattern & Hin & Ht)];
          [by apply validateApiKey_blank
          |by eapply validateApiKey_strict].
    + intros pre rest Hpre.
      apply (validateApiKey_strict _ _
               {| Regex.body := Regex.lit true "dummy";
                  Regex.anchored_end := false |}); [done|set_solver|].
      apply Regex.test_prefix; [done|]. by apply Regex.Matches_lit_ci.
    + intros pre rest Hpre.
      apply (validateApiKey_strict _ _
               {| Regex.body := Regex.lit true "placeholder";
                  Regex.anchored_end := false |}); [done|set_solver|].
      apply Regex.test_prefix; [done|]. by apply Regex.Matches_lit_ci.
    + intros pre a mid b post Hpre Hpost Ha Hb Hmid.
      eapply (validateApiKey_strict _ _
               {| Regex.body := _; Regex.anchored_end := true |});
        [done|do 2 apply list_elem_of_further; apply list_elem_of_here|].
      apply Regex.test_whole; [done|]. cbn [Regex.body fold_right].
      constructor; [by apply Regex.Matches_lit_ci|].
      change (String a (mid +:+ String b post))
        with (String a "" +:+ (mid +:+ String b post)).
      constructor.
      { constructor. set_unfold. destruct Ha as [->|[->|[]]]; reflexivity. }
      constructor; [by apply Regex.Matches_star_dot|].
      change (String b post) with (String b "" +:+ post).
      constructor.
      { constructor. set_unfold. destruct Hb as [->|[->|[]]]; reflexivity. }
      rewrite <- (Js.append_nil_r post).
      constructor; [by apply Regex.Matches_lit_ci|constructor].
  - unfold validateApiKey. by destruct test_mode.
  - unfold validateApiKey. by destruct test_mode.
Qed.

(** *** Provider selection *)

(** The API key [getApiKey] finds in [process.env], and whether the
    provider counts as configured. *)
Definition apiKey_of (providerName : string) : option string :=
  match PROVIDER_API_KEYS !! providerName with
  | None => None
  | Some envKey =>
      if negb (Js.truthy envKey) then None
      else
        match process_env !! envKey with
        | None => None
        | Some k =>
            if negb (Js.truthy k) || negb (Js.truthy (Js.trim k)) then None
            else Some (Js.trim k)
        end
  end.

Definition configured (providerName : string) : bool :=
  match apiKey_of providerName with
  | Some k => validateApiKey providerName k
  | None => false
  end.

Lemma returns_getApiKey p : returns (getApiKey p) (Ok (apiKey_of p)).
Proof.
  unfold getApiKey, apiKey_of.
  destruct (PROVIDER_API_KEYS !! p) as [envKey|]; [|apply returns_ret].
  destruct (negb (Js.truthy envKey)); [apply returns_ret|].
  eapply returns_bind; [apply returns_resolveEnvVariableCached|].
  destruct (process_env !! envKey) as [k|]; [|apply returns_ret].
  destruct (negb (Js.truthy k) || negb (Js.truthy (Js.trim k)));
    apply returns_ret.
Qed.

Lemma returns_isProviderConfigured p :
  returns (isProviderConfigured p) (Ok (configured p)).
Proof.
  unfold isProviderConfigured, configured.
  eapply returns_bind; [apply returns_getApiKey|apply returns_ret].
Qed.

Lemma returns_first_configured l :
  returns (first_configured l) (Ok (find configured l)).
Proof.
  induction l as [|p l IH]; cbn; [apply returns_ret|].
  eapply returns_bind; [apply returns_isProviderConfigured|].
  destruct (configured p); [apply returns_ret|exact IH].
Qed.

Definition DEFAULT_PROVIDER_NOT_SET : StandardError :=
  {| message := "Default provider configuration missing";
     category := CONFIGURATION;
     code := "DEFAULT_PROVIDER_NOT_SET";
     provider := None |}.

Lemma returns_getDefaultProvider :
  returns getDefaultProvider
    (if Js.trimmed_truthy (process_env !! "DEFAULT_LLM_PROVIDER")
     then Ok (Js.trim (default "" (process_env !! "DEFAULT_LLM_PROVIDER")))
     else Throw DEFAULT_PROVIDER_NOT_SET).
Proof.
  unfold getDefaultProvider.
  eapply returns_bind; [apply returns_resolveEnvVariableCached|].
  destruct (Js.trimmed_truthy _); [apply returns_ret|apply returns_throw].
Qed.

Lemma returns_getDefaultProvider_named d :
  process_env !! "DEFAULT_LLM_PROVIDER" = Some d → Js.trim d ≠ "" →
  returns getDefaultProvider (Ok (Js.trim d)).
Proof.
  intros Hd Hne. pose proof returns_getDefaultProvider as H.
  rewrite Hd in H. unfold Js.trimmed_truthy in H.
  change (default "" (Some d)) with d in H.
  destruct (Js.trim d) eqn:E; [done|exact H].
Qed.

(** With no provider configured, [getConfiguredProviders] reads no
    model and lists every supported provider without a key. *)
Lemma returns_for_each_unconfigured l :
  (∀ p, configured p = false) →
  returns
    (for_each
       (λ name,
          apiKey ← getApiKey name;
          let hasApiKey :=
            match apiKey with
            | Some k => validateApiKey name k
            | None => false
            end in
          model ← (if hasApiKey then m ← getModel name; mret (Some m)
                   else mret None);
          mret {| name := name; model := model; hasApiKey := hasApiKey |})
       l)
    (Ok (map (λ n, {| name := n; model := None; hasApiKey := false |}) l)).
Proof.
  intros Hnone. induction l as [|p l IH]; cbn; [apply returns_ret|].
  eapply returns_bind.
  { eapply returns_bind; [apply returns_getApiKey|].
    specialize (Hnone p). unfold configured in Hnone. rewrite Hnone.
    eapply returns_bind; apply returns_ret. }
  eapply returns_bind; [exact IH|apply returns_ret].
Qed.

Lemma configured_names_unconfigured (l : list string) :
  configured_names
    (map (λ n, {| name := n; model := None; hasApiKey := false |}) l) = [].
Proof. induction l as [|p l IH]; [done|exact IH]. Qed.

(** The names [getProviderPriority] takes from
    [PROVIDER_SELECTION_PRIORITY]; none when it is unset or blank. *)
Definition listed_names : list string :=
  if Js.trimmed_truthy (process_env !! "PROVIDER_SELECTION_PRIORITY")
  then priority_names (default "" (process_env !! "PROVIDER_SELECTION_PRIORITY"))
  else [].

Lemma filter_unsupported_nil (l : list string) :
  (∀ n, n ∈ l → n ∈ SUPPORTED_PROVIDERS) →
  filter (λ p, supported p = false) l = [].
Proof.
  intros H. induction l as [|p l IH]; [done|].
  rewrite filter_cons_False.
  - apply IH. intros n Hn. apply H. by right.
  - unfold supported. rewrite bool_decide_eq_true_2; [done|].
    apply H. by left.
Qed.

Lemma filter_unsupported_cons (l : list string) n :
  n ∈ l → n ∉ SUPPORTED_PROVIDERS →
  ∃ x rest, filter (λ p, supported p = false) l = x :: rest.
Proof.
  intros Hin Hn.
  assert (n ∈ filter (λ p, supported p = false) l) as H.
  { apply list_elem_of_filter. split; [|done].
    unfold supported. by rewrite bool_decide_eq_false_2. }
  destruct (filter _ l) as [|x rest]; [by apply elem_of_nil in H|eauto].
Qed.

Lemma returns_getProviderPriority_listed :
  listed_names ≠ [] →
  (∀ n, n ∈ listed_names → n ∈ SUPPORTED_PROVIDERS) →
  returns getProviderPriority (Ok listed_names).
Proof.
  unfold listed_names, getProviderPriority. intros Hne Hall.
  eapply returns_bind; [apply returns_resolveEnvVariableCached|].
  destruct (Js.trimmed_truthy _); [|done].
  destruct (priority_names _) as [|x l] eqn:El; [done|].
  rewrite (filter_unsupported_nil _ Hall). apply returns_ret.
Qed.

Lemma returns_getProviderPriority_invalid n :
  n ∈ listed_names → n ∉ SUPPORTED_PROVIDERS →
  ∃ e, returns getProviderPriority (Throw e)
       ∧ category e = CONFIGURATION ∧ code e = "INVALID_PROVIDERS".
Proof.
  unfold listed_names, getProviderPriority. intros Hin Hn.
  destruct (Js.trimmed_truthy _) eqn:Et; [|by apply elem_of_nil in Hin].
  destruct (priority_names _) as [|x l] eqn:El; [by apply elem_of_nil in Hin|].
  destruct (filter_unsupported_cons _ n Hin Hn) as (y & rest & Ef).
  eexists. split; [|split; shelve].
  eapply returns_bind; [apply returns_resolveEnvVariableCached|].
  rewrite Et, El, Ef. apply returns_throw.
  Unshelve. all: reflexivity.
Qed.

Lemma returns_getProviderPriority_fallback d :
  listed_names = [] →
  process_env !! "DEFAULT_LLM_PROVIDER" = Some d → Js.trim d ≠ "" →
  (∀ p, configured p = false) →
  returns getProviderPriority (Ok [Js.trim d]).
Proof.
  unfold listed_names, getProviderPriority. intros Hl Hd Hne Hnone.
  eapply returns_bind; [apply returns_resolveEnvVariableCached|].
  assert (returns
    (try_catch
       (defaultProvider ← getDefaultProvider;
        all ← getConfiguredProviders;
        mret (defaultProvider ::
              filter (λ p, p ≠ defaultProvider) (configured_names all)))
       (λ _, all ← getConfiguredProviders; mret (configured_names all)))
    (Ok [Js.trim d])) as Hfb.
  { apply returns_try_ok.
    eapply returns_bind.
    { by apply returns_getDefaultProvider_named. }
    eapply returns_bind; [by apply returns_for_each_unconfigured|].
    rewrite configured_names_unconfigured. apply returns_ret. }
  destruct (Js.trimmed_truthy _); [|exact Hfb].
  destruct (priority_names _); [exact Hfb|discriminate].
Qed.

(** Best available provider.  Without a named default the call
    throws a CONFIGURATION error.  With a default named: it is returned
    when it is configured; otherwise the names listed in
    [PROVIDER_SELECTION_PRIORITY] are walked in order and the first
    configured one is returned, a listed name outside the supported set
    being a CONFIGURATION error; and when no provider is configured (the
    list being absent or naming supported providers only) the result is
    [null]. *)
Theorem getBestAvailableProvider_selection :
  (Js.trimmed_truthy (process_env !! "DEFAULT_LLM_PROVIDER") = false →
     ∃ e, returns getBestAvailableProvider (Throw e)
          ∧ category e = CONFIGURATION)
  ∧ (∀ d, process_env !! "DEFAULT_LLM_PROVIDER" = Some d → Js.trim d ≠ "" →
       (configured (Js.trim d) = true →
          returns getBestAvailableProvider (Ok (Some (Js.trim d))))
       ∧ (configured (Js.trim d) = false → listed_names ≠ [] →
          (∀ n, n ∈ listed_names → n ∈ SUPPORTED_PROVIDERS) →
          returns getBestAvailableProvider (Ok (find configured listed_names)))
       ∧ (configured (Js.trim d) = false →
          ∀ n, n ∈ listed_names → n ∉ SUPPORTED_PROVIDERS →
          ∃ e, returns getBestAvailableProvider (Throw e)
               ∧ category e = CONFIGURATION)
       ∧ ((∀ p, configured p = false) →
          (∀ n, n ∈ listed_names → n ∈ SUPPORTED_PROVIDERS) →
          returns getBestAvailableProvider (Ok None))).
Proof.
  split.
  { intros Hd. exists DEFAULT_PROVIDER_NOT_SET. split; [|done].
    unfold getBestAvailableProvider. apply returns_bind_throw.
    pose proof returns_getDefaultProvider as H. by rewrite Hd in H. }
  intros d Hd Hne.
  assert (returns getDefaultProvider (Ok (Js.trim d))) as Hdef
    by (by apply returns_getDefaultProvider_named).
  assert (Js.truthy (Js.trim d) = true) as Htr
    by (destruct (Js.trim d); done).
  assert (∀ r, configured (Js.trim d) = false →
    returns (providerPriority ← getProviderPriority;
             first_configured providerPriority) r →
    returns getBestAvailableProvider r) as Hwalk.
  { intros r Hc H. unfold getBestAvailableProvider.
    eapply returns_bind; [exact Hdef|].
    eapply returns_bind;
      [rewrite Htr; apply returns_isProviderConfigured|].
    rewrite Hc. exact H. }
  split; [|split; [|split]].
  - intros Hc. unfold getBestAvailableProvider.
    eapply returns_bind; [exact Hdef|].
    eapply returns_bind;
      [rewrite Htr; apply returns_isProviderConfigured|].
    rewrite Hc. apply returns_ret.
  - intros Hc Hl Hall. apply Hwalk; [exact Hc|].
    eapply returns_bind; [by apply returns_getProviderPriority_listed|].
    apply returns_first_configured.
  - intros Hc n Hin Hn.
    destruct (returns_getProviderPriority_invalid n Hin Hn)
      as (e & He & Hcat & _).
    exists e. split; [|exact Hcat].
    apply Hwalk; [exact Hc|]. by apply returns_bind_throw.
  - intros Hnone Hall. apply Hwalk; [apply Hnone|].
    assert (∀ l, find configured l = None) as Hfind.
    { induction l as [|p l IH]; [done|]. cbn. by rewrite Hnone. }
    destruct listed_names as [|x l] eqn:El.
    + eapply returns_bind;
        [by apply (returns_getProviderPriority_fallback d)|].
      rewrite <- (Hfind [Js.trim d]). apply returns_first_configured.
    + eapply returns_bind.
      { apply returns_getProviderPriority_listed;
          rewrite El; [done|exact Hall]. }
      rewrite <- (Hfind listed_names). apply returns_first_configured.
Qed.

(** *** Token limits, timeouts and the optional parameters *)

(** One tier of [getMaxTokens], [getTimeout] and
    [getMaxCompletionTokens]: the value rounded down, when it is set, not
    blank, a number, and positive. *)
Definition positive_tier (v : option string) : option spec_float :=
  if Js.trimmed_truthy v then
    let n := JsNumber.Number (Js.trim (default "" v)) in
    if negb (JsNumber.isNaN n) && JsNumber.gt n JsNumber.zero
    then Some (JsNumber.floor n) else None
  else None.

Definition getMaxTokens (providerName : string) : M spec_float :=
  providerValue ←
    resolveEnvVariableCached (Js.toUpperCase providerName +:+ "_MAX_TOKENS");
  match positive_tier providerValue with
  | Some tokens => mret tokens
  | None =>
      globalValue ← resolveEnvVariableCached "LLM_MAX_TOKENS";
      match positive_tier globalValue with
      | Some tokens => mret tokens
      | None =>
          defaultValue ← resolveEnvVariableCached "LLM_MAX_TOKENS_DEFAULT";
          match positive_tier defaultValue with
          | Some tokens => mret tokens
          | None =>
              throw {| message :=
                         "Max tokens configuration missing for " +:+ providerName;
                       category := CONFIGURATION;
                       code := "MAX_TOKENS_NOT_SET";
                       provider := Some providerName |}
          end
      end
  end.

Definition getTimeout (providerName : string) : M spec_float :=
  providerValue ←
    resolveEnvVariableCached (Js.toUpperCase providerName +:+ "_TIMEOUT");
  match positive_tier providerValue with
  | Some timeout => mret timeout
  | None =>
      globalValue ← resolveEnvVariableCached "LLM_TIMEOUT";
      match positive_tier globalValue with
      | Some timeout => mret timeout
      | None =>
          defaultValue ← resolveEnvVariableCached "LLM_TIMEOUT_DEFAULT";
          match positive_tier defaultValue with
          | Some timeout => mret timeout
          | None =>
              throw {| message :=
                         "Timeout configuration missing for " +:+ providerName;
                       category := CONFIGURATION;
                       code := "TIMEOUT_NOT_SET";
                       provider := Some providerName |}
          end
      end
  end.

Definition getBaseUrl (providerName : string) : M (option string) :=
  baseUrl ←
    resolveEnvVariableCached (Js.toUpperCase providerName +:+ "_BASE_URL");
  mret (if Js.trimmed_truthy baseUrl
        then Some (Js.trim (default "" baseUrl)) else None).

Definition getMaxCompletionTokens : M (option spec_float) :=
  value ← resolveEnvVariableCached "OPENAI_MAX_COMPLETION_TOKENS";
  match positive_tier value with
  | Some numValue => mret (Some numValue)
  | None =>
      defaultValue ←
        resolveEnvVariableCached "OPENAI_MAX_COMPLETION_TOKENS_DEFAULT";
      match positive_tier defaultValue with
      | Some numValue => mret (Some numValue)
      | None => mret None
      end
  end.

(** [validValues.includes(v.trim()) ? v.trim() : null] *)
Definition valid_or_null (validValues : list string) (v : string)
  : option string :=
  if bool_decide (Js.trim v ∈ validValues) then Some (Js.trim v) else None.

Definition getVerbosity : M (option string) :=
  value ← resolveEnvVariableCached "OPENAI_VERBOSITY";
  if Js.trimmed_truthy value then
    let validValues := ["low"; "medium"; "high"] in
    mret (valid_or_null validValues (default "" value))
  else
    defaultValue ← resolveEnvVariableCached "OPENAI_VERBOSITY_DEFAULT";
    if Js.trimmed_truthy defaultValue then
      let validValues := ["low"; "medium"; "high"] in
      mret (valid_or_null validValues (default "" defaultValue))
    else mret None.

Definition getReasoningEffort : M (option string) :=
  value ← resolveEnvVariableCached "OPENAI_REASONING_EFFORT";
  if Js.trimmed_truthy value then
    let validValues := ["minimal"; "low"; "medium"; "high"] in
    mret (valid_or_null validValues (default "" value))
  else
    defaultValue ← resolveEnvVariableCached "OPENAI_REASONING_EFFORT_DEFAULT";
    if Js.trimmed_truthy defaultValue then
      let validValues := ["minimal"; "low"; "medium"; "high"] in
      mret (valid_or_null validValues (default "" defaultValue))
    else mret None.

(** What [getProviderConfig] returns; [None] stands for [null]. *)
Record ProviderConfig := {
  config_apiKey : option string;
  config_model : option string;
  config_temperature : option spec_float;
  config_maxTokens : option spec_float;
  config_baseUrl : option string;
  config_timeout : option spec_float
}.

Definition getProviderConfig (providerName : string) : M ProviderConfig :=
  try_catch
    (apiKey ← getApiKey providerName;
     model ← getModel providerName;
     temperature ← getTemperature providerName;
     maxTokens ← getMaxTokens providerName;
     baseUrl ← getBaseUrl providerName;
     timeout ← getTimeout providerName;
     mret {| config_apiKey := apiKey;
             config_model := Some model;
             config_temperature := Some temperature;
             config_maxTokens := Some maxTokens;
             config_baseUrl := baseUrl;
             config_timeout := Some timeout |})
    (λ error,
       mret {| config_apiKey := None; config_model := None;
               config_temperature := None; config_maxTokens := None;
               config_baseUrl := None; config_timeout := None |}).

(** *** Values looked up tier by tier *)

(** The first of the variables [keys] whose value a tier accepts. *)
Fixpoint first_accepted {A} (tier : option string → option A)
    (keys : list string) : option A :=
  match keys with
  | [] => None
  | key :: rest =>
      match tier (process_env !! key) with
      | Some a => Some a
      | None => first_accepted tier rest
      end
  end.

Fixpoint tiers {A} (tier : option string → option A) (keys : list string)
    (otherwise : M A) : M A :=
  match keys with
  | [] => otherwise
  | key :: rest =>
      v ← resolveEnvVariableCached key;
      match tier v with
      | Some a => mret a
      | None => tiers tier rest otherwise
      end
  end.

Lemma returns_tiers {A} (tier : option string → option A) keys otherwise r :
  returns otherwise r →
  returns (tiers tier keys otherwise)
    (match first_accepted tier keys with
     | Some a => Ok a
     | None => r
     end).
Proof.
  intros Ho. induction keys as [|key rest IH]; cbn; [exact Ho|].
  eapply returns_bind; [apply returns_resolveEnvVariableCached|].
  destruct (tier (process_env !! key)); [apply returns_ret|exact IH].
Qed.

Definition MAX_TOKENS_NOT_SET (providerName : string) : StandardError :=
  {| message := "Max tokens configuration missing for " +:+ providerName;
     category := CONFIGURATION;
     code := "MAX_TOKENS_NOT_SET";
     provider := Some providerName |}.

Definition TIMEOUT_NOT_SET (providerName : string) : StandardError :=
  {| message := "Timeout configuration missing for " +:+ providerName;
     category := CONFIGURATION;
     code := "TIMEOUT_NOT_SET";
     provider := Some providerName |}.

Definition MODEL_NOT_SET (providerName : string) : StandardError :=
  {| message := "Model configuration missing for " +:+ providerName;
     category := CONFIGURATION;
     code := "MODEL_NOT_SET";
     provider := Some providerName |}.

Definition TEMPERATURE_NOT_SET (providerName : string) : StandardError :=
  {| message := "Temperature configuration missing for " +:+ providerName;
     category := CONFIGURATION;
     code := "TEMPERATURE_NOT_SET";
     provider := Some providerName |}.

(** A tier of [getModel]: the trimmed value when it is set and not
    blank. *)
Definition text_tier (v : option string) : option string :=
  if Js.trimmed_truthy v then Some (Js.trim (default "" v)) else None.

Definition result_of {A} (e : StandardError) (v : option A) : Result A :=
  match v with
  | Some a => Ok a
  | None => Throw e
  end.

Definition model_keys (p : string) : list string :=
  [Js.toUpperCase p +:+ "_MODEL"; Js.toUpperCase p +:+ "_MODEL_DEFAULT"].

Definition temperature_keys (p : string) : list string :=
  [Js.toUpperCase p +:+ "_TEMPERATURE"; "LLM_TEMPERATURE";
   "LLM_TEMPERATURE_DEFAULT"].

Definition max_tokens_keys (p : string) : list string :=
  [Js.toUpperCase p +:+ "_MAX_TOKENS"; "LLM_MAX_TOKENS";
   "LLM_MAX_TOKENS_DEFAULT"].

Definition timeout_keys (p : string) : list string :=
  [Js.toUpperCase p +:+ "_TIMEOUT"; "LLM_TIMEOUT"; "LLM_TIMEOUT_DEFAULT"].

Lemma returns_getModel p :
  returns (getModel p)
    (result_of (MODEL_NOT_SET p) (first_accepted text_tier (model_keys p))).
Proof.
  change (getModel p) with
    (userModel ← resolveEnvVariableCached (Js.toUpperCase p +:+ "_MODEL");
     if Js.trimmed_truthy userModel then mret (Js.trim (default "" userModel))
     else
       defaultModel ←
         resolveEnvVariableCached (Js.toUpperCase p +:+ "_MODEL_DEFAULT");
       if Js.trimmed_truthy defaultModel
       then mret (Js.trim (default "" defaultModel))
       else throw (MODEL_NOT_SET p)).
  eapply returns_bind; [apply returns_resolveEnvVariableCached|].
  cbn [first_accepted model_keys]. unfold text_tier.
  destruct (Js.trimmed_truthy (process_env !! _)); [apply returns_ret|].
  eapply returns_bind; [apply returns_resolveEnvVariableCached|].
  destruct (Js.trimmed_truthy (process_env !! _));
    [apply returns_ret|apply returns_throw].
Qed.

Lemma returns_getTemperature p :
  returns (getTemperature p)
    (result_of (TEMPERATURE_NOT_SET p)
       (first_accepted temperature_tier (temperature_keys p))).
Proof.
  change (getTemperature p) with
    (tiers temperature_tier (temperature_keys p)
       (throw (TEMPERATURE_NOT_SET p))).
  pose proof (returns_tiers temperature_tier (temperature_keys p) _ _
                (returns_throw (TEMPERATURE_NOT_SET p))) as H.
  by destruct (first_accepted _ _).
Qed.

Lemma returns_getMaxTokens p :
  returns (getMaxTokens p)
    (result_of (MAX_TOKENS_NOT_SET p)
       (first_accepted positive_tier (max_tokens_keys p))).
Proof.
  change (getMaxTokens p) with
    (tiers positive_tier (max_tokens_keys p) (throw (MAX_TOKENS_NOT_SET p))).
  pose proof (returns_tiers positive_tier (max_tokens_keys p) _ _
                (returns_throw (MAX_TOKENS_NOT_SET p))) as H.
  by destruct (first_accepted _ _).
Qed.

Lemma returns_getTimeout p :
  returns (getTimeout p)
    (result_of (TIMEOUT_NOT_SET p)
       (first_accepted positive_tier (timeout_keys p))).
Proof.
  change (getTimeout p) with
    (tiers positive_tier (timeout_keys p) (throw (TIMEOUT_NOT_SET p))).
  pose proof (returns_tiers positive_tier (timeout_keys p) _ _
                (returns_throw (TIMEOUT_NOT_SET p))) as H.
  by destruct (first_accepted _ _).
Qed.

Lemma returns_getBaseUrl p :
  returns (getBaseUrl p)
    (Ok (text_tier (process_env !! (Js.toUpperCase p +:+ "_BASE_URL")))).
Proof.
  unfold getBaseUrl.
  eapply returns_bind; [apply returns_resolveEnvVariableCached|].
  apply returns_ret.
Qed.

Lemma positive_tier_Some v t :
  positive_tier v = Some t ↔
  ∃ s, v = Some s ∧ Js.trim s ≠ ""
       ∧ JsNumber.isNaN (JsNumber.Number (Js.trim s)) = false
       ∧ JsNumber.gt (JsNumber.Number (Js.trim s)) JsNumber.zero = true
       ∧ t = JsNumber.floor (JsNumber.Number (Js.trim s)).
Proof.
  unfold positive_tier, Js.trimmed_truthy. destruct v as [s|].
  2:{ split; [done|]. by intros (? & ? & _). }
  change (default "" (Some s)) with s.
  destruct (Js.trim s) as [|c s'] eqn:Et.
  { split; [done|]. intros (? & [= <-] & H & _). congruence. }
  change (Js.truthy (String c s')) with true. cbv iota.
  set (n := JsNumber.Number (String c s')).
  split.
  - destruct (JsNumber.isNaN n) eqn:E1; [done|].
    destruct (JsNumber.gt n JsNumber.zero) eqn:E2; [|done].
    intros [= <-]. exists s. rewrite Et. by repeat split.
  - intros (? & [= <-] & _ & H1 & H2 & ->).
    rewrite Et in *. fold n in H1, H2. by rewrite H1, H2.
Qed.

(** X9 — The tiers of [getMaxTokens] and of [getTimeout]: the provider's own
    variable, then the global one ([LLM_MAX_TOKENS], [LLM_TIMEOUT]), then
    its [_DEFAULT]; the first value that is set, not blank, a number and
    positive is returned, rounded down; with none, the MAX_TOKENS_NOT_SET or
    TIMEOUT_NOT_SET error naming the provider is thrown.  A value returned
    is a number and is not negative, but the sign is tested before the
    rounding, so a value between 0 and 1 is accepted and gives 0; [Infinity]
    is accepted as it is. *)
Theorem getMaxTokens_getTimeout_tiers (providerName : string) :
  let tier suffix global :=
    match positive_tier
            (process_env !! (Js.toUpperCase providerName +:+ suffix)),
          positive_tier (process_env !! global),
          positive_tier (process_env !! (global +:+ "_DEFAULT")) with
    | Some t, _, _ | None, Some t, _ | None, None, Some t => Some t
    | None, None, None => None
    end in
  returns (getMaxTokens providerName)
    (match tier "_MAX_TOKENS" "LLM_MAX_TOKENS" with
     | Some t => Ok t
     | None =>
         Throw {| message :=
                    "Max tokens configuration missing for " +:+ providerName;
                  category := CONFIGURATION;
                  code := "MAX_TOKENS_NOT_SET";
                  provider := Some providerName |}
     end)
  ∧ returns (getTimeout providerName)
      (match tier "_TIMEOUT" "LLM_TIMEOUT" with
       | Some t => Ok t
       | None =>
           Throw {| message :=
                      "Timeout configuration missing for " +:+ providerName;
                    category := CONFIGURATION;
                    code := "TIMEOUT_NOT_SET";
                    provider := Some providerName |}
       end)
  ∧ (∀ v t, positive_tier v = Some t ↔
       ∃ s, v = Some s ∧ Js.trim s ≠ ""
            ∧ JsNumber.isNaN (JsNumber.Number (Js.trim s)) = false
            ∧ JsNumber.gt (JsNumber.Number (Js.trim s)) JsNumber.zero = true
            ∧ t = JsNumber.floor (JsNumber.Number (Js.trim s)))
  ∧ (∀ v t, positive_tier v = Some t → JsNumber.is_nonnegative t = true)
  ∧ positive_tier (Some " 4096.7 ") = Some (JsNumber.of_Z 4096)
  ∧ positive_tier (Some "1e3") = Some (JsNumber.of_Z 1000)
  ∧ positive_tier (Some "0.5") = Some JsNumber.zero
  ∧ positive_tier (Some "Infinity") = Some (S754_infinity false)
  ∧ positive_tier (Some "0") = None
  ∧ positive_tier (Some "-1") = None
  ∧ positive_tier (Some "4k") = None.
Proof.
  cbv zeta. split.
  { pose proof (returns_getMaxTokens providerName) as H.
    cbn [first_accepted max_tokens_keys] in H.
    change ("LLM_MAX_TOKENS" +:+ "_DEFAULT") with "LLM_MAX_TOKENS_DEFAULT".
    destruct (positive_tier (process_env !! (_ +:+ "_MAX_TOKENS")));
      [exact H|].
    destruct (positive_tier (process_env !! "LLM_MAX_TOKENS")); [exact H|].
    by destruct (positive_tier (process_env !! "LLM_MAX_TOKENS_DEFAULT")). }
  split.
  { pose proof (returns_getTimeout providerName) as H.
    cbn [first_accepted timeout_keys] in H.
    change ("LLM_TIMEOUT" +:+ "_DEFAULT") with "LLM_TIMEOUT_DEFAULT".
    destruct (positive_tier (process_env !! (_ +:+ "_TIMEOUT")));
      [exact H|].
    destruct (positive_tier (process_env !! "LLM_TIMEOUT")); [exact H|].
    by destruct (positive_tier (process_env !! "LLM_TIMEOUT_DEFAULT")). }
  split; [apply positive_tier_Some|].
  split.
  { intros v t (s & _ & _ & Hn & Hp & ->)%positive_tier_Some.
    by apply JsNumber.floor_nonnegative. }
  repeat split; vm_compute; reflexivity.
Qed.

(** X10 — The tiers of [getModel]: the provider's [_MODEL] variable, then
    its [_MODEL_DEFAULT]; the first that is set and not blank is returned,
    trimmed; with none, the MODEL_NOT_SET error naming the provider is
    thrown.  The model returned is never empty and has no white space around
    it. *)
Theorem getModel_tiers (providerName : string) :
  let user := process_env !! (Js.toUpperCase providerName +:+ "_MODEL") in
  let fallback :=
    process_env !! (Js.toUpperCase providerName +:+ "_MODEL_DEFAULT") in
  returns (getModel providerName)
    (match text_tier user, text_tier fallback with
     | Some m, _ | None, Some m => Ok m
     | None, None =>
         Throw {| message := "Model configuration missing for " +:+ providerName;
                  category := CONFIGURATION;
                  code := "MODEL_NOT_SET";
                  provider := Some providerName |}
     end)
  ∧ (∀ v m, text_tier v = Some m ↔
       ∃ s, v = Some s ∧ Js.trim s ≠ "" ∧ m = Js.trim s)
  ∧ (∀ m, returns (getModel providerName) (Ok m) →
       m ≠ "" ∧ Js.trim m = m).
Proof.
  cbv zeta.
  assert (∀ v m, text_tier v = Some m ↔
            ∃ s, v = Some s ∧ Js.trim s ≠ "" ∧ m = Js.trim s) as Htier.
  { intros v m. unfold text_tier, Js.trimmed_truthy. destruct v as [s|].
    2:{ split; [done|]. by intros (? & ? & _). }
    change (default "" (Some s)) with s.
    destruct (Js.trim s) as [|c s'] eqn:Et; cbn.
    - split; [done|]. intros (? & [= <-] & H & _). congruence.
    - split.
      + intros [= <-]. exists s. by rewrite Et.
      + intros (? & [= <-] & _ & ->). by rewrite Et. }
  assert (returns (getModel providerName)
    (match text_tier (process_env !! (Js.toUpperCase providerName +:+ "_MODEL")),
           text_tier (process_env !! (Js.toUpperCase providerName +:+ "_MODEL_DEFAULT")) with
     | Some m, _ | None, Some m => Ok m
     | None, None => Throw (MODEL_NOT_SET providerName)
     end)) as Hret.
  { pose proof (returns_getModel providerName) as H.
    cbn [first_accepted model_keys] in H.
    destruct (text_tier (process_env !! (_ +:+ "_MODEL"))); [exact H|].
    by destruct (text_tier (process_env !! (_ +:+ "_MODEL_DEFAULT"))). }
  split; [exact Hret|]. split; [exact Htier|].
  intros m Hm.
  pose proof (returns_inj _ _ _ (cleared (λ _, 0)) (cleared_coherent _)
                Hm Hret) as Heq.
  destruct (text_tier (process_env !! (_ +:+ "_MODEL"))) as [m1|] eqn:E1.
  - injection Heq as ->. apply Htier in E1 as (s & _ & Hne & ->).
    split; [exact Hne|apply Js.trim_idemp].
  - destruct (text_tier (process_env !! (_ +:+ "_MODEL_DEFAULT")))
      as [m2|] eqn:E2; [|discriminate].
    injection Heq as ->. apply Htier in E2 as (s & _ & Hne & ->).
    split; [exact Hne|apply Js.trim_idemp].
Qed.


Lemma returns_getVerbosity :
  returns getVerbosity
    (Ok (let valid := valid_or_null ["low"; "medium"; "high"] in
         match text_tier (process_env !! "OPENAI_VERBOSITY") with
         | Some _ => valid (default "" (process_env !! "OPENAI_VERBOSITY"))
         | None =>
             match text_tier (process_env !! "OPENAI_VERBOSITY_DEFAULT") with
             | Some _ =>
                 valid (default "" (process_env !! "OPENAI_VERBOSITY_DEFAULT"))
             | None => None
             end
         end)).
Proof.
  unfold getVerbosity, text_tier.
  eapply returns_bind; [apply returns_resolveEnvVariableCached|].
  destruct (Js.trimmed_truthy (process_env !! "OPENAI_VERBOSITY"));
    [apply returns_ret|].
  eapply returns_bind; [apply returns_resolveEnvVariableCached|].
  destruct (Js.trimmed_truthy (process_env !! "OPENAI_VERBOSITY_DEFAULT"));
    apply returns_ret.
Qed.

Lemma returns_getReasoningEffort :
  returns getReasoningEffort
    (Ok (let valid := valid_or_null ["minimal"; "low"; "medium"; "high"] in
         match text_tier (process_env !! "OPENAI_REASONING_EFFORT") with
         | Some _ =>
             valid (default "" (process_env !! "OPENAI_REASONING_EFFORT"))
         | None =>
             match text_tier
                     (process_env !! "OPENAI_REASONING_EFFORT_DEFAULT") with
             | Some _ =>
                 valid (default ""
                          (process_env !! "OPENAI_REASONING_EFFORT_DEFAULT"))
             | None => None
             end
         end)).
Proof.
  unfold getReasoningEffort, text_tier.
  eapply returns_bind; [apply returns_resolveEnvVariableCached|].
  destruct (Js.trimmed_truthy (process_env !! "OPENAI_REASONING_EFFORT"));
    [apply returns_ret|].
  eapply returns_bind; [apply returns_resolveEnvVariableCached|].
  destruct (Js.trimmed_truthy
              (process_env !! "OPENAI_REASONING_EFFORT_DEFAULT"));
    apply returns_ret.
Qed.

Lemma valid_or_null_Some validValues v r :
  valid_or_null validValues v = Some r → r ∈ validValues ∧ r = Js.trim v.
Proof.
  unfold valid_or_null. destruct (bool_decide_reflect (Js.trim v ∈ validValues));
    [|done]. by intros [= <-].
Qed.

Lemma valid_or_null_None validValues v :
  Js.trim v ∉ validValues → valid_or_null validValues v = None.
Proof. intros H. unfold valid_or_null. by rewrite bool_decide_eq_false_2. Qed.

(** X12 — [getVerbosity] and [getReasoningEffort] never throw, and what they
    return is [null] or one of the valid words.  The [_DEFAULT] variable is
    consulted only when the primary one is unset or blank: a primary value
    that is set to something else than a valid word gives [null], whatever
    the default says. *)
Theorem gpt5_words_primary_decides :
  (∃ r, returns getVerbosity (Ok r)
        ∧ ∀ w, r = Some w → w ∈ ["low"; "medium"; "high"])
  ∧ (∃ r, returns getReasoningEffort (Ok r)
          ∧ ∀ w, r = Some w → w ∈ ["minimal"; "low"; "medium"; "high"])
  ∧ (∀ s, process_env !! "OPENAI_VERBOSITY" = Some s → Js.trim s ≠ "" →
       Js.trim s ∉ ["low"; "medium"; "high"] →
       returns getVerbosity (Ok None))
  ∧ (∀ s, process_env !! "OPENAI_REASONING_EFFORT" = Some s →
       Js.trim s ≠ "" →
       Js.trim s ∉ ["minimal"; "low"; "medium"; "high"] →
       returns getReasoningEffort (Ok None))
  ∧ (∀ s, Js.trimmed_truthy (process_env !! "OPENAI_VERBOSITY") = false →
       process_env !! "OPENAI_VERBOSITY_DEFAULT" = Some s →
       Js.trim s ∈ ["low"; "medium"; "high"] →
       returns getVerbosity (Ok (Some (Js.trim s)))).
Proof.
  assert (∀ s, Js.trim s ≠ "" → text_tier (Some s) = Some (Js.trim s)) as Ht.
  { intros s Hs. unfold text_tier, Js.trimmed_truthy.
    change (default "" (Some s)) with s. by destruct (Js.trim s). }
  split; [|split; [|split; [|split]]].
  - eexists. split; [apply returns_getVerbosity|]. cbv zeta. intros w Hw.
    destruct (text_tier (process_env !! "OPENAI_VERBOSITY")).
    + by apply valid_or_null_Some in Hw as [? _].
    + destruct (text_tier (process_env !! "OPENAI_VERBOSITY_DEFAULT"));
        [|done]. by apply valid_or_null_Some in Hw as [? _].
  - eexists. split; [apply returns_getReasoningEffort|]. cbv zeta.
    intros w Hw.
    destruct (text_tier (process_env !! "OPENAI_REASONING_EFFORT")).
    + by apply valid_or_null_Some in Hw as [? _].
    + destruct (text_tier (process_env !! "OPENAI_REASONING_EFFORT_DEFAULT"));
        [|done]. by apply valid_or_null_Some in Hw as [? _].
  - intros s Hs Hne Hinv. pose proof returns_getVerbosity as H.
    cbv zeta in H. rewrite Hs, (Ht s Hne) in H.
    change (default "" (Some s)) with s in H.
    by rewrite (valid_or_null_None _ _ Hinv) in H.
  - intros s Hs Hne Hinv. pose proof returns_getReasoningEffort as H.
    cbv zeta in H. rewrite Hs, (Ht s Hne) in H.
    change (default "" (Some s)) with s in H.
    by rewrite (valid_or_null_None _ _ Hinv) in H.
  - intros s Hp Hs Hv. pose proof returns_getVerbosity as H.
    cbv zeta in H. unfold text_tier in H at 1. rewrite Hp in H.
    rewrite Hs in H. rewrite Ht in H.
    2:{ intros E. rewrite E in Hv. set_solver. }
    change (default "" (Some s)) with s in H. unfold valid_or_null in H.
    by rewrite bool_decide_eq_true_2 in H.
Qed.

(** X13 — [getMaxCompletionTokens] never throws: the primary variable when
    it is accepted, else the [_DEFAULT] one when that is accepted, else
    [null].  Unlike the two words above, a primary value that is not
    accepted falls through to the default. *)
Theorem getMaxCompletionTokens_tiers :
  let v1 := positive_tier (process_env !! "OPENAI_MAX_COMPLETION_TOKENS") in
  let v2 :=
    positive_tier (process_env !! "OPENAI_MAX_COMPLETION_TOKENS_DEFAULT") in
  returns getMaxCompletionTokens
    (Ok match v1 with
        | Some n => Some n
        | None => v2
        end).
Proof.
  cbv zeta. unfold getMaxCompletionTokens.
  eapply returns_bind; [apply returns_resolveEnvVariableCached|].
  destruct (positive_tier (process_env !! "OPENAI_MAX_COMPLETION_TOKENS"));
    [apply returns_ret|].
  eapply returns_bind; [apply returns_resolveEnvVariableCached|].
  destruct (positive_tier _); apply returns_ret.
Qed.

Definition no_config : ProviderConfig :=
  {| config_apiKey := None; config_model := None;
     config_temperature := None; config_maxTokens := None;
     config_baseUrl := None; config_timeout := None |}.

(** X14 — [getProviderConfig] never throws, and what it returns is all or
    nothing: when the model, the temperature, the token limit and the
    timeout are all configured it carries them with the API key and the base
    URL; when one of the four is not, every field is [null], the API key and
    the base URL included, whether they are set or not. *)
Theorem getProviderConfig_all_or_nothing (providerName : string) :
  ∃ r, returns (getProviderConfig providerName) (Ok r)
    ∧ (∀ model temperature maxTokens timeout,
         returns (getModel providerName) (Ok model) →
         returns (getTemperature providerName) (Ok temperature) →
         returns (getMaxTokens providerName) (Ok maxTokens) →
         returns (getTimeout providerName) (Ok timeout) →
         config_model r = Some model
         ∧ config_temperature r = Some temperature
         ∧ config_maxTokens r = Some maxTokens
         ∧ config_timeout r = Some timeout
         ∧ returns (getApiKey providerName) (Ok (config_apiKey r))
         ∧ returns (getBaseUrl providerName) (Ok (config_baseUrl r)))
    ∧ (∀ e, returns (getModel providerName) (Throw e)
            ∨ returns (getTemperature providerName) (Throw e)
            ∨ returns (getMaxTokens providerName) (Throw e)
            ∨ returns (getTimeout providerName) (Throw e) →
         r = no_config).
Proof.
  pose proof (returns_getModel providerName) as Hm.
  pose proof (returns_getTemperature providerName) as Ht.
  pose proof (returns_getMaxTokens providerName) as Hx.
  pose proof (returns_getTimeout providerName) as Ho.
  pose proof (returns_getApiKey providerName) as Hk.
  pose proof (returns_getBaseUrl providerName) as Hb.
  set (w0 := cleared (λ _, 0)).
  assert (coherent w0) as Hw0 by apply cleared_coherent.
  destruct (first_accepted text_tier (model_keys providerName)) as [m|];
    cbn [result_of] in Hm.
  2:{ exists no_config. split; [|split].
      - eapply returns_try_throw; [|apply returns_ret].
        eapply returns_bind; [exact Hk|]. by apply returns_bind_throw.
      - intros m ? ? ? Hm'. by pose proof (returns_inj _ _ _ w0 Hw0 Hm Hm').
      - done. }
  destruct (first_accepted temperature_tier (temperature_keys providerName))
    as [t|]; cbn [result_of] in Ht.
  2:{ exists no_config. split; [|split].
      - eapply returns_try_throw; [|apply returns_ret].
        eapply returns_bind; [exact Hk|].
        eapply returns_bind; [exact Hm|]. by apply returns_bind_throw.
      - intros ? t ? ? _ Ht'. by pose proof (returns_inj _ _ _ w0 Hw0 Ht Ht').
      - done. }
  destruct (first_accepted positive_tier (max_tokens_keys providerName))
    as [x|]; cbn [result_of] in Hx.
  2:{ exists no_config. split; [|split].
      - eapply returns_try_throw; [|apply returns_ret].
        eapply returns_bind; [exact Hk|].
        eapply returns_bind; [exact Hm|].
        eapply returns_bind; [exact Ht|]. by apply returns_bind_throw.
      - intros ? ? x ? _ _ Hx'.
        by pose proof (returns_inj _ _ _ w0 Hw0 Hx Hx').
      - done. }
  destruct (first_accepted positive_tier (timeout_keys providerName))
    as [o|]; cbn [result_of] in Ho.
  2:{ exists no_config. split; [|split].
      - eapply returns_try_throw; [|apply returns_ret].
        eapply returns_bind; [exact Hk|].
        eapply returns_bind; [exact Hm|].
        eapply returns_bind; [exact Ht|].
        eapply returns_bind; [exact Hx|].
        eapply returns_bind; [exact Hb|]. by apply returns_bind_throw.
      - intros ? ? ? o _ _ _ Ho'.
        by pose proof (returns_inj _ _ _ w0 Hw0 Ho Ho').
      - done. }
  eexists. split; [|split].
  - apply returns_try_ok.
    eapply returns_bind; [exact Hk|].
    eapply returns_bind; [exact Hm|].
    eapply returns_bind; [exact Ht|].
    eapply returns_bind; [exact Hx|].
    eapply returns_bind; [exact Hb|].
    eapply returns_bind; [exact Ho|]. apply returns_ret.
  - intros m' t' x' o' Hm' Ht' Hx' Ho'. cbn.
    pose proof (returns_inj _ _ _ w0 Hw0 Hm Hm') as [= <-].
    pose proof (returns_inj _ _ _ w0 Hw0 Ht Ht') as [= <-].
    pose proof (returns_inj _ _ _ w0 Hw0 Hx Hx') as [= <-].
    pose proof (returns_inj _ _ _ w0 Hw0 Ho Ho') as [= <-].
    by repeat split.
  - intros e [H|[H|[H|H]]].
    + by pose proof (returns_inj _ _ _ w0 Hw0 Hm H).
    + by pose proof (returns_inj _ _ _ w0 Hw0 Ht H).
    + by pose proof (returns_inj _ _ _ w0 Hw0 Hx H).
    + by pose proof (returns_inj _ _ _ w0 Hw0 Ho H).
Qed.

(** *** The provider listing and the priority list *)

(** The entry [getConfiguredProviders] builds for one provider. *)
Definition status_of (p : string) : Result ProviderStatus :=
  if configured p then
    match first_accepted text_tier (model_keys p) with
    | Some m => Ok {| name := p; model := Some m; hasApiKey := true |}
    | None => Throw (MODEL_NOT_SET p)
    end
  else Ok {| name := p; model := None; hasApiKey := false |}.

Fixpoint statuses (l : list string) : Result (list ProviderStatus) :=
  match l with
  | [] => Ok []
  | p :: rest =>
      match status_of p with
      | Ok s =>
          match statuses rest with
          | Ok ss => Ok (s :: ss)
          | Throw e => Throw e
          end
      | Throw e => Throw e
      end
  end.

Lemma returns_getConfiguredProviders :
  returns getConfiguredProviders (statuses SUPPORTED_PROVIDERS).
Proof.
  unfold getConfiguredProviders.
  induction SUPPORTED_PROVIDERS as [|p l IH]; cbn [for_each statuses];
    [apply returns_ret|].
  assert (returns
    (apiKey ← getApiKey p;
     let hasApiKey :=
       match apiKey with
       | Some k => validateApiKey p k
       | None => false
       end in
     model ← (if hasApiKey then m ← getModel p; mret (Some m)
              else mret None);
     mret {| name := p; model := model; hasApiKey := hasApiKey |})
    (status_of p)) as Hp.
  { eapply returns_bind; [apply returns_getApiKey|]. cbv zeta.
    unfold status_of, configured.
    destruct (match apiKey_of p with
              | Some k => validateApiKey p k
              | None => false
              end).
    - pose proof (returns_getModel p) as Hm.
      destruct (first_accepted text_tier (model_keys p)) as [m|];
        cbn [result_of] in Hm.
      + eapply returns_bind; [|apply returns_ret].
        eapply returns_bind; [exact Hm|apply returns_ret].
      + apply returns_bind_throw. by apply returns_bind_throw.
    - eapply returns_bind; apply returns_ret. }
  destruct (status_of p) as [s|e].
  - eapply returns_bind; [exact Hp|].
    destruct (statuses l) as [ss|e].
    + eapply returns_bind; [exact IH|apply returns_ret].
    + by apply returns_bind_throw.
  - by apply returns_bind_throw.
Qed.

Lemma statuses_Ok l ss :
  statuses l = Ok ss →
  map name ss = l
  ∧ Forall (λ s, hasApiKey s = configured (name s)
                 ∧ model s = (if configured (name s)
                              then first_accepted text_tier (model_keys (name s))
                              else None)
                 ∧ (configured (name s) = true → is_Some (model s))) ss.
Proof.
  revert ss. induction l as [|p l IH]; intros ss; cbn [statuses].
  { intros [= <-]. split; [done|constructor]. }
  unfold status_of. destruct (configured p) eqn:Ec.
  - destruct (first_accepted text_tier (model_keys p)) as [m|] eqn:Em;
      [|done].
    destruct (statuses l) as [ss'|]; [|done]. intros [= <-].
    destruct (IH ss' eq_refl) as [Hn Hf]. cbn [map name].
    split; [by rewrite Hn|].
    constructor; [|exact Hf]. cbn [name model hasApiKey].
    rewrite Ec, Em. by repeat split.
  - destruct (statuses l) as [ss'|]; [|done]. intros [= <-].
    destruct (IH ss' eq_refl) as [Hn Hf]. cbn [map name].
    split; [by rewrite Hn|].
    constructor; [|exact Hf]. cbn [name model hasApiKey]. by rewrite Ec.
Qed.

Lemma statuses_Throw l e :
  statuses l = Throw e →
  ∃ p, p ∈ l ∧ configured p = true
       ∧ first_accepted text_tier (model_keys p) = None
       ∧ e = MODEL_NOT_SET p.
Proof.
  induction l as [|p l IH]; cbn [statuses]; [done|].
  unfold status_of. destruct (configured p) eqn:Ec.
  - destruct (first_accepted text_tier (model_keys p)) as [m|] eqn:Em.
    + destruct (statuses l) as [ss'|e']; [done|]. intros [= <-].
      destruct (IH eq_refl) as (q & Hq & H). exists q. split; [by right|done].
    + intros [= <-]. exists p. split; [by left|done].
  - destruct (statuses l) as [ss'|e']; [done|]. intros [= <-].
    destruct (IH eq_refl) as (q & Hq & H). exists q. split; [by right|done].
Qed.

(** X15 — [getConfiguredProviders] lists the supported providers in their
    order, one entry each; an entry has a model exactly when its provider
    has a valid API key, the model [getModel] returns.  When a provider with
    a valid key has no model configured, the listing as a whole fails with
    that provider's MODEL_NOT_SET error. *)
Theorem getConfiguredProviders_listing :
  ∃ r, returns getConfiguredProviders r
    ∧ (∀ l, r = Ok l →
         map name l = SUPPORTED_PROVIDERS
         ∧ Forall
             (λ s, returns (isProviderConfigured (name s)) (Ok (hasApiKey s))
                   ∧ (hasApiKey s = true →
                        ∃ m, model s = Some m
                             ∧ returns (getModel (name s)) (Ok m))
                   ∧ (hasApiKey s = false → model s = None)) l)
    ∧ (∀ e, r = Throw e →
         ∃ p, p ∈ SUPPORTED_PROVIDERS
              ∧ returns (isProviderConfigured p) (Ok true)
              ∧ returns (getModel p) (Throw e)
              ∧ code e = "MODEL_NOT_SET" ∧ provider e = Some p).
Proof.
  exists (statuses SUPPORTED_PROVIDERS).
  split; [apply returns_getConfiguredProviders|]. split.
  - intros l Hl. apply statuses_Ok in Hl as [Hn Hf]. split; [exact Hn|].
    eapply Forall_impl; [exact Hf|]. intros s (Hk & Hm & Hs). cbn beta.
    split; [rewrite Hk; apply returns_isProviderConfigured|]. split.
    + intros Ht. rewrite Hk in Ht. destruct (Hs Ht) as [m Em].
      exists m. split; [exact Em|].
      pose proof (returns_getModel (name s)) as H.
      rewrite Ht in Hm. rewrite Em in Hm. by rewrite <- Hm in H.
    + intros Hf'. rewrite Hk in Hf'. by rewrite Hf' in Hm.
  - intros e He. apply statuses_Throw in He as (p & Hp & Hc & Hm & ->).
    exists p. split; [exact Hp|]. split.
    { rewrite <- Hc. apply returns_isProviderConfigured. }
    split; [|done].
    pose proof (returns_getModel p) as H. by rewrite Hm in H.
Qed.

(** What [getProviderPriority] returns. *)
Definition priority_result : Result (list string) :=
  match listed_names with
  | [] =>
      match statuses SUPPORTED_PROVIDERS with
      | Ok all =>
          if Js.trimmed_truthy (process_env !! "DEFAULT_LLM_PROVIDER") then
            let d := Js.trim (default "" (process_env !! "DEFAULT_LLM_PROVIDER")) in
            Ok (d :: filter (λ p, p ≠ d) (configured_names all))
          else Ok (configured_names all)
      | Throw e => Throw e
      end
  | _ =>
      match filter (λ p, supported p = false) listed_names with
      | [] => Ok listed_names
      | invalidProviders =>
          Throw {| message :=
                     "Invalid providers in priority configuration: "
                     +:+ Js.join ", " invalidProviders;
                   category := CONFIGURATION;
                   code := "INVALID_PROVIDERS";
                   provider := None |}
      end
  end.

Lemma returns_getProviderPriority : returns getProviderPriority priority_result.
Proof.
  unfold getProviderPriority, priority_result, listed_names.
  eapply returns_bind; [apply returns_resolveEnvVariableCached|].
  assert (returns
    (try_catch
       (defaultProvider ← getDefaultProvider;
        all ← getConfiguredProviders;
        mret (defaultProvider ::
              filter (λ p, p ≠ defaultProvider) (configured_names all)))
       (λ _, all ← getConfiguredProviders; mret (configured_names all)))
    match statuses SUPPORTED_PROVIDERS with
    | Ok all =>
        if Js.trimmed_truthy (process_env !! "DEFAULT_LLM_PROVIDER") then
          let d := Js.trim (default "" (process_env !! "DEFAULT_LLM_PROVIDER")) in
          Ok (d :: filter (λ p, p ≠ d) (configured_names all))
        else Ok (configured_names all)
    | Throw e => Throw e
    end) as Hfb.
  { pose proof returns_getDefaultProvider as Hd.
    pose proof returns_getConfiguredProviders as Hc.
    destruct (statuses SUPPORTED_PROVIDERS) as [all|e].
    - destruct (Js.trimmed_truthy (process_env !! "DEFAULT_LLM_PROVIDER")).
      + apply returns_try_ok.
        eapply returns_bind; [exact Hd|].
        eapply returns_bind; [exact Hc|apply returns_ret].
      + eapply returns_try_throw; [by apply returns_bind_throw|].
        eapply returns_bind; [exact Hc|apply returns_ret].
    - destruct (Js.trimmed_truthy (process_env !! "DEFAULT_LLM_PROVIDER")).
      + eapply returns_try_throw.
        * eapply returns_bind; [exact Hd|]. by apply returns_bind_throw.
        * by apply returns_bind_throw.
      + eapply returns_try_throw; [by apply returns_bind_throw|].
        by apply returns_bind_throw. }
  destruct (Js.trimmed_truthy (process_env !! "PROVIDER_SELECTION_PRIORITY"));
    [|exact Hfb].
  destruct (priority_names _) as [|x l]; [exact Hfb|].
  destruct (filter _ (x :: l)); [apply returns_ret|apply returns_throw].
Qed.

(** X16 — [getProviderPriority].  The names of [PROVIDER_SELECTION_PRIORITY]
    are the comma-separated pieces, trimmed, the empty ones left out, in
    their order and with their repetitions.  When there are some and all are
    supported, they are the result; when some are not supported,
    INVALID_PROVIDERS is thrown with those names in its message.  When there
    are none, the result is the default provider (configured or not,
    supported or not) followed by the other providers that have a valid key,
    or those providers alone when no default is named; and the error of
    [getConfiguredProviders] when that fails. *)
Theorem getProviderPriority_result :
  (listed_names ≠ [] →
   (∀ n, n ∈ listed_names → n ∈ SUPPORTED_PROVIDERS) →
   returns getProviderPriority (Ok listed_names))
  ∧ (listed_names ≠ [] →
     ∀ n, n ∈ listed_names → n ∉ SUPPORTED_PROVIDERS →
     returns getProviderPriority
       (Throw {| message :=
                   "Invalid providers in priority configuration: "
                   +:+ Js.join ", "
                         (filter (λ p, supported p = false) listed_names);
                 category := CONFIGURATION;
                 code := "INVALID_PROVIDERS";
                 provider := None |}))
  ∧ (listed_names = [] →
     ∀ all, returns getConfiguredProviders (Ok all) →
     (∀ d, process_env !! "DEFAULT_LLM_PROVIDER" = Some d → Js.trim d ≠ "" →
        returns getProviderPriority
          (Ok (Js.trim d
               :: filter (λ p, p ≠ Js.trim d) (configured_names all))))
     ∧ (Js.trimmed_truthy (process_env !! "DEFAULT_LLM_PROVIDER") = false →
        returns getProviderPriority (Ok (configured_names all))))
  ∧ (listed_names = [] →
     ∀ e, returns getConfiguredProviders (Throw e) →
     returns getProviderPriority (Throw e)).
Proof.
  pose proof returns_getProviderPriority as H. unfold priority_result in H.
  set (w0 := cleared (λ _, 0)).
  assert (coherent w0) as Hw0 by apply cleared_coherent.
  split; [|split; [|split]].
  - intros Hne Hall. destruct listed_names as [|x l] eqn:El; [done|].
    by rewrite (filter_unsupported_nil _ Hall) in H.
  - intros Hne n Hin Hn. destruct listed_names as [|x l] eqn:El; [done|].
    destruct (filter_unsupported_cons _ n Hin Hn) as (y & rest & Ef).
    by rewrite Ef in H |- *.
  - intros El all Hall. rewrite El in H.
    pose proof (returns_inj _ _ _ w0 Hw0 returns_getConfiguredProviders Hall)
      as Hs. rewrite Hs in H. split.
    + intros d Hd Hne. rewrite Hd in H. unfold Js.trimmed_truthy in H.
      change (default "" (Some d)) with d in H.
      by destruct (Js.trim d).
    + intros Hf. by rewrite Hf in H.
  - intros El e He. rewrite El in H.
    pose proof (returns_inj _ _ _ w0 Hw0 returns_getConfiguredProviders He)
      as Hs. by rewrite Hs in H.
Qed.

(** What [getBestAvailableProvider] returns. *)
Definition best_result : Result (option string) :=
  if Js.trimmed_truthy (process_env !! "DEFAULT_LLM_PROVIDER") then
    let d := Js.trim (default "" (process_env !! "DEFAULT_LLM_PROVIDER")) in
    if Js.truthy d && configured d then Ok (Some d)
    else
      match priority_result with
      | Ok l => Ok (find configured l)
      | Throw e => Throw e
      end
  else Throw DEFAULT_PROVIDER_NOT_SET.

Lemma returns_getBestAvailableProvider :
  returns getBestAvailableProvider best_result.
Proof.
  unfold best_result, getBestAvailableProvider.
  pose proof returns_getDefaultProvider as Hd.
  destruct (Js.trimmed_truthy (process_env !! "DEFAULT_LLM_PROVIDER"));
    [|by apply returns_bind_throw].
  set (d := Js.trim (default "" (process_env !! "DEFAULT_LLM_PROVIDER"))) in *.
  cbv zeta.
  assert (returns
    ((if Js.truthy d then isProviderConfigured d else mret false))
    (Ok (Js.truthy d && configured d))) as Hok.
  { destruct (Js.truthy d); [apply returns_isProviderConfigured|].
    apply returns_ret. }
  eapply returns_bind; [exact Hd|].
  eapply returns_bind; [exact Hok|].
  destruct (Js.truthy d && configured d); [apply returns_ret|].
  pose proof returns_getProviderPriority as Hpr.
  destruct priority_result as [l|e].
  - eapply returns_bind; [exact Hpr|apply returns_first_configured].
  - by apply returns_bind_throw.
Qed.

(** X17 — [getBestAvailableProvider] names configured providers only: the
    provider it returns is one for which [isProviderConfigured] holds,
    whether it is the default, a listed one or one of the fallback list. *)
Theorem getBestAvailableProvider_is_configured (p : string) :
  returns getBestAvailableProvider (Ok (Some p)) →
  returns (isProviderConfigured p) (Ok true).
Proof.
  intros Hp.
  assert (configured p = true) as Hc.
  2:{ rewrite <- Hc. apply returns_isProviderConfigured. }
  pose proof (returns_inj _ _ _ (cleared (λ _, 0)) (cleared_coherent _) Hp
                returns_getBestAvailableProvider) as Hr.
  unfold best_result in Hr.
  destruct (Js.trimmed_truthy (process_env !! "DEFAULT_LLM_PROVIDER"));
    [|done].
  cbv zeta in Hr.
  destruct (Js.truthy _ && configured _) eqn:Eok.
  - injection Hr as ->. by apply andb_true_iff in Eok as [_ ?].
  - destruct priority_result as [l|e]; [|done].
    injection Hr as Hf. symmetry in Hf. by apply find_some in Hf as [_ ?].
Qed.

(** *** Validation of the global settings *)

Record ConfigurationValidationRule := {
  rule_field : string;
  rule_required : bool;
  rule_type : string;
  rule_validator : option (string → bool);
  rule_errorMessage : option string;
  rule_dependencies : option (list string)
}.

(** [GLOBAL_VALIDATION_RULES]; a validator is given the value of the
    variable, a string. *)
Definition GLOBAL_VALIDATION_RULES : list ConfigurationValidationRule :=
  [ {| rule_field := "PROVIDER_SELECTION_PRIORITY";
       rule_required := true;
       rule_type := "string";
       rule_validator :=
         Some (λ value,
                 if negb (Js.truthy value) then false
                 else
                   let providers := priority_names value in
                   (0 <? length providers)%nat && forallb supported providers);
       rule_errorMessage :=
         Some "PROVIDER_SELECTION_PRIORITY must be a comma-separated list of valid providers";
       rule_dependencies := None |};
    {| rule_field := "DEFAULT_LLM_PROVIDER";
       rule_required := true;
       rule_type := "string";
       rule_validator := Some (λ value, supported value);
       rule_errorMessage :=
         Some "DEFAULT_LLM_PROVIDER must be a valid provider name";
       rule_dependencies := Some ["PROVIDER_SELECTION_PRIORITY"] |} ].

Record ValidationIssue := {
  issue_field : string;
  issue_message : string;
  issue_category : ErrorCategory;
  issue_provider : option string
}.

Record ValidationWarning := {
  warning_field : string;
  warning_message : string;
  warning_provider : option string
}.

Record ValidationResult := {
  isValid : bool;
  errors : list ValidationIssue;
  warnings : list ValidationWarning
}.

(** [result.errors.push({ field, message, category });
    result.isValid = false;] *)
Definition push_error (field message : string) (category : ErrorCategory)
    (result : ValidationResult) : ValidationResult :=
  {| isValid := false;
     errors := errors result ++
               [ {| issue_field := field; issue_message := message;
                    issue_category := category; issue_provider := None |} ];
     warnings := warnings result |}.

(** [rule.errorMessage || fallback] *)
Definition errorMessage_or (rule : ConfigurationValidationRule)
    (fallback : string) : string :=
  match rule_errorMessage rule with
  | Some m => if Js.truthy m then m else fallback
  | None => fallback
  end.

(** One turn of the loop of [validateGlobalConfig]. *)
Definition validate_global_rule (result : ValidationResult)
    (rule : ConfigurationValidationRule) : ValidationResult :=
  let fieldValue := process_env !! rule_field rule in
  let present := match fieldValue with Some v => Js.truthy v | None => false end in
  if rule_required rule && negb present then
    push_error (rule_field rule)
      (errorMessage_or rule (rule_field rule +:+ " is required"))
      CONFIGURATION result
  else if negb (rule_required rule) && negb present then result
  else
    match rule_validator rule, fieldValue with
    | Some validator, Some v =>
        if negb (validator v) then
          push_error (rule_field rule)
            (errorMessage_or rule (rule_field rule +:+ " failed validation"))
            VALIDATION result
        else result
    | _, _ => result
    end.

Definition validateCrossDependencies (result : ValidationResult)
  : ValidationResult :=
  match process_env !! "DEFAULT_LLM_PROVIDER",
        process_env !! "PROVIDER_SELECTION_PRIORITY" with
  | Some defaultProvider, Some providerPriority =>
      if Js.truthy defaultProvider && Js.truthy providerPriority then
        let priorityProviders := map Js.trim (Js.split "," providerPriority) in
        if negb (bool_decide (defaultProvider ∈ priorityProviders)) then
          push_error "DEFAULT_LLM_PROVIDER"
            "DEFAULT_LLM_PROVIDER must be included in PROVIDER_SELECTION_PRIORITY"
            CONFIGURATION result
        else result
      else result
  | _, _ => result
  end.

Definition validateGlobalConfig : ValidationResult :=
  validateCrossDependencies
    (fold_left validate_global_rule GLOBAL_VALIDATION_RULES
       {| isValid := true; errors := []; warnings := [] |}).

Lemma priority_names_blank (p : string) :
  Js.trim p = "" → priority_names p = [].
Proof. intros H. unfold priority_names. by rewrite (Js.split_blank _ H). Qed.

Lemma elem_of_priority_names (d p : string) :
  d ∈ priority_names p ↔ d ≠ "" ∧ d ∈ map Js.trim (Js.split "," p).
Proof.
  unfold priority_names. rewrite list_elem_of_filter.
  split; intros [H1 H2]; (split; [|done]); by destruct d.
Qed.

Lemma priority_names_trimmed (d p : string) :
  d ∈ priority_names p → Js.trim d = d.
Proof.
  intros [_ H]%elem_of_priority_names.
  apply list_elem_of_fmap in H as (x & -> & _). apply Js.trim_idemp.
Qed.

(** What [validateGlobalConfig] accepts. *)
Definition global_config_accepted : Prop :=
  ∃ d p, process_env !! "DEFAULT_LLM_PROVIDER" = Some d
         ∧ process_env !! "PROVIDER_SELECTION_PRIORITY" = Some p
         ∧ d ∈ priority_names p
         ∧ (∀ n, n ∈ priority_names p → n ∈ SUPPORTED_PROVIDERS).

Lemma forallb_supported (l : list string) :
  forallb supported l = true ↔ ∀ n, n ∈ l → n ∈ SUPPORTED_PROVIDERS.
Proof.
  rewrite forallb_forall. unfold supported. split; intros H n Hn.
  - apply list_elem_of_In in Hn. by eapply bool_decide_eq_true_1, H.
  - apply bool_decide_eq_true_2, H. by apply list_elem_of_In.
Qed.

Lemma validateGlobalConfig_isValid_eq :
  isValid validateGlobalConfig =
  match process_env !! "PROVIDER_SELECTION_PRIORITY",
        process_env !! "DEFAULT_LLM_PROVIDER" with
  | Some p, Some d =>
      Js.truthy p
      && ((0 <? length (priority_names p))%nat
          && forallb supported (priority_names p))
      && (Js.truthy d && supported d)
      && bool_decide (d ∈ map Js.trim (Js.split "," p))
  | _, _ => false
  end.
Proof.
  unfold validateGlobalConfig, validateCrossDependencies.
  cbn [fold_left GLOBAL_VALIDATION_RULES]. unfold validate_global_rule.
  cbn [rule_field rule_required rule_validator andb negb]. cbv beta.
  destruct (process_env !! "PROVIDER_SELECTION_PRIORITY") as [p|];
    destruct (process_env !! "DEFAULT_LLM_PROVIDER") as [d|].
  - destruct (Js.truthy p), (Js.truthy d), (0 <? _)%nat, (forallb _ _),
      (supported d), (bool_decide _); reflexivity.
  - by destruct (Js.truthy p), (0 <? _)%nat, (forallb _ _).
  - by destruct (Js.truthy d), (supported d).
  - done.
Qed.

Lemma validateGlobalConfig_isValid :
  isValid validateGlobalConfig = true ↔ global_config_accepted.
Proof.
  rewrite validateGlobalConfig_isValid_eq. unfold global_config_accepted.
  destruct (process_env !! "PROVIDER_SELECTION_PRIORITY") as [p|];
    [|split; [done|by intros (? & ? & _ & ? & _)]].
  destruct (process_env !! "DEFAULT_LLM_PROVIDER") as [d|];
    [|split; [done|by intros (? & ? & ? & _)]].
  rewrite !andb_true_iff, forallb_supported, bool_decide_eq_true.
  split.
  - intros [[[_ [_ Hall]] [Hd _]] Hin]. exists d, p.
    repeat split; [|done]. apply elem_of_priority_names.
    split; [by destruct d|done].
  - intros (d' & p' & [= <-] & [= <-] & Hin & Hall).
    pose proof Hin as [Hne Hin']%elem_of_priority_names.
    assert (Js.truthy p = true) as ->.
    { destruct p; [|done]. by apply elem_of_nil in Hin. }
    assert (Js.truthy d = true) as -> by (by destruct d).
    unfold supported at 1. rewrite (bool_decide_eq_true_2 _ (Hall d Hin)).
    repeat split; [|done..].
    apply Nat.ltb_lt. destruct (priority_names p); [|cbn; lia].
    by apply elem_of_nil in Hin.
Qed.

Lemma validateGlobalConfig_errors :
  (isValid validateGlobalConfig = true ↔ errors validateGlobalConfig = [])
  ∧ warnings validateGlobalConfig = [].
Proof.
  unfold validateGlobalConfig, validateCrossDependencies.
  cbn [fold_left GLOBAL_VALIDATION_RULES]. unfold validate_global_rule.
  cbn [rule_field rule_required rule_validator andb negb].
  destruct (process_env !! "PROVIDER_SELECTION_PRIORITY") as [p|];
    destruct (process_env !! "DEFAULT_LLM_PROVIDER") as [d|];
    repeat match goal with
    | |- context [if ?b then _ else _] => destruct b
    end; cbn; split; (done || by split).
Qed.

(** A configuration that [validateGlobalConfig] accepts is one the
    provider selection works with: the default provider is read back as
    it is written, the priority list is returned without an error, every
    name in it is supported, and the default provider is one of them. *)
Lemma accepted_config_is_usable :
  global_config_accepted →
  ∃ d l, process_env !! "DEFAULT_LLM_PROVIDER" = Some d
         ∧ returns getDefaultProvider (Ok d)
         ∧ returns getProviderPriority (Ok l)
         ∧ d ∈ l ∧ (∀ n, n ∈ l → n ∈ SUPPORTED_PROVIDERS).
Proof.
  intros (d & p & Ed & Ep & Hd & Hall).
  assert (Js.trim d = d) as Htd by (by eapply priority_names_trimmed).
  assert (d ≠ "") as Hne by (by apply elem_of_priority_names in Hd as [? _]).
  assert (listed_names = priority_names p) as Hl.
  { unfold listed_names. rewrite Ep. unfold Js.trimmed_truthy.
    change (default "" (Some p)) with p.
    destruct (Js.trim p) eqn:Et; [|done].
    rewrite (priority_names_blank _ Et) in Hd. by apply elem_of_nil in Hd. }
  exists d, (priority_names p). split; [done|]. split.
  { rewrite <- Htd. apply returns_getDefaultProvider_named; [done|].
    by rewrite Htd. }
  split; [|done].
  rewrite <- Hl. apply returns_getProviderPriority_listed; rewrite Hl; [|done].
  intros E. rewrite E in Hd. by apply elem_of_nil in Hd.
Qed.

(** X28 — The validation of the global settings is exact and sound.
    [validateGlobalConfig] reports the configuration valid exactly when it
    reports no error, and never a warning; it is valid exactly when
    [DEFAULT_LLM_PROVIDER] and [PROVIDER_SELECTION_PRIORITY] are set, the
    default, as written, is one of the trimmed non-empty names of the list,
    and every such name is supported.  Then [getDefaultProvider] returns the
    default as written, and [getProviderPriority] returns the list, which
    holds the default, without an error.  A default written with white space
    around it is reported invalid. *)
Theorem validateGlobalConfig_sound :
  (isValid validateGlobalConfig = true ↔ errors validateGlobalConfig = [])
  ∧ warnings validateGlobalConfig = []
  ∧ (isValid validateGlobalConfig = true ↔
     ∃ d p, process_env !! "DEFAULT_LLM_PROVIDER" = Some d
            ∧ process_env !! "PROVIDER_SELECTION_PRIORITY" = Some p
            ∧ d ∈ priority_names p
            ∧ (∀ n, n ∈ priority_names p → n ∈ SUPPORTED_PROVIDERS))
  ∧ (isValid validateGlobalConfig = true →
     ∃ d l, process_env !! "DEFAULT_LLM_PROVIDER" = Some d
            ∧ returns getDefaultProvider (Ok d)
            ∧ returns getProviderPriority (Ok l)
            ∧ d ∈ l ∧ (∀ n, n ∈ l → n ∈ SUPPORTED_PROVIDERS))
  ∧ (∀ d, process_env !! "DEFAULT_LLM_PROVIDER" = Some d → Js.trim d ≠ d →
       isValid validateGlobalConfig = false).
Proof.
  split; [apply validateGlobalConfig_errors|].
  split; [apply validateGlobalConfig_errors|].
  split; [apply validateGlobalConfig_isValid|].
  split.
  { intros H. by apply accepted_config_is_usable, validateGlobalConfig_isValid. }
  intros d Ed Hd. apply not_true_is_false.
  intros (d' & p & Ed' & _ & Hin & _)%validateGlobalConfig_isValid.
  rewrite Ed in Ed'. injection Ed' as <-.
  by apply priority_names_trimmed in Hin.
Qed.

(** *** Loading the configuration *)

Section LoadConfig.

(** [providerSupportsFeature] of [src/ai-providers/index.ts]. *)
Variable providerSupportsFeature : string → string → bool.

Record LLMProviderConfig := {
  llm_name : string;
  llm_enabled : bool;
  llm_apiKey : option string;
  llm_baseUrl : option string;
  llm_model : string;
  llm_maxTokens : spec_float;
  llm_temperature : spec_float;
  llm_timeout : spec_float;
  llm_maxCompletionTokens : option spec_float;
  llm_verbosity : option string;
  llm_reasoningEffort : option string
}.

Record MemoryConfig := {
  maxShortTermEntries : spec_float;
  maxPersistentEntries : spec_float;
  compressionThreshold : spec_float;
  relevanceThreshold : spec_float
}.

Record LoggingConfig := {
  logging_enabled : bool;
  logging_level : string;
  logging_path : string
}.

Record AthenaProtocolConfig := {
  providers : list LLMProviderConfig;
  defaultProvider : option string;
  memory : MemoryConfig;
  logging : LoggingConfig
}.

(** [catch (error) { if (error instanceof StandardError) throw error; ... }]:
    every error of this model is a [StandardError]. *)
Definition rethrow {A} (m : M A) : M A := try_catch m (λ error, throw error).

(** [if (word && validValues.includes(word)) provider.field = word] *)
Definition word_among (validValues : list string) (word : option string)
  : option string :=
  match word with
  | Some w => if Js.truthy w && bool_decide (w ∈ validValues) then Some w
              else None
  | None => None
  end.

(** The block of the GPT-5 parameters: an error raised part way leaves
    the fields set before it. *)
Definition load_gpt5_parameters (provider : LLMProviderConfig)
  : M LLMProviderConfig :=
  try_catch
    (maxCompletionTokens ← getMaxCompletionTokens;
     let provider1 :=
       match maxCompletionTokens with
       | Some n =>
           {| llm_name := llm_name provider;
              llm_enabled := llm_enabled provider;
              llm_apiKey := llm_apiKey provider;
              llm_baseUrl := llm_baseUrl provider;
              llm_model := llm_model provider;
              llm_maxTokens := llm_maxTokens provider;
              llm_temperature := llm_temperature provider;
              llm_timeout := llm_timeout provider;
              llm_maxCompletionTokens := Some n;
              llm_verbosity := llm_verbosity provider;
              llm_reasoningEffort := llm_reasoningEffort provider |}
       | None => provider
       end in
     try_catch
       (verbosity ← getVerbosity;
        let provider2 :=
          match word_among ["low"; "medium"; "high"] verbosity with
          | Some w =>
              {| llm_name := llm_name provider1;
                 llm_enabled := llm_enabled provider1;
                 llm_apiKey := llm_apiKey provider1;
                 llm_baseUrl := llm_baseUrl provider1;
                 llm_model := llm_model provider1;
                 llm_maxTokens := llm_maxTokens provider1;
                 llm_temperature := llm_temperature provider1;
                 llm_timeout := llm_timeout provider1;
                 llm_maxCompletionTokens := llm_maxCompletionTokens provider1;
                 llm_verbosity := Some w;
                 llm_reasoningEffort := llm_reasoningEffort provider1 |}
          | None => provider1
          end in
        try_catch
          (reasoningEffort ← getReasoningEffort;
           mret
             match word_among ["minimal"; "low"; "medium"; "high"]
                     reasoningEffort with
             | Some w =>
                 {| llm_name := llm_name provider2;
                    llm_enabled := llm_enabled provider2;
                    llm_apiKey := llm_apiKey provider2;
                    llm_baseUrl := llm_baseUrl provider2;
                    llm_model := llm_model provider2;
                    llm_maxTokens := llm_maxTokens provider2;
                    llm_temperature := llm_temperature provider2;
                    llm_timeout := llm_timeout provider2;
                    llm_maxCompletionTokens :=
                      llm_maxCompletionTokens provider2;
                    llm_verbosity := llm_verbosity provider2;
                    llm_reasoningEffort := Some w |}
             | None => provider2
             end)
          (λ error, mret provider2))
       (λ error, mret provider1))
    (λ error, mret provider).

(** One turn of the loop over [SUPPORTED_PROVIDERS]. *)
Definition load_provider (providers : list LLMProviderConfig)
    (providerName : string) : M (list LLMProviderConfig) :=
  let envKey := Js.toUpperCase providerName +:+ "_API_KEY" in
  match process_env !! envKey with
  | Some apiKey =>
      if Js.truthy apiKey && validateApiKey providerName apiKey then
        model ← rethrow (getModel providerName);
        '(temperature, maxTokens, timeout) ←
          rethrow (temperature ← getTemperature providerName;
                   maxTokens ← getMaxTokens providerName;
                   timeout ← getTimeout providerName;
                   mret (temperature, maxTokens, timeout));
        let provider :=
          {| llm_name := providerName;
             llm_enabled := true;
             llm_apiKey := Some apiKey;
             llm_baseUrl := None;
             llm_model := model;
             llm_maxTokens := maxTokens;
             llm_temperature := temperature;
             llm_timeout := timeout;
             llm_maxCompletionTokens := None;
             llm_verbosity := None;
             llm_reasoningEffort := None |} in
        provider ←
          (if providerSupportsFeature providerName "GPT5_REASONING"
           then load_gpt5_parameters provider else mret provider);
        mret (providers ++ [provider])%list
      else mret providers
  | None => mret providers
  end.

Fixpoint load_providers (providers : list LLMProviderConfig)
    (names : list string) : M (list LLMProviderConfig) :=
  match names with
  | [] => mret providers
  | providerName :: rest =>
      providers' ← load_provider providers providerName;
      load_providers providers' rest
  end.

(** A count of the memory settings: [parseInt] of the variable when
    that is a positive number, else 0. *)
Definition memory_count (v : option string) : spec_float :=
  match v with
  | Some s =>
      if Js.truthy s then
        let n := JsNumber.parseInt s in
        if negb (JsNumber.isNaN n) && JsNumber.gt n JsNumber.zero then n
        else JsNumber.zero
      else JsNumber.zero
  | None => JsNumber.zero
  end.

(** A threshold of the memory settings: [parseFloat] of the variable
    when that is within [0, 1], else 0. *)
Definition memory_threshold (v : option string) : spec_float :=
  match v with
  | Some s =>
      if Js.truthy s then
        let x := JsNumber.parseFloat s in
        if negb (JsNumber.isNaN x) && JsNumber.ge x JsNumber.zero
           && JsNumber.le x JsNumber.one
        then x else JsNumber.zero
      else JsNumber.zero
  | None => JsNumber.zero
  end.

Definition NO_PROVIDERS_CONFIGURED : StandardError :=
  {| message := "No LLM providers configured";
     category := CONFIGURATION;
     code := "NO_PROVIDERS_CONFIGURED";
     provider := None |}.

Definition DEFAULT_PROVIDER_NOT_CONFIGURED (defaultProvider : string)
  : StandardError :=
  {| message := "Default provider " +:+ defaultProvider
                +:+ " is not configured";
     category := CONFIGURATION;
     code := "DEFAULT_PROVIDER_NOT_CONFIGURED";
     provider := Some defaultProvider |}.

Definition loadConfig : M AthenaProtocolConfig :=
  providers ← load_providers [] SUPPORTED_PROVIDERS;
  if (length providers =? 0)%nat then throw NO_PROVIDERS_CONFIGURED
  else
    defaultProvider ← rethrow getDefaultProvider;
    match find (λ p, String.eqb (llm_name p) defaultProvider) providers with
    | None => throw (DEFAULT_PROVIDER_NOT_CONFIGURED defaultProvider)
    | Some _ =>
        mret
          {| providers := providers;
             defaultProvider := Some defaultProvider;
             memory :=
               {| maxShortTermEntries :=
                    memory_count
                      (process_env !! "MEMORY_MAX_SHORT_TERM_ENTRIES");
                  maxPersistentEntries :=
                    memory_count
                      (process_env !! "MEMORY_MAX_PERSISTENT_ENTRIES");
                  compressionThreshold :=
                    memory_threshold
                      (process_env !! "MEMORY_COMPRESSION_THRESHOLD");
                  relevanceThreshold :=
                    memory_threshold
                      (process_env !! "MEMORY_RELEVANCE_THRESHOLD") |};
             logging :=
               {| logging_enabled :=
                    match process_env !! "LOG_ENABLED" with
                    | Some s => String.eqb (Js.toLowerCase s) "true"
                    | None => false
                    end;
                  logging_level :=
                    match process_env !! "LOG_LEVEL" with
                    | Some l =>
                        if Js.truthy l
                           && bool_decide
                                (l ∈ ["debug"; "info"; "warn"; "error"])
                        then l else "info"
                    | None => "info"
                    end;
                  logging_path :=
                    match process_env !! "LOG_PATH" with
                    | Some p => if Js.truthy p then p else ""
                    | None => ""
                    end |} |}
    end.

(** **** What [loadConfig] returns *)

Lemma returns_rethrow {A} (m : M A) r : returns m r → returns (rethrow m) r.
Proof.
  intros H. destruct r as [a|e].
  - by apply returns_try_ok.
  - eapply returns_try_throw; [exact H|apply returns_throw].
Qed.

(** What [getMaxCompletionTokens], [getVerbosity] and
    [getReasoningEffort] return. *)
Definition maxCompletionTokens_value : option spec_float :=
  match positive_tier (process_env !! "OPENAI_MAX_COMPLETION_TOKENS") with
  | Some n => Some n
  | None =>
      positive_tier (process_env !! "OPENAI_MAX_COMPLETION_TOKENS_DEFAULT")
  end.

Definition word_value (validValues : list string) (key : string)
  : option string :=
  match text_tier (process_env !! key) with
  | Some _ => valid_or_null validValues (default "" (process_env !! key))
  | None =>
      match text_tier (process_env !! (key +:+ "_DEFAULT")) with
      | Some _ =>
          valid_or_null validValues
            (default "" (process_env !! (key +:+ "_DEFAULT")))
      | None => None
      end
  end.

Lemma returns_getMaxCompletionTokens :
  returns getMaxCompletionTokens (Ok maxCompletionTokens_value).
Proof.
  unfold getMaxCompletionTokens, maxCompletionTokens_value.
  eapply returns_bind; [apply returns_resolveEnvVariableCached|].
  destruct (positive_tier (process_env !! "OPENAI_MAX_COMPLETION_TOKENS"));
    [apply returns_ret|].
  eapply returns_bind; [apply returns_resolveEnvVariableCached|].
  destruct (positive_tier _); apply returns_ret.
Qed.

Lemma word_value_valid validValues key w :
  word_value validValues key = Some w → w ∈ validValues.
Proof.
  unfold word_value. destruct (text_tier (process_env !! key)).
  - by intros [? _]%valid_or_null_Some.
  - destruct (text_tier _); [|done]. by intros [? _]%valid_or_null_Some.
Qed.

Lemma word_among_word_value validValues key :
  "" ∉ validValues →
  word_among validValues (word_value validValues key)
  = word_value validValues key.
Proof.
  intros Hne. destruct (word_value validValues key) as [w|] eqn:E; [|done].
  apply word_value_valid in E. cbn.
  rewrite (bool_decide_eq_true_2 _ E).
  destruct w; [done|reflexivity].
Qed.

(** The settings a provider entry carries whatever the GPT-5 block
    does. *)
Definition same_required (p p' : LLMProviderConfig) : Prop :=
  llm_name p' = llm_name p ∧ llm_enabled p' = llm_enabled p
  ∧ llm_apiKey p' = llm_apiKey p ∧ llm_baseUrl p' = llm_baseUrl p
  ∧ llm_model p' = llm_model p ∧ llm_maxTokens p' = llm_maxTokens p
  ∧ llm_temperature p' = llm_temperature p
  ∧ llm_timeout p' = llm_timeout p.

Lemma returns_load_gpt5_parameters (provider : LLMProviderConfig) :
  llm_maxCompletionTokens provider = None →
  llm_verbosity provider = None →
  llm_reasoningEffort provider = None →
  ∃ p', returns (load_gpt5_parameters provider) (Ok p')
        ∧ same_required provider p'
        ∧ llm_maxCompletionTokens p' = maxCompletionTokens_value
        ∧ llm_verbosity p'
          = word_value ["low"; "medium"; "high"] "OPENAI_VERBOSITY"
        ∧ llm_reasoningEffort p'
          = word_value ["minimal"; "low"; "medium"; "high"]
              "OPENAI_REASONING_EFFORT".
Proof.
  intros H1 H2 H3.
  pose proof returns_getMaxCompletionTokens as Hc.
  pose proof returns_getVerbosity as Hv.
  pose proof returns_getReasoningEffort as Hr.
  change (returns getVerbosity
            (Ok (word_value ["low"; "medium"; "high"] "OPENAI_VERBOSITY")))
    in Hv.
  change (returns getReasoningEffort
            (Ok (word_value ["minimal"; "low"; "medium"; "high"]
                   "OPENAI_REASONING_EFFORT"))) in Hr.
  eexists. split.
  { apply returns_try_ok. eapply returns_bind; [exact Hc|].
    apply returns_try_ok. eapply returns_bind; [exact Hv|].
    apply returns_try_ok. eapply returns_bind; [exact Hr|].
    apply returns_ret. }
  rewrite !word_among_word_value by set_solver.
  unfold same_required.
  destruct maxCompletionTokens_value, (word_value _ "OPENAI_VERBOSITY"),
    (word_value _ "OPENAI_REASONING_EFFORT"); cbn; by repeat split.
Qed.

(** The condition under which the loop of [loadConfig] takes a
    provider: [NAME_API_KEY] is set to a key that [validateApiKey]
    accepts. *)
Definition has_valid_key (providerName : string) : bool :=
  match process_env !! (Js.toUpperCase providerName +:+ "_API_KEY") with
  | Some apiKey => Js.truthy apiKey && validateApiKey providerName apiKey
  | None => false
  end.

(** The entry of a provider agrees with the getters. *)
Definition loaded_as (providerName : string) (entry : LLMProviderConfig)
  : Prop :=
  llm_name entry = providerName
  ∧ llm_enabled entry = true
  ∧ llm_apiKey entry
    = process_env !! (Js.toUpperCase providerName +:+ "_API_KEY")
  ∧ llm_baseUrl entry = None
  ∧ returns (getModel providerName) (Ok (llm_model entry))
  ∧ returns (getTemperature providerName) (Ok (llm_temperature entry))
  ∧ returns (getMaxTokens providerName) (Ok (llm_maxTokens entry))
  ∧ returns (getTimeout providerName) (Ok (llm_timeout entry))
  ∧ if providerSupportsFeature providerName "GPT5_REASONING" then
      returns getMaxCompletionTokens (Ok (llm_maxCompletionTokens entry))
      ∧ returns getVerbosity (Ok (llm_verbosity entry))
      ∧ returns getReasoningEffort (Ok (llm_reasoningEffort entry))
    else
      llm_maxCompletionTokens entry = None ∧ llm_verbosity entry = None
      ∧ llm_reasoningEffort entry = None.

(** A required setting of the provider is missing, with error [e]. *)
Definition setting_missing (providerName : string) (e : StandardError)
  : Prop :=
  returns (getModel providerName) (Throw e)
  ∨ returns (getTemperature providerName) (Throw e)
  ∨ returns (getMaxTokens providerName) (Throw e)
  ∨ returns (getTimeout providerName) (Throw e).

Lemma returns_load_provider_skip providers providerName :
  has_valid_key providerName = false →
  returns (load_provider providers providerName) (Ok providers).
Proof.
  unfold has_valid_key, load_provider. intros H.
  destruct (process_env !! _) as [apiKey|]; [|apply returns_ret].
  rewrite H. apply returns_ret.
Qed.

Lemma returns_load_provider providers providerName :
  has_valid_key providerName = true →
  ∃ r, returns (load_provider providers providerName) r
       ∧ match r with
         | Ok l => ∃ entry, l = (providers ++ [entry])%list
                            ∧ loaded_as providerName entry
         | Throw e => category e = CONFIGURATION
                      ∧ setting_missing providerName e
         end.
Proof.
  unfold has_valid_key, load_provider, loaded_as, setting_missing.
  intros H.
  destruct (process_env !! _) as [apiKey|] eqn:Ek; [|done]. rewrite H.
  pose proof (returns_getModel providerName) as Hm.
  pose proof (returns_getTemperature providerName) as Ht.
  pose proof (returns_getMaxTokens providerName) as Hx.
  pose proof (returns_getTimeout providerName) as Ho.
  destruct (first_accepted text_tier (model_keys providerName)) as [m|];
    cbn [result_of] in Hm.
  2:{ eexists (Throw _). split.
      - by apply returns_bind_throw, returns_rethrow.
      - split; [done|by left]. }
  destruct (first_accepted temperature_tier (temperature_keys providerName))
    as [t|]; cbn [result_of] in Ht.
  2:{ eexists (Throw _). split.
      - eapply returns_bind; [by apply returns_rethrow|].
        by apply returns_bind_throw, returns_rethrow, returns_bind_throw.
      - split; [done|by right; left]. }
  destruct (first_accepted positive_tier (max_tokens_keys providerName))
    as [x|]; cbn [result_of] in Hx.
  2:{ eexists (Throw _). split.
      - eapply returns_bind; [by apply returns_rethrow|].
        apply returns_bind_throw, returns_rethrow.
        eapply returns_bind; [exact Ht|]. by apply returns_bind_throw.
      - split; [done|by right; right; left]. }
  destruct (first_accepted positive_tier (timeout_keys providerName))
    as [o|]; cbn [result_of] in Ho.
  2:{ eexists (Throw _). split.
      - eapply returns_bind; [by apply returns_rethrow|].
        apply returns_bind_throw, returns_rethrow.
        eapply returns_bind; [exact Ht|].
        eapply returns_bind; [exact Hx|]. by apply returns_bind_throw.
      - split; [done|by right; right; right]. }
  assert (returns
    (rethrow (temperature ← getTemperature providerName;
              maxTokens ← getMaxTokens providerName;
              timeout ← getTimeout providerName;
              mret (temperature, maxTokens, timeout)))
    (Ok (t, x, o))) as Hall.
  { apply returns_rethrow.
    eapply returns_bind; [exact Ht|].
    eapply returns_bind; [exact Hx|].
    eapply returns_bind; [exact Ho|]. apply returns_ret. }
  destruct (providerSupportsFeature providerName "GPT5_REASONING").
  - edestruct (returns_load_gpt5_parameters
                 {| llm_name := providerName; llm_enabled := true;
                    llm_apiKey := Some apiKey; llm_baseUrl := None;
                    llm_model := m; llm_maxTokens := x;
                    llm_temperature := t; llm_timeout := o;
                    llm_maxCompletionTokens := None; llm_verbosity := None;
                    llm_reasoningEffort := None |})
      as (p' & Hp' & (E1 & E2 & E3 & E4 & E5 & E6 & E7 & E8) & G1 & G2 & G3);
      [done..|].
    cbn in E1, E2, E3, E4, E5, E6, E7, E8.
    exists (Ok (providers ++ [p'])%list). split.
    + eapply returns_bind; [by apply returns_rethrow|].
      eapply returns_bind; [exact Hall|]. cbv iota beta.
      eapply returns_bind; [exact Hp'|]. apply returns_ret.
    + exists p'. split; [done|].
      rewrite E1, E2, E3, E4, E5, E6, E7, E8, G1, G2, G3.
      repeat split; try done.
      * apply returns_getMaxCompletionTokens.
      * apply returns_getVerbosity.
      * apply returns_getReasoningEffort.
  - eexists (Ok _). split.
    + eapply returns_bind; [by apply returns_rethrow|].
      eapply returns_bind; [exact Hall|]. cbv iota beta.
      eapply returns_bind; apply returns_ret.
    + eexists. split; [reflexivity|]. cbn. by repeat split.
Qed.

Lemma returns_load_providers names providers :
  ∃ r, returns (load_providers providers names) r
       ∧ match r with
         | Ok l =>
             ∃ new, l = (providers ++ new)%list
                    ∧ Forall2 loaded_as
                        (filter (λ p, has_valid_key p = true) names) new
         | Throw e =>
             category e = CONFIGURATION
             ∧ ∃ p, p ∈ filter (λ p, has_valid_key p = true) names
                    ∧ setting_missing p e
         end.
Proof.
  revert providers. induction names as [|n rest IH]; intros providers.
  { exists (Ok providers). split; [apply returns_ret|].
    exists []. split; [by rewrite app_nil_r|constructor]. }
  cbn [load_providers]. destruct (has_valid_key n) eqn:Ekey.
  - rewrite filter_cons_True by done.
    destruct (returns_load_provider providers n Ekey) as ([l|e] & Hr & Hl).
    + destruct Hl as (entry & -> & Hentry).
      destruct (IH (providers ++ [entry])%list) as ([l|e] & Hr' & Hl').
      * exists (Ok l). split; [by eapply returns_bind|].
        destruct Hl' as (new & -> & Hnew). exists (entry :: new).
        split; [by rewrite <- app_assoc|by constructor].
      * exists (Throw e). split; [by eapply returns_bind|].
        destruct Hl' as (Hc & p & Hp & Hmiss). split; [done|].
        exists p. split; [by right|done].
    + exists (Throw e). split; [by apply returns_bind_throw|].
      destruct Hl as [Hc Hmiss]. split; [done|].
      exists n. split; [by left|done].
  - rewrite filter_cons_False by congruence.
    destruct (IH providers) as (r & Hr & Hl). exists r. split; [|done].
    eapply returns_bind; [by apply returns_load_provider_skip|done].
Qed.

Lemma gt_zero_ge_zero (x : spec_float) :
  JsNumber.gt x JsNumber.zero = true → JsNumber.ge x JsNumber.zero = true.
Proof. by destruct x as [[]|[]| |[] m e]. Qed.

Lemma memory_count_range (v : option string) :
  JsNumber.isNaN (memory_count v) = false
  ∧ JsNumber.ge (memory_count v) JsNumber.zero = true.
Proof.
  unfold memory_count. destruct v as [s|]; [|done].
  destruct (Js.truthy s); [|done].
  destruct (JsNumber.isNaN (JsNumber.parseInt s)) eqn:E1; [done|].
  destruct (JsNumber.gt (JsNumber.parseInt s) JsNumber.zero) eqn:E2; [|done].
  cbn [negb andb]. split; [done|by apply gt_zero_ge_zero].
Qed.

Lemma memory_threshold_range (v : option string) :
  JsNumber.isNaN (memory_threshold v) = false
  ∧ JsNumber.ge (memory_threshold v) JsNumber.zero = true
  ∧ JsNumber.le (memory_threshold v) JsNumber.one = true.
Proof.
  unfold memory_threshold. destruct v as [s|]; [|done].
  destruct (Js.truthy s); [|done].
  destruct (JsNumber.isNaN (JsNumber.parseFloat s)) eqn:E1; [done|].
  destruct (JsNumber.ge (JsNumber.parseFloat s) JsNumber.zero) eqn:E2;
    [|done].
  by destruct (JsNumber.le (JsNumber.parseFloat s) JsNumber.one) eqn:E3.
Qed.

Lemma find_llm_name (d : string) (names : list string)
    (entries : list LLMProviderConfig) :
  Forall2 loaded_as names entries →
  match find (λ p, String.eqb (llm_name p) d) entries with
  | Some _ => d ∈ names
  | None => d ∉ names
  end.
Proof.
  induction 1 as [|n entry names entries Hn _ IH]; cbn.
  { apply not_elem_of_nil. }
  destruct Hn as [Hn _]. rewrite Hn.
  destruct (String.eqb_spec n d) as [->|Hne]; [by left|].
  destruct (find _ entries).
  - by right.
  - apply not_elem_of_cons. split; [congruence|done].
Qed.

(** X29 — What [loadConfig] gives.  The providers taken are the supported
    ones whose [NAME_API_KEY] variable holds a key that [validateApiKey]
    accepts, in the order of [SUPPORTED_PROVIDERS].  When it returns: there
    is an entry for each of them, in that order, enabled, with the key as
    the variable holds it and the model, temperature, token limit and
    timeout that the getters return (and the GPT-5 parameters for the
    providers that support them); there is at least one entry; the default
    provider is what [getDefaultProvider] returns and is one of the entries;
    the memory counts are numbers not below 0, the memory thresholds are
    within [0, 1], and the log level is one of the four levels.  When it
    throws, the error is a CONFIGURATION error: a required setting of a
    provider taken is missing, or no provider is taken, or no default
    provider is named, or the default provider is not one of those taken. *)
Theorem loadConfig_result :
  let taken := filter (λ p, has_valid_key p = true) SUPPORTED_PROVIDERS in
  ∃ r, returns loadConfig r
    ∧ match r with
      | Ok config =>
          Forall2 loaded_as taken (providers config)
          ∧ providers config ≠ []
          ∧ (∃ d, defaultProvider config = Some d ∧ d ∈ taken
                  ∧ returns getDefaultProvider (Ok d))
          ∧ Forall (λ n, JsNumber.isNaN n = false
                         ∧ JsNumber.ge n JsNumber.zero = true)
              [maxShortTermEntries (memory config);
               maxPersistentEntries (memory config)]
          ∧ Forall (λ x, JsNumber.isNaN x = false
                         ∧ JsNumber.ge x JsNumber.zero = true
                         ∧ JsNumber.le x JsNumber.one = true)
              [compressionThreshold (memory config);
               relevanceThreshold (memory config)]
          ∧ logging_level (logging config)
            ∈ ["debug"; "info"; "warn"; "error"]
      | Throw e =>
          category e = CONFIGURATION
          ∧ ((∃ p, p ∈ taken ∧ setting_missing p e)
             ∨ (taken = [] ∧ e = NO_PROVIDERS_CONFIGURED)
             ∨ (taken ≠ [] ∧ returns getDefaultProvider (Throw e))
             ∨ (∃ d, returns getDefaultProvider (Ok d) ∧ (d ∉ taken)
                     ∧ e = DEFAULT_PROVIDER_NOT_CONFIGURED d))
      end.
Proof.
  cbv zeta. unfold loadConfig.
  destruct (returns_load_providers SUPPORTED_PROVIDERS [])
    as ([l|e] & Hr & Hl).
  2:{ exists (Throw e). split; [by apply returns_bind_throw|].
      destruct Hl as [Hc Hl]. split; [done|by left]. }
  destruct Hl as (new & -> & Hnew). rewrite app_nil_l in Hr.
  destruct new as [|entry new].
  { exists (Throw NO_PROVIDERS_CONFIGURED). split.
    - eapply returns_bind; [exact Hr|apply returns_throw].
    - split; [done|]. right; left. split; [|done].
      by apply Forall2_nil_inv_r in Hnew. }
  pose proof returns_getDefaultProvider as Hd.
  destruct (Js.trimmed_truthy (process_env !! "DEFAULT_LLM_PROVIDER")).
  2:{ exists (Throw DEFAULT_PROVIDER_NOT_SET). split.
      - eapply returns_bind; [exact Hr|]. cbn [length Nat.eqb].
        by apply returns_bind_throw, returns_rethrow.
      - split; [done|]. right; right; left. split; [|done].
        intros E. rewrite E in Hnew. by apply Forall2_nil_inv_l in Hnew. }
  set (d := Js.trim (default "" (process_env !! "DEFAULT_LLM_PROVIDER")))
    in *.
  pose proof (find_llm_name d _ _ Hnew) as Hfind.
  destruct (find (λ p, String.eqb (llm_name p) d) (entry :: new)) eqn:Ef.
  - eexists (Ok _). split.
    + eapply returns_bind; [exact Hr|]. cbn [length Nat.eqb].
      eapply returns_bind; [by apply returns_rethrow|].
      rewrite Ef. apply returns_ret.
    + cbn [providers defaultProvider memory logging maxShortTermEntries
           maxPersistentEntries compressionThreshold relevanceThreshold
           logging_level].
      split; [done|]. split; [done|]. split; [by exists d|].
      split; [repeat constructor; apply memory_count_range|].
      split; [repeat constructor; apply memory_threshold_range|].
      destruct (process_env !! "LOG_LEVEL") as [lv|]; [|set_solver].
      destruct (Js.truthy lv); [|set_solver].
      destruct (bool_decide_reflect (lv ∈ ["debug"; "info"; "warn"; "error"]));
        [done|set_solver].
  - exists (Throw (DEFAULT_PROVIDER_NOT_CONFIGURED d)). split.
    + eapply returns_bind; [exact Hr|]. cbn [length Nat.eqb].
      eapply returns_bind; [by apply returns_rethrow|].
      rewrite Ef. apply returns_throw.
    + split; [done|]. right; right; right. by exists d.
Qed.

(** *** The unified configuration

    The manager of the provider configurations, its singleton, and
    [getProviderConfigWithOverrides].  What the methods write to the
    console is left out. *)

Record ProviderConfiguration := {
  pc_name : string;
  pc_apiKey : option string;
  pc_model : string;
  pc_temperature : spec_float;
  pc_maxTokens : spec_float;
  pc_timeout : spec_float;
  pc_hasApiKey : bool;
  pc_hasModel : bool;
  pc_baseUrl : option string;
  pc_maxCompletionTokens : option spec_float;
  pc_verbosity : option string;
  pc_reasoningEffort : option string
}.

(** The fields of [UnifiedConfigManager]. *)
Record UnifiedConfigManager := {
  providerConfigs : gmap string ProviderConfiguration;
  initialized : bool
}.

(** The module state with the singleton [unifiedConfigManager]. *)
Record State := {
  unifiedConfigManager : UnifiedConfigManager;
  world : World
}.

Definition U (A : Type) : Type := State → Result A * State.

#[local] Instance U_ret : MRet U := λ A a s, (Ok a, s).

#[local] Instance U_bind : MBind U := λ A B k m s,
  match m s with
  | (Ok a, s') => k a s'
  | (Throw e, s') => (Throw e, s')
  end.

Definition throw_U {A} (e : StandardError) : U A := λ s, (Throw e, s).

Definition try_catch_U {A} (m : U A) (h : StandardError → U A) : U A := λ s,
  match m s with
  | (Ok a, s') => (Ok a, s')
  | (Throw e, s') => h e s'
  end.

(** A function of this module called from a method of the manager. *)
Definition lift {A} (m : M A) : U A := λ s,
  let '(r, w) := m (world s) in
  (r, {| unifiedConfigManager := unifiedConfigManager s; world := w |}).

Definition on_manager {A}
    (f : UnifiedConfigManager → A * UnifiedConfigManager) : U A := λ s,
  let '(a, u) := f (unifiedConfigManager s) in
  (Ok a, {| unifiedConfigManager := u; world := world s |}).

Fixpoint for_each_U {A} (f : A → U unit) (l : list A) : U unit :=
  match l with
  | [] => mret tt
  | x :: rest => _ ← f x; for_each_U f rest
  end.

(** [!!v] for [v : string | null] *)
Definition not_not (v : option string) : bool :=
  match v with
  | Some s => Js.truthy s
  | None => false
  end.

(** The number written [0.7]. *)
Definition number_0_7 : spec_float := JsNumber.of_decimal false 7 (-1).

(** The configuration given to a provider without a key, or whose
    configuration cannot be loaded. *)
Definition minimal_configuration (providerName : string)
    (apiKey : option string) (hasApiKey : bool) : ProviderConfiguration :=
  {| pc_name := providerName;
     pc_apiKey := apiKey;
     pc_model := "";
     pc_temperature := number_0_7;
     pc_maxTokens := JsNumber.of_Z 2000;
     pc_timeout := JsNumber.of_Z 30000;
     pc_hasApiKey := hasApiKey;
     pc_hasModel := false;
     pc_baseUrl := None;
     pc_maxCompletionTokens := None;
     pc_verbosity := None;
     pc_reasoningEffort := None |}.

Definition with_maxCompletionTokens (c : ProviderConfiguration)
    (n : spec_float) : ProviderConfiguration :=
  {| pc_name := pc_name c; pc_apiKey := pc_apiKey c; pc_model := pc_model c;
     pc_temperature := pc_temperature c; pc_maxTokens := pc_maxTokens c;
     pc_timeout := pc_timeout c; pc_hasApiKey := pc_hasApiKey c;
     pc_hasModel := pc_hasModel c; pc_baseUrl := pc_baseUrl c;
     pc_maxCompletionTokens := Some n;
     pc_verbosity := pc_verbosity c;
     pc_reasoningEffort := pc_reasoningEffort c |}.

Definition with_verbosity (c : ProviderConfiguration) (w : string)
  : ProviderConfiguration :=
  {| pc_name := pc_name c; pc_apiKey := pc_apiKey c; pc_model := pc_model c;
     pc_temperature := pc_temperature c; pc_maxTokens := pc_maxTokens c;
     pc_timeout := pc_timeout c; pc_hasApiKey := pc_hasApiKey c;
     pc_hasModel := pc_hasModel c; pc_baseUrl := pc_baseUrl c;
     pc_maxCompletionTokens := pc_maxCompletionTokens c;
     pc_verbosity := Some w;
     pc_reasoningEffort := pc_reasoningEffort c |}.

Definition with_reasoningEffort (c : ProviderConfiguration) (w : string)
  : ProviderConfiguration :=
  {| pc_name := pc_name c; pc_apiKey := pc_apiKey c; pc_model := pc_model c;
     pc_temperature := pc_temperature c; pc_maxTokens := pc_maxTokens c;
     pc_timeout := pc_timeout c; pc_hasApiKey := pc_hasApiKey c;
     pc_hasModel := pc_hasModel c; pc_baseUrl := pc_baseUrl c;
     pc_maxCompletionTokens := pc_maxCompletionTokens c;
     pc_verbosity := pc_verbosity c;
     pc_reasoningEffort := Some w |}.

Definition loadProviderConfiguration (providerName : string)
  : M ProviderConfiguration :=
  apiKey ← getApiKey providerName;
  let hasApiKey := not_not apiKey in
  if negb hasApiKey then mret (minimal_configuration providerName None false)
  else
    model ← getModel providerName;
    temperature ← getTemperature providerName;
    maxTokens ← getMaxTokens providerName;
    timeout ← getTimeout providerName;
    baseUrl ← getBaseUrl providerName;
    let config :=
      {| pc_name := providerName;
         pc_apiKey := apiKey;
         pc_model := model;
         pc_temperature := temperature;
         pc_maxTokens := maxTokens;
         pc_timeout := timeout;
         pc_hasApiKey := true;
         pc_hasModel := true;
         pc_baseUrl := baseUrl;
         pc_maxCompletionTokens := None;
         pc_verbosity := None;
         pc_reasoningEffort := None |} in
    let supportsGPT5 := providerSupportsFeature providerName "GPT5_REASONING" in
    if supportsGPT5 then
      try_catch
        (maxCompletionTokens ← getMaxCompletionTokens;
         let config1 :=
           match maxCompletionTokens with
           | Some n => with_maxCompletionTokens config n
           | None => config
           end in
         try_catch
           (verbosity ← getVerbosity;
            let config2 :=
              match word_among ["low"; "medium"; "high"] verbosity with
              | Some w => with_verbosity config1 w
              | None => config1
              end in
            try_catch
              (reasoningEffort ← getReasoningEffort;
               mret
                 match word_among ["minimal"; "low"; "medium"; "high"]
                         reasoningEffort with
                 | Some w => with_reasoningEffort config2 w
                 | None => config2
                 end)
              (λ error, mret config2))
           (λ error, mret config1))
        (λ error, mret config)
    else mret config.

(** [isEnabled()]: the feature flag [CONFIG_UNIFIED]. *)
Definition isEnabled : bool :=
  bool_decide (process_env !! "CONFIG_UNIFIED" = Some "1")
  || bool_decide (process_env !! "CONFIG_UNIFIED" = Some "true").

(** [this.providerConfigs.set(providerName, Object.freeze(config))] *)
Definition set_config (providerName : string) (config : ProviderConfiguration)
  : U unit :=
  on_manager (λ u,
    (tt, {| providerConfigs := <[providerName := config]> (providerConfigs u);
            initialized := initialized u |})).

(** One turn of the loop of [initialize]. *)
Definition initialize_provider (providerName : string) : U unit :=
  try_catch_U
    (config ← lift (loadProviderConfiguration providerName);
     set_config providerName config)
    (λ error,
       if bool_decide (process_env !! "CONFIG_STRICT" = Some "1")
       then throw_U error
       else
         apiKey ← lift (getApiKey providerName);
         apiKey' ← lift (getApiKey providerName);
         set_config providerName
           (minimal_configuration providerName apiKey (not_not apiKey'))).

Definition initialize : U unit :=
  done ← on_manager (λ u, (initialized u, u));
  if done : bool then mret tt
  else
    _ ← on_manager (λ u,
          (tt, {| providerConfigs := ∅; initialized := initialized u |}));
    _ ← for_each_U initialize_provider SUPPORTED_PROVIDERS;
    on_manager (λ u,
      (tt, {| providerConfigs := providerConfigs u; initialized := true |})).

Definition getProviderConfiguration (providerName : string)
  : U (option ProviderConfiguration) :=
  if negb isEnabled then mret None
  else
    _ ← initialize;
    on_manager (λ u, (providerConfigs u !! providerName, u)).

Definition getUnifiedProviderConfig (providerName : string)
  : U (option ProviderConfiguration) :=
  unifiedConfig ← getProviderConfiguration providerName;
  match unifiedConfig with
  | Some config => mret (Some config)
  | None =>
      lift
        (try_catch
           (apiKey ← getApiKey providerName;
            let hasApiKey := not_not apiKey in
            if negb hasApiKey then mret None
            else
              model ← getModel providerName;
              temperature ← getTemperature providerName;
              maxTokens ← getMaxTokens providerName;
              timeout ← getTimeout providerName;
              baseUrl ← getBaseUrl providerName;
              mret (Some {| pc_name := providerName;
                            pc_apiKey := apiKey;
                            pc_model := model;
                            pc_temperature := temperature;
                            pc_maxTokens := maxTokens;
                            pc_timeout := timeout;
                            pc_hasApiKey := true;
                            pc_hasModel := true;
                            pc_baseUrl := baseUrl;
                            pc_maxCompletionTokens := None;
                            pc_verbosity := None;
                            pc_reasoningEffort := None |}))
           (λ error, mret None))
  end.

(** The [params] of [getProviderConfigWithOverrides]. *)
Record Overrides := {
  override_temperature : option spec_float;
  override_maxTokens : option spec_float;
  modelOverride : option string
}.

(** What [getProviderConfigWithOverrides] returns. *)
Record ProviderCallConfig := {
  call_providerName : string;
  call_apiKey : option string;
  call_model : string;
  call_temperature : spec_float;
  call_maxTokens : spec_float;
  call_timeout : spec_float;
  call_baseUrl : option string;
  call_maxCompletionTokens : option spec_float;
  call_verbosity : option string;
  call_reasoningEffort : option string
}.

Definition getProviderConfigWithOverrides (providerName : string)
    (params : Overrides) : U ProviderCallConfig :=
  unifiedConfig ← getUnifiedProviderConfig providerName;
  match unifiedConfig with
  | Some unifiedConfig =>
      mret
        {| call_providerName := pc_name unifiedConfig;
           call_apiKey := pc_apiKey unifiedConfig;
           call_model :=
             if not_not (modelOverride params)
             then default "" (modelOverride params)
             else pc_model unifiedConfig;
           call_temperature :=
             default (pc_temperature unifiedConfig)
               (override_temperature params);
           call_maxTokens :=
             default (pc_maxTokens unifiedConfig) (override_maxTokens params);
           call_timeout := pc_timeout unifiedConfig;
           call_baseUrl := pc_baseUrl unifiedConfig;
           call_maxCompletionTokens := pc_maxCompletionTokens unifiedConfig;
           call_verbosity := pc_verbosity unifiedConfig;
           call_reasoningEffort := pc_reasoningEffort unifiedConfig |}
  | None =>
      lift
        (apiKey ← getApiKey providerName;
         model ← (if not_not (modelOverride params)
                  then mret (default "" (modelOverride params))
                  else getModel providerName);
         temperature ← match override_temperature params with
                       | Some t => mret t
                       | None => getTemperature providerName
                       end;
         maxTokens ← match override_maxTokens params with
                     | Some n => mret n
                     | None => getMaxTokens providerName
                     end;
         timeout ← getTimeout providerName;
         baseUrl ← getBaseUrl providerName;
         mret {| call_providerName := providerName;
                 call_apiKey := apiKey;
                 call_model := model;
                 call_temperature := temperature;
                 call_maxTokens := maxTokens;
                 call_timeout := timeout;
                 call_baseUrl := baseUrl;
                 call_maxCompletionTokens := None;
                 call_verbosity := None;
                 call_reasoningEffort := None |})
  end.

(** **** What the unified configuration returns *)

(** From manager state [u] and every coherent cache, [m] returns [r]
    and leaves the manager in state [u']. *)
Definition returns_U {A} (m : U A) (u : UnifiedConfigManager)
    (r : Result A) (u' : UnifiedConfigManager) : Prop :=
  ∀ w, coherent w →
    ∃ w', m {| unifiedConfigManager := u; world := w |}
          = (r, {| unifiedConfigManager := u'; world := w' |})
          ∧ coherent w'.

Lemma returns_U_ret {A} (a : A) u : returns_U (mret a) u (Ok a) u.
Proof. intros w Hw. by exists w. Qed.

Lemma returns_U_throw {A} e u : returns_U (@throw_U A e) u (Throw e) u.
Proof. intros w Hw. by exists w. Qed.

Lemma returns_U_bind {A B} (m : U A) (k : A → U B) u a u1 r u2 :
  returns_U m u (Ok a) u1 → returns_U (k a) u1 r u2 →
  returns_U (m ≫= k) u r u2.
Proof.
  intros Hm Hk w Hw. destruct (Hm w Hw) as (w1 & E1 & Hw1).
  destruct (Hk w1 Hw1) as (w2 & E2 & Hw2). exists w2.
  unfold mbind, U_bind. by rewrite E1.
Qed.

Lemma returns_U_bind_throw {A B} (m : U A) (k : A → U B) u e u1 :
  returns_U m u (Throw e) u1 → returns_U (m ≫= k) u (Throw e) u1.
Proof.
  intros Hm w Hw. destruct (Hm w Hw) as (w1 & E1 & Hw1). exists w1.
  unfold mbind, U_bind. by rewrite E1.
Qed.

Lemma returns_U_try_ok {A} (m : U A) h u a u1 :
  returns_U m u (Ok a) u1 → returns_U (try_catch_U m h) u (Ok a) u1.
Proof.
  intros Hm w Hw. destruct (Hm w Hw) as (w1 & E1 & Hw1). exists w1.
  unfold try_catch_U. by rewrite E1.
Qed.

Lemma returns_U_try_throw {A} (m : U A) h u e u1 r u2 :
  returns_U m u (Throw e) u1 → returns_U (h e) u1 r u2 →
  returns_U (try_catch_U m h) u r u2.
Proof.
  intros Hm Hh w Hw. destruct (Hm w Hw) as (w1 & E1 & Hw1).
  destruct (Hh w1 Hw1) as (w2 & E2 & Hw2). exists w2.
  unfold try_catch_U. by rewrite E1.
Qed.

Lemma returns_U_lift {A} (m : M A) r u : returns m r → returns_U (lift m) u r u.
Proof.
  intros Hm w Hw. destruct (Hm w Hw) as (w1 & E1 & Hw1). exists w1.
  unfold lift. cbn. by rewrite E1.
Qed.

Lemma returns_U_on_manager {A}
    (f : UnifiedConfigManager → A * UnifiedConfigManager) u a u' :
  f u = (a, u') → returns_U (on_manager f) u (Ok a) u'.
Proof.
  intros E w Hw. exists w. unfold on_manager. cbn. by rewrite E.
Qed.

Lemma returns_U_inj {A} (m : U A) u r1 u1 r2 u2 :
  returns_U m u r1 u1 → returns_U m u r2 u2 → r1 = r2 ∧ u1 = u2.
Proof.
  intros H1 H2.
  destruct (H1 _ (cleared_coherent (λ _, 0))) as (w1 & E1 & _).
  destruct (H2 _ (cleared_coherent (λ _, 0))) as (w2 & E2 & _).
  rewrite E1 in E2. by injection E2 as -> -> _.
Qed.

(** The first required setting that is missing, in the order model,
    temperature, token limit, timeout. *)
Definition first_missing (p : string) (e : StandardError) : Prop :=
  returns (getModel p) (Throw e)
  ∨ ∃ m, returns (getModel p) (Ok m)
     ∧ (returns (getTemperature p) (Throw e)
        ∨ ∃ t, returns (getTemperature p) (Ok t)
           ∧ (returns (getMaxTokens p) (Throw e)
              ∨ ∃ x, returns (getMaxTokens p) (Ok x)
                 ∧ returns (getTimeout p) (Throw e))).

Definition all_required (p : string) (m : string) (t x o : spec_float)
  : Prop :=
  returns (getModel p) (Ok m) ∧ returns (getTemperature p) (Ok t)
  ∧ returns (getMaxTokens p) (Ok x) ∧ returns (getTimeout p) (Ok o).

Lemma required_cases (p : string) :
  (∃ m t x o, all_required p m t x o)
  ∨ (∃ e, first_missing p e ∧ category e = CONFIGURATION).
Proof.
  pose proof (returns_getModel p) as Hm.
  pose proof (returns_getTemperature p) as Ht.
  pose proof (returns_getMaxTokens p) as Hx.
  pose proof (returns_getTimeout p) as Ho.
  unfold all_required, first_missing.
  destruct (first_accepted text_tier (model_keys p)) as [m|];
    cbn [result_of] in Hm; [|right; eexists; split; [by left|done]].
  destruct (first_accepted temperature_tier (temperature_keys p)) as [t|];
    cbn [result_of] in Ht;
    [|right; eexists; split; [right; exists m; split; [done|by left]|done]].
  destruct (first_accepted positive_tier (max_tokens_keys p)) as [x|];
    cbn [result_of] in Hx.
  2:{ right. eexists. split; [|shelve]. right. exists m. split; [done|].
      right. exists t. split; [done|]. by left. Unshelve. done. }
  destruct (first_accepted positive_tier (timeout_keys p)) as [o|];
    cbn [result_of] in Ho.
  2:{ right. eexists. split; [|shelve]. right. exists m. split; [done|].
      right. exists t. split; [done|]. right. exists x. by split.
      Unshelve. done. }
  left. by exists m, t, x, o.
Qed.

Lemma first_missing_setting_missing p e :
  first_missing p e → setting_missing p e.
Proof.
  unfold setting_missing.
  intros [?|(m & _ & [?|(t & _ & [?|(x & _ & ?)])])]; eauto.
Qed.

Lemma setting_missing_not_all p e m t x o :
  setting_missing p e → all_required p m t x o → False.
Proof.
  set (w0 := cleared (λ _, 0)).
  assert (coherent w0) as Hw0 by apply cleared_coherent.
  intros [H|[H|[H|H]]] (Hm & Ht & Hx & Ho).
  - by pose proof (returns_inj _ _ _ w0 Hw0 H Hm).
  - by pose proof (returns_inj _ _ _ w0 Hw0 H Ht).
  - by pose proof (returns_inj _ _ _ w0 Hw0 H Hx).
  - by pose proof (returns_inj _ _ _ w0 Hw0 H Ho).
Qed.

Lemma all_required_inj p m t x o m' t' x' o' :
  all_required p m t x o → all_required p m' t' x' o' →
  m' = m ∧ t' = t ∧ x' = x ∧ o' = o.
Proof.
  set (w0 := cleared (λ _, 0)).
  assert (coherent w0) as Hw0 by apply cleared_coherent.
  intros (Hm & Ht & Hx & Ho) (Hm' & Ht' & Hx' & Ho').
  pose proof (returns_inj _ _ _ w0 Hw0 Hm Hm') as [= <-].
  pose proof (returns_inj _ _ _ w0 Hw0 Ht Ht') as [= <-].
  pose proof (returns_inj _ _ _ w0 Hw0 Hx Hx') as [= <-].
  by pose proof (returns_inj _ _ _ w0 Hw0 Ho Ho') as [= <-].
Qed.

Lemma not_not_apiKey_of (p : string) :
  not_not (apiKey_of p) = bool_decide (apiKey_of p ≠ None).
Proof.
  unfold apiKey_of. destruct (PROVIDER_API_KEYS !! p) as [envKey|]; [|done].
  destruct (negb (Js.truthy envKey)); [done|].
  destruct (process_env !! envKey) as [k|]; [|done].
  destruct (negb (Js.truthy k) || negb (Js.truthy (Js.trim k))) eqn:E;
    [done|].
  apply orb_false_iff in E as [_ E%negb_false_iff]. cbn. by rewrite E.
Qed.

(** One step of a chain of calls whose results are known. *)
Ltac run_step :=
  lazymatch goal with
  | |- returns (mret _) _ => apply returns_ret
  | |- returns (throw _) _ => apply returns_throw
  | |- returns (mbind _ (getApiKey _)) _ =>
      eapply returns_bind; [apply returns_getApiKey|]
  | |- returns (mbind _ (getBaseUrl _)) _ =>
      eapply returns_bind; [apply returns_getBaseUrl|]
  | |- returns (mbind _ getMaxCompletionTokens) _ =>
      eapply returns_bind; [apply returns_getMaxCompletionTokens|]
  | |- returns (mbind _ getVerbosity) _ =>
      eapply returns_bind; [apply returns_getVerbosity|]
  | |- returns (mbind _ getReasoningEffort) _ =>
      eapply returns_bind; [apply returns_getReasoningEffort|]
  | |- returns (mbind _ ?m) _ =>
      match goal with
      | H : returns m (Ok _) |- _ => eapply returns_bind; [exact H|]
      | H : returns m (Throw _) |- _ => apply returns_bind_throw; exact H
      end
  end.

(** A configuration that carries the settings of a provider with a
    key. *)
Definition full_configuration (p : string) (c : ProviderConfiguration)
  : Prop :=
  pc_name c = p ∧ pc_apiKey c = apiKey_of p ∧ apiKey_of p ≠ None
  ∧ all_required p (pc_model c) (pc_temperature c) (pc_maxTokens c)
      (pc_timeout c)
  ∧ returns (getBaseUrl p) (Ok (pc_baseUrl c)).

Lemma returns_loadProviderConfiguration (p : string) :
  ∃ r, returns (loadProviderConfiguration p) r
       ∧ match r with
         | Ok c =>
             (apiKey_of p = None ∧ c = minimal_configuration p None false)
             ∨ full_configuration p c
         | Throw e =>
             apiKey_of p ≠ None ∧ first_missing p e
             ∧ category e = CONFIGURATION
         end.
Proof.
  unfold loadProviderConfiguration.
  pose proof (not_not_apiKey_of p) as Hnn.
  destruct (apiKey_of p) as [k|] eqn:Ek.
  2:{ eexists (Ok _). split; [|by left].
      eapply returns_bind; [apply returns_getApiKey|].
      rewrite Ek. cbn. apply returns_ret. }
  rewrite bool_decide_eq_true_2 in Hnn by done.
  destruct (required_cases p) as [(m & t & x & o & Hall)|(e & He & Hc)].
  2:{ exists (Throw e). split; [|done].
      eapply returns_bind; [apply returns_getApiKey|].
      rewrite Ek, Hnn. cbn [negb].
      destruct He as [?|(m & ? & [?|(t & ? & [?|(x & ? & ?)])])];
        repeat run_step. }
  destruct Hall as (Hm & Ht & Hx & Ho).
  set (config :=
    {| pc_name := p; pc_apiKey := Some k; pc_model := m;
       pc_temperature := t; pc_maxTokens := x; pc_timeout := o;
       pc_hasApiKey := true; pc_hasModel := true;
       pc_baseUrl := text_tier (process_env !! (Js.toUpperCase p +:+ "_BASE_URL"));
       pc_maxCompletionTokens := None; pc_verbosity := None;
       pc_reasoningEffort := None |}).
  assert (∀ c, pc_name c = p → pc_apiKey c = Some k → pc_model c = m →
               pc_temperature c = t → pc_maxTokens c = x → pc_timeout c = o →
               pc_baseUrl c = pc_baseUrl config →
               full_configuration p c) as Hfull.
  { intros c E1 E2 E3 E4 E5 E6 E7. unfold full_configuration, all_required.
    rewrite E1, E2, E3, E4, E5, E6, E7, Ek.
    repeat split; try done. apply returns_getBaseUrl. }
  destruct (providerSupportsFeature p "GPT5_REASONING") eqn:Es.
  - eexists (Ok _). split.
    + eapply returns_bind; [apply returns_getApiKey|].
      rewrite Ek, Hnn. cbn [negb].
      do 5 run_step. cbv zeta.
      apply returns_try_ok. run_step.
      apply returns_try_ok. run_step.
      apply returns_try_ok. run_step. apply returns_ret.
    + right. fold config.
      destruct maxCompletionTokens_value, (word_among _ _), (word_among _ _);
        by apply Hfull.
  - exists (Ok config). split; [|right; by apply Hfull].
    eapply returns_bind; [apply returns_getApiKey|].
    rewrite Ek, Hnn. cbn [negb].
    do 5 run_step. apply returns_ret.
Qed.

(** What [initialize] stores for a provider when [CONFIG_STRICT] is
    off: the provider's settings, or the fixed values of the minimal
    configuration when it has no key or a required setting is
    missing. *)
Definition stored_entry (p : string) (c : ProviderConfiguration) : Prop :=
  full_configuration p c
  ∨ (pc_name c = p ∧ pc_apiKey c = apiKey_of p
     ∧ (apiKey_of p = None ∨ ∃ e, setting_missing p e)
     ∧ pc_model c = "" ∧ pc_temperature c = number_0_7
     ∧ pc_maxTokens c = JsNumber.of_Z 2000
     ∧ pc_timeout c = JsNumber.of_Z 30000).

Definition with_config (u : UnifiedConfigManager) (p : string)
    (c : ProviderConfiguration) : UnifiedConfigManager :=
  {| providerConfigs := <[p := c]> (providerConfigs u);
     initialized := initialized u |}.

Lemma returns_set_config p c u :
  returns_U (set_config p c) u (Ok tt) (with_config u p c).
Proof.
  by apply returns_U_on_manager.
Qed.

Lemma returns_initialize_provider p u :
  process_env !! "CONFIG_STRICT" ≠ Some "1" →
  ∃ c, returns_U (initialize_provider p) u (Ok tt) (with_config u p c)
       ∧ stored_entry p c.
Proof.
  intros Hstrict. unfold initialize_provider.
  rewrite (bool_decide_eq_false_2 _ Hstrict).
  destruct (returns_loadProviderConfiguration p) as ([c|e] & Hr & H).
  - exists c. split.
    + apply returns_U_try_ok.
      eapply returns_U_bind; [by apply returns_U_lift|].
      apply returns_set_config.
    + destruct H as [[Hk ->]|H]; [|by left].
      right. rewrite Hk. repeat split; by left.
  - exists (minimal_configuration p (apiKey_of p) (not_not (apiKey_of p))).
    destruct H as (Hk & He & _). split.
    + eapply returns_U_try_throw.
      { apply returns_U_bind_throw. by apply returns_U_lift. }
      eapply returns_U_bind; [apply returns_U_lift, returns_getApiKey|].
      eapply returns_U_bind; [apply returns_U_lift, returns_getApiKey|].
      apply returns_set_config.
    + right. repeat split. right. exists e.
      by apply first_missing_setting_missing.
Qed.

Lemma returns_initialize_loop (l : list string) u :
  process_env !! "CONFIG_STRICT" ≠ Some "1" →
  ∃ u', returns_U (for_each_U initialize_provider l) u (Ok tt) u'
        ∧ initialized u' = initialized u
        ∧ (∀ q, q ∈ l →
             ∃ c, providerConfigs u' !! q = Some c ∧ stored_entry q c)
        ∧ (∀ q, q ∉ l → providerConfigs u' !! q = providerConfigs u !! q).
Proof.
  intros Hstrict. revert u. induction l as [|x l IH]; intros u.
  { exists u. split; [apply returns_U_ret|]. split; [done|].
    split; [|done]. intros q Hq. by apply elem_of_nil in Hq. }
  destruct (returns_initialize_provider x u Hstrict) as (c & Hr & Hc).
  destruct (IH (with_config u x c)) as (u' & Hr' & Hi & Hin & Hout).
  exists u'. split; [by eapply returns_U_bind|]. split; [done|]. split.
  - intros q Hq. destruct (decide (q ∈ l)) as [Hl|Hl]; [by apply Hin|].
    apply elem_of_cons in Hq as [->|Hq]; [|done].
    exists c. split; [|done]. rewrite (Hout x Hl). cbn.
    apply lookup_insert_eq.
  - intros q Hq. apply not_elem_of_cons in Hq as [Hne Hl].
    rewrite (Hout q Hl). cbn. by apply lookup_insert_ne.
Qed.

Lemma returns_initialize u :
  initialized u = false → process_env !! "CONFIG_STRICT" ≠ Some "1" →
  ∃ u', returns_U initialize u (Ok tt) u' ∧ initialized u' = true
        ∧ ∀ q, q ∈ SUPPORTED_PROVIDERS →
            ∃ c, providerConfigs u' !! q = Some c ∧ stored_entry q c.
Proof.
  intros Hi Hstrict. unfold initialize.
  destruct (returns_initialize_loop SUPPORTED_PROVIDERS
              {| providerConfigs := ∅; initialized := initialized u |}
              Hstrict) as (u1 & Hr & _ & Hin & _).
  exists {| providerConfigs := providerConfigs u1; initialized := true |}.
  split; [|split; [done|exact Hin]].
  eapply returns_U_bind; [by apply returns_U_on_manager|].
  rewrite Hi.
  eapply returns_U_bind; [by apply returns_U_on_manager|].
  eapply returns_U_bind; [exact Hr|].
  by apply returns_U_on_manager.
Qed.

Lemma returns_initialize_done u :
  initialized u = true → returns_U initialize u (Ok tt) u.
Proof.
  intros Hi. unfold initialize.
  eapply returns_U_bind; [by apply returns_U_on_manager|].
  rewrite Hi. apply returns_U_ret.
Qed.

Lemma returns_getProviderConfiguration_done p u :
  isEnabled = true → initialized u = true →
  returns_U (getProviderConfiguration p) u (Ok (providerConfigs u !! p)) u.
Proof.
  intros He Hi. unfold getProviderConfiguration. rewrite He. cbn [negb].
  eapply returns_U_bind; [by apply returns_initialize_done|].
  by apply returns_U_on_manager.
Qed.

Lemma returns_getProviderConfiguration_first p u :
  isEnabled = true → initialized u = false →
  process_env !! "CONFIG_STRICT" ≠ Some "1" → p ∈ SUPPORTED_PROVIDERS →
  ∃ c u', returns_U (getProviderConfiguration p) u (Ok (Some c)) u'
          ∧ initialized u' = true ∧ providerConfigs u' !! p = Some c
          ∧ stored_entry p c.
Proof.
  intros He Hi Hstrict Hp. unfold getProviderConfiguration.
  rewrite He. cbn [negb].
  destruct (returns_initialize u Hi Hstrict) as (u' & Hr & Hi' & Hall).
  destruct (Hall p Hp) as (c & Hc & Hs). exists c, u'.
  split; [|done].
  eapply returns_U_bind; [exact Hr|]. rewrite <- Hc.
  by apply returns_U_on_manager.
Qed.

Lemma returns_getProviderConfiguration_disabled p u :
  isEnabled = false → returns_U (getProviderConfiguration p) u (Ok None) u.
Proof.
  intros He. unfold getProviderConfiguration. rewrite He.
  apply returns_U_ret.
Qed.

(** The call made with a configuration of the manager. *)
Definition call_with (c : ProviderConfiguration) (params : Overrides)
  : ProviderCallConfig :=
  {| call_providerName := pc_name c;
     call_apiKey := pc_apiKey c;
     call_model :=
       if not_not (modelOverride params)
       then default "" (modelOverride params) else pc_model c;
     call_temperature :=
       default (pc_temperature c) (override_temperature params);
     call_maxTokens := default (pc_maxTokens c) (override_maxTokens params);
     call_timeout := pc_timeout c;
     call_baseUrl := pc_baseUrl c;
     call_maxCompletionTokens := pc_maxCompletionTokens c;
     call_verbosity := pc_verbosity c;
     call_reasoningEffort := pc_reasoningEffort c |}.

Lemma returns_getProviderConfigWithOverrides_unified p params u c u' :
  returns_U (getProviderConfiguration p) u (Ok (Some c)) u' →
  returns_U (getProviderConfigWithOverrides p params) u
    (Ok (call_with c params)) u'.
Proof.
  intros H. unfold getProviderConfigWithOverrides, getUnifiedProviderConfig.
  eapply returns_U_bind.
  { eapply returns_U_bind; [exact H|]. apply returns_U_ret. }
  apply returns_U_ret.
Qed.

Lemma returns_getUnifiedProviderConfig_legacy p u :
  isEnabled = false → (∃ e, setting_missing p e) →
  returns_U (getUnifiedProviderConfig p) u (Ok None) u.
Proof.
  intros He (e0 & Hmiss). unfold getUnifiedProviderConfig.
  eapply returns_U_bind;
    [by apply returns_getProviderConfiguration_disabled|].
  apply returns_U_lift.
  pose proof (not_not_apiKey_of p) as Hnn.
  destruct (apiKey_of p) as [k|] eqn:Ek.
  2:{ apply returns_try_ok. run_step. rewrite Ek. apply returns_ret. }
  rewrite bool_decide_eq_true_2 in Hnn by done.
  destruct (required_cases p) as [(m & t & x & o & Hall)|(e & He' & _)].
  { by destruct (setting_missing_not_all _ _ _ _ _ _ Hmiss Hall). }
  eapply returns_try_throw; [|apply returns_ret].
  run_step. rewrite Ek, Hnn. cbn [negb].
  destruct He' as [?|(m & ? & [?|(t & ? & [?|(x & ? & ?)])])];
    repeat run_step.
Qed.

(** X30 — With [CONFIG_UNIFIED] on and [CONFIG_STRICT] off,
    [getProviderConfigWithOverrides] never throws for a supported provider:
    the first call loads the configurations, later calls return the same.
    The result holds the key that [getApiKey] returns, and, each unless
    overridden, either the provider's model, temperature and token limit
    with its timeout, when it has a key and all four are configured, or else
    the fixed values: an empty model, 0.7, 2000 and 30000.  With
    [CONFIG_UNIFIED] off, and no overrides, a missing required setting makes
    the call throw the CONFIGURATION error of a setting that is missing. *)
Theorem getProviderConfigWithOverrides_unified_defaults
    (p : string) (params : Overrides) (u : UnifiedConfigManager) :
  initialized u = false →
  (isEnabled = true → process_env !! "CONFIG_STRICT" ≠ Some "1" →
   p ∈ SUPPORTED_PROVIDERS →
   ∃ cfg u',
     returns_U (getProviderConfigWithOverrides p params) u (Ok cfg) u'
     ∧ initialized u' = true
     ∧ returns_U (getProviderConfigWithOverrides p params) u' (Ok cfg) u'
     ∧ returns (getApiKey p) (Ok (call_apiKey cfg))
     ∧ ∃ m t x o,
         call_model cfg
         = (if not_not (modelOverride params)
            then default "" (modelOverride params) else m)
         ∧ call_temperature cfg = default t (override_temperature params)
         ∧ call_maxTokens cfg = default x (override_maxTokens params)
         ∧ call_timeout cfg = o
         ∧ ((call_apiKey cfg ≠ None
             ∧ returns (getModel p) (Ok m)
             ∧ returns (getTemperature p) (Ok t)
             ∧ returns (getMaxTokens p) (Ok x)
             ∧ returns (getTimeout p) (Ok o))
            ∨ ((call_apiKey cfg = None ∨ ∃ e, setting_missing p e)
               ∧ m = "" ∧ t = number_0_7 ∧ x = JsNumber.of_Z 2000
               ∧ o = JsNumber.of_Z 30000)))
  ∧ (isEnabled = false →
     modelOverride params = None → override_temperature params = None →
     override_maxTokens params = None → (∃ e, setting_missing p e) →
     ∃ e, returns_U (getProviderConfigWithOverrides p params) u (Throw e) u
          ∧ setting_missing p e ∧ category e = CONFIGURATION).
Proof.
  intros Hi. split.
  - intros He Hstrict Hp.
    destruct (returns_getProviderConfiguration_first p u He Hi Hstrict Hp)
      as (c & u' & Hr & Hi' & Hc & Hs).
    exists (call_with c params), u'.
    split; [by apply returns_getProviderConfigWithOverrides_unified|].
    split; [done|]. split.
    { apply returns_getProviderConfigWithOverrides_unified. rewrite <- Hc.
      by apply returns_getProviderConfiguration_done. }
    cbn [call_with call_apiKey call_model call_temperature call_maxTokens
         call_timeout].
    assert (pc_apiKey c = apiKey_of p) as Hk.
    { by destruct Hs as [(_ & ? & _)|(_ & ? & _)]. }
    split; [rewrite Hk; apply returns_getApiKey|].
    exists (pc_model c), (pc_temperature c), (pc_maxTokens c), (pc_timeout c).
    do 4 (split; [done|]).
    destruct Hs as [(_ & _ & Hne & Hall & _)|(_ & _ & Hwhy & Hd)].
    + left. by rewrite Hk.
    + right. by rewrite Hk.
  - intros He Em Et Ex Hmiss.
    destruct (required_cases p) as [(m & t & x & o & Hall)|(e & He' & Hcat)].
    { destruct Hmiss as (e0 & Hmiss).
      by destruct (setting_missing_not_all _ _ _ _ _ _ Hmiss Hall). }
    exists e. split; [|split; [by apply first_missing_setting_missing|done]].
    unfold getProviderConfigWithOverrides.
    eapply returns_U_bind;
      [by apply returns_getUnifiedProviderConfig_legacy|].
    apply returns_U_lift. rewrite Em, Et, Ex. cbn [not_not].
    run_step.
    destruct He' as [?|(m & ? & [?|(t & ? & [?|(x & ? & ?)])])];
      repeat run_step.
Qed.

End LoadConfig.

End Engine.

(** Outside test mode the key [sk-proj-your_team] is accepted although
    it contains [your_]; so are keys that contain [_here] or
    [placeholder] away from the start. *)
Lemma validateApiKey_accepts_embedded_placeholders :
  test_mode ∅ = false
  ∧ Js.includes "your_" "sk-proj-your_team" = true
  ∧ validateApiKey ∅ "openai" "sk-proj-your_team" = true
  ∧ Js.includes "_here" "sk-live_here9" = true
  ∧ validateApiKey ∅ "openai" "sk-live_here9" = true
  ∧ Js.includes "placeholder" "sk-placeholder" = true
  ∧ validateApiKey ∅ "openai" "sk-placeholder" = true.
Proof. repeat split; vm_compute; reflexivity. Qed.

Lemma validateApiKey_placeholders_witness :
  validateApiKey {[ "TEST_MODE" := "true" ]} "openai" "sk-proj-your_team" = false
  ∧ validateApiKey ∅ "openai" "Dummy-key-1" = false
  ∧ validateApiKey ∅ "openai" "YOUR-anthropic_HERE" = false.
Proof.
  split; [|split].
  - destruct (validateApiKey_placeholders {[ "TEST_MODE" := "true" ]} "openai")
      as (H & _).
    apply (H eq_refl "sk-proj-your_team"). right. left. reflexivity.
  - destruct (validateApiKey_placeholders ∅ "openai") as (_ & H & _).
    destruct (H eq_refl) as (_ & Hd & _).
    apply (Hd "Dummy" "-key-1"). reflexivity.
  - destruct (validateApiKey_placeholders ∅ "openai") as (_ & H & _).
    destruct (H eq_refl) as (_ & _ & _ & Hy).
    apply (Hy "YOUR" "-"%char "anthropic" "_"%char "HERE");
      [reflexivity|reflexivity|apply list_elem_of_here
      |apply list_elem_of_further, list_elem_of_here|reflexivity].
Defined.

(** Modelled from the spec: the tables [SUPPORTED_PROVIDERS] and
    [PROVIDER_API_KEYS] of [src/ai-providers/index.ts], which is not among
    the sources; a provider's key is read from [{PROVIDER}_API_KEY]. *)
Definition sample_providers : list string := ["openai"; "anthropic"; "google"].

Definition sample_api_keys : gmap string string :=
  <[ "openai" := "OPENAI_API_KEY" ]>
    (<[ "anthropic" := "ANTHROPIC_API_KEY" ]>
       {[ "google" := "GOOGLE_API_KEY" ]}).

Definition clock0 : nat → Z := λ _, 0.

(** The first result of [m] after [clearEnvCache()]. *)
Definition run {A} (m : M A) : Result A := fst (m (cleared clock0)).

Lemma returns_run {A} env (m : M A) r : returns env m r → run m = r.
Proof.
  intros H. destruct (H (cleared clock0) (cleared_coherent env clock0))
    as (w' & E & _). unfold run. by rewrite E.
Qed.

Definition env_priority_only : gmap string string :=
  <[ "PROVIDER_SELECTION_PRIORITY" := "openai" ]>
    {[ "OPENAI_API_KEY" := "sk-abc123realkey" ]}.

(** C3 — best available provider, with no default named.
    [PROVIDER_SELECTION_PRIORITY] lists [openai], which is configured, and
    [DEFAULT_LLM_PROVIDER] is unset: [getProviderPriority], which catches
    the missing default, gives the list [openai], but
    [getBestAvailableProvider] throws [DEFAULT_PROVIDER_NOT_SET] before it
    walks the list.  With nothing set at all, so that no provider is
    configured and the list is empty, it throws the same error where the
    result is to be [null]. *)
Theorem getBestAvailableProvider_requires_default :
  configured env_priority_only sample_api_keys "openai" = true
  ∧ run (getProviderPriority env_priority_only sample_providers
           sample_api_keys)
    = Ok ["openai"]
  ∧ run (getBestAvailableProvider env_priority_only sample_providers
           sample_api_keys)
    = Throw DEFAULT_PROVIDER_NOT_SET
  ∧ map (configured ∅ sample_api_keys) sample_providers = [false; false; false]
  ∧ run (getProviderPriority ∅ sample_providers sample_api_keys) = Ok []
  ∧ run (getBestAvailableProvider ∅ sample_providers sample_api_keys)
    = Throw DEFAULT_PROVIDER_NOT_SET.
Proof. repeat split; vm_compute; reflexivity. Qed.

Definition env_walk : gmap string string :=
  <[ "DEFAULT_LLM_PROVIDER" := "anthropic" ]>
    (<[ "PROVIDER_SELECTION_PRIORITY" := "google, openai" ]>
       {[ "OPENAI_API_KEY" := "sk-abc123realkey" ]}).

Lemma getBestAvailableProvider_selection_witness :
  run (getBestAvailableProvider env_walk sample_providers sample_api_keys)
  = Ok (Some "openai").
Proof.
  apply (returns_run env_walk).
  destruct (getBestAvailableProvider_selection env_walk sample_providers
              sample_api_keys) as (_ & H).
  destruct (H "anthropic" eq_refl) as (_ & Hwalk & _); [discriminate|].
  apply Hwalk.
  - vm_compute; reflexivity.
  - discriminate.
  - intros n Hn.
    change (listed_names env_walk) with ["google"; "openai"] in Hn.
    unfold sample_providers. set_unfold. tauto.
Defined.

Definition env_default_only : gmap string string :=
  {[ "LLM_TEMPERATURE_DEFAULT" := "0.5" ]}.

Lemma getTemperature_tiers_witness :
  run (getTemperature env_default_only "openai")
  = Ok (S754_finite false 4503599627370496 (-53))
  ∧ run (getTemperature (<[ "OPENAI_TEMPERATURE" := "0.9" ]> env_default_only)
           "openai")
    = Ok (S754_finite false 8106479329266893 (-53)).
Proof.
  split.
  - apply (returns_run env_default_only).
    destruct (getTemperature_tiers env_default_only "openai")
      as (_ & _ & _ & _ & _ & H & _).
    apply H; reflexivity.
  - apply (returns_run (<[ "OPENAI_TEMPERATURE" := "0.9" ]> env_default_only)).
    destruct (getTemperature_tiers
                (<[ "OPENAI_TEMPERATURE" := "0.9" ]> env_default_only) "openai")
      as (_ & _ & _ & _ & _ & _ & H).
    apply H; reflexivity.
Defined.

(** *** How long a cached variable is served

    [process.env] may change between two calls; the functions below are
    run with the environment each call finds. *)

(** X18 — A variable read while it was set is served from the cache for 30
    seconds, counted from the moment it was stored, whatever [process.env]
    holds by then; the first call after that reads [process.env] again. *)
Theorem resolveEnvVariableCached_serves_cached_value
    (env1 env2 : gmap string string) (key v : string) (w : World) :
  Cache.defaultTTL (envCache w) = Some (Cache.Ms 30000) →
  Cache.cache (envCache w) !! ("env_" +:+ key) = None →
  env1 !! key = Some v →
  let stored_at := clock w (S (ticks w)) in
  let read_at := clock w (S (S (ticks w))) in
  let w1 := snd (resolveEnvVariableCached env1 key w) in
  fst (resolveEnvVariableCached env1 key w) = Ok (Some v)
  ∧ (read_at - stored_at ≤ 30000 →
       fst (resolveEnvVariableCached env2 key w1) = Ok (Some v))
  ∧ (30000 < read_at - stored_at →
       fst (resolveEnvVariableCached env2 key w1) = Ok (env2 !! key)).
Proof.
  intros Httl Hmiss Hv. cbv zeta.
  unfold resolveEnvVariableCached, envCache_get, envCache_set.
  unfold mbind, M_bind, Date_now, on_envCache, mret, M_ret. cbn.
  unfold Cache.get. rewrite Hmiss. cbn. rewrite Hv. cbn.
  split; [done|]. rewrite lookup_insert_eq. cbn. rewrite Httl. cbn.
  split; intros Ht.
  - destruct (Z.ltb_spec 30000 (clock w (S (S (ticks w))) - clock w (S (ticks w))));
      [lia|done].
  - destruct (Z.ltb_spec 30000 (clock w (S (S (ticks w))) - clock w (S (ticks w))));
      [|lia]. cbn. by destruct (env2 !! key).
Qed.

(** X19 — A variable read while it was unset is stored as [undefined], which
    the next call does not take for a cached value: it reads [process.env]
    again, at once. *)
Theorem resolveEnvVariableCached_rereads_unset
    (env1 env2 : gmap string string) (key : string) (w : World) :
  Cache.cache (envCache w) !! ("env_" +:+ key) = None →
  env1 !! key = None →
  let w1 := snd (resolveEnvVariableCached env1 key w) in
  fst (resolveEnvVariableCached env1 key w) = Ok None
  ∧ is_Some (Cache.cache (envCache w1) !! ("env_" +:+ key))
  ∧ fst (resolveEnvVariableCached env2 key w1) = Ok (env2 !! key).
Proof.
  intros Hmiss Hv. cbv zeta.
  unfold resolveEnvVariableCached, envCache_get, envCache_set.
  unfold mbind, M_bind, Date_now, on_envCache, mret, M_ret. cbn.
  unfold Cache.get. rewrite Hmiss. cbn. rewrite Hv. cbn.
  split; [done|]. rewrite lookup_insert_eq. cbn.
  split; [by eexists|].
  destruct (Cache.elapsed_gt _ _ _); cbn; by destruct (env2 !! key).
Qed.

Lemma resolveEnvVariableCached_serves_cached_value_witness :
  let w1 := snd (resolveEnvVariableCached {[ "LLM_TIMEOUT" := "1000" ]}
                   "LLM_TIMEOUT" (cleared (λ n, 1000 * Z.of_nat n))) in
  fst (resolveEnvVariableCached {[ "LLM_TIMEOUT" := "2000" ]}
         "LLM_TIMEOUT" w1) = Ok (Some "1000").
Proof.
  cbv zeta.
  assert (({[ "LLM_TIMEOUT" := "1000" ]} : gmap string string)
            !! "LLM_TIMEOUT" = Some "1000") as Hset by reflexivity.
  destruct (resolveEnvVariableCached_serves_cached_value
              {[ "LLM_TIMEOUT" := "1000" ]} {[ "LLM_TIMEOUT" := "2000" ]}
              "LLM_TIMEOUT" "1000" (cleared (λ n, 1000 * Z.of_nat n))
              eq_refl eq_refl Hset) as (_ & H & _).
  apply H. vm_compute. discriminate.
Defined.

Lemma resolveEnvVariableCached_rereads_unset_witness :
  let w1 := snd (resolveEnvVariableCached ∅ "LLM_TIMEOUT" (cleared (λ _, 0))) in
  fst (resolveEnvVariableCached {[ "LLM_TIMEOUT" := "2000" ]}
         "LLM_TIMEOUT" w1) = Ok (Some "2000").
Proof.
  cbv zeta.
  assert ((∅ : gmap string string) !! "LLM_TIMEOUT" = None) as Hunset
    by reflexivity.
  destruct (resolveEnvVariableCached_rereads_unset
              ∅ {[ "LLM_TIMEOUT" := "2000" ]} "LLM_TIMEOUT" (cleared (λ _, 0))
              eq_refl Hunset) as (_ & _ & H).
  exact H.
Defined.

Lemma getBestAvailableProvider_is_configured_witness :
  run (isProviderConfigured env_walk sample_api_keys "openai") = Ok true.
Proof.
  apply (returns_run env_walk).
  apply (getBestAvailableProvider_is_configured env_walk sample_providers
           sample_api_keys "openai").
  pose proof (returns_getBestAvailableProvider env_walk sample_providers
                sample_api_keys) as H.
  assert (best_result env_walk sample_providers sample_api_keys
          = Ok (Some "openai")) as E by (vm_compute; reflexivity).
  rewrite E in H. exact H.
Defined.

(** *** [categorizeError]

    A thrown value as [categorizeError] inspects it: a falsy value; a
    [StandardError]; another object, with the properties the function
    reads, typed as its casts declare them; or another value that is no
    object (a string, a number, a function). *)
Record ErrorObject := {
  (** [error.code], when it is a string *)
  error_code : option string;
  (** [error.status], [error.statusCode] and [error.response?.status] *)
  error_status : option spec_float;
  error_statusCode : option spec_float;
  error_response_status : option spec_float;
  (** [error instanceof Error], and [error.message] *)
  is_Error : bool;
  error_message : string
}.

Inductive Thrown :=
  | Falsy
  | IsStandardError (e : StandardError)
  | IsObject (o : ErrorObject)
  | Primitive.

(** Truthiness of an optional number: it is there, not zero and not
    [NaN]. *)
Definition truthy_number (v : option spec_float) : bool :=
  match v with
  | Some (S754_zero _) | Some S754_nan | None => false
  | Some _ => true
  end.

(** [a || b] on optional numbers *)
Definition or_else (a b : option spec_float) : option spec_float :=
  if truthy_number a then a else b.

(** [status === n] for an integer literal [n] *)
Definition status_is (status : spec_float) (n : Z) : bool :=
  SFeqb status (JsNumber.of_Z n).

(** The [switch] over Node.js system error codes. *)
Definition system_error_category (code : string) : option ErrorCategory :=
  if bool_decide (code ∈ ["ENOTFOUND"; "ECONNREFUSED"; "ECONNRESET";
                          "EHOSTUNREACH"; "ENETUNREACH"])
  then Some NETWORK
  else if bool_decide (code ∈ ["ETIMEDOUT"; "ESOCKETTIMEDOUT"])
  then Some TIMEOUT
  else if bool_decide (code = "ENOENT") then Some NOT_FOUND
  else None.

(** The tests on an HTTP status, in the order of the source. *)
Definition status_category (status : spec_float) : option ErrorCategory :=
  if status_is status 401 then Some AUTHENTICATION
  else if status_is status 403 then Some AUTHORIZATION
  else if status_is status 404 then Some NOT_FOUND
  else if status_is status 408 || status_is status 504 then Some TIMEOUT
  else if status_is status 409 then Some CONFLICT
  else if status_is status 422
          || (JsNumber.ge status (JsNumber.of_Z 400)
              && JsNumber.lt status (JsNumber.of_Z 500))
  then Some VALIDATION
  else if status_is status 429 then Some RATE_LIMIT
  else if JsNumber.ge status (JsNumber.of_Z 500) then Some PROVIDER
  else None.

(** The tests on the lower-cased message of an [Error]. *)
Definition message_category (message : string) : option ErrorCategory :=
  if Js.includes "must be set" message || Js.includes "not found" message
     || Js.includes "invalid" message || Js.includes "missing" message
  then Some CONFIGURATION
  else if Js.includes "network" message || Js.includes "connection" message
          || Js.includes "dns" message || Js.includes "resolve" message
  then Some NETWORK
  else if Js.includes "unauthorized" message
          || Js.includes "invalid key" message
          || Js.includes "authentication" message
  then Some AUTHENTICATION
  else if Js.includes "timeout" message || Js.includes "timed out" message
  then Some TIMEOUT
  else if Js.includes "rate limit" message || Js.includes "too many" message
  then Some RATE_LIMIT
  else None.

Definition categorizeError (error : Thrown) : ErrorCategory :=
  match error with
  | Falsy => UNKNOWN
  | IsStandardError e => category e
  | Primitive => UNKNOWN
  | IsObject o =>
      match error_code o ≫= system_error_category with
      | Some c => c
      | None =>
          let status :=
            or_else (or_else (error_status o) (error_statusCode o))
              (error_response_status o) in
          match (if truthy_number status
                 then status ≫= status_category else None) with
          | Some c => c
          | None =>
              match (if is_Error o
                     then message_category (Js.toLowerCase (error_message o))
                     else None) with
              | Some c => c
              | None => UNKNOWN
              end
          end
      end
  end.

Lemma SFeqb_finite (x : spec_float) (m : positive) (e : Z) :
  SFeqb x (S754_finite false m e) = true → x = S754_finite false m e.
Proof.
  unfold SFeqb. destruct x as [s|s| |s m' e']; cbn; try done.
  - by destruct s.
  - destruct s; [done|].
    destruct (Z.compare_spec e' e) as [->| |]; [|done|done].
    rewrite Pos.compare_cont_spec. cbn.
    destruct (Pos.compare_spec m' m) as [->| |]; done.
Qed.

(** No status is categorized as RATE_LIMIT: 429 lies between 400 and
    500 and is taken by the test that precedes its own. *)
Lemma status_category_not_rate_limit (status : spec_float) :
  status_category status ≠ Some RATE_LIMIT.
Proof.
  unfold status_category.
  destruct (status_is status 401); [done|].
  destruct (status_is status 403); [done|].
  destruct (status_is status 404); [done|].
  destruct (status_is status 408 || status_is status 504); [done|].
  destruct (status_is status 409); [done|].
  destruct (status_is status 422 || _) eqn:Erange; [done|].
  destruct (status_is status 429) eqn:E429.
  - exfalso. unfold status_is in E429.
    replace (JsNumber.of_Z 429)
      with (S754_finite false 7547047813054464 (-44)) in E429
      by (vm_compute; reflexivity).
    apply SFeqb_finite in E429. subst status.
    vm_compute in Erange. discriminate.
  - by destruct (JsNumber.ge status (JsNumber.of_Z 500)).
Qed.

(** X20 — A status of 429 is categorized as VALIDATION, and RATE_LIMIT comes
    from no status at all: a value categorized as RATE_LIMIT is a
    [StandardError] of that category, or an [Error] whose message contains
    ["rate limit"] or ["too many"]. *)
Theorem categorizeError_rate_limit_by_message_only :
  (∀ o, error_code o ≫= system_error_category = None →
     or_else (or_else (error_status o) (error_statusCode o))
       (error_response_status o) = Some (JsNumber.of_Z 429) →
     categorizeError (IsObject o) = VALIDATION)
  ∧ (∀ error, categorizeError error = RATE_LIMIT →
       (∃ e, error = IsStandardError e ∧ category e = RATE_LIMIT)
       ∨ (∃ o, error = IsObject o ∧ is_Error o = true
            ∧ (Js.includes "rate limit" (Js.toLowerCase (error_message o))
               = true
               ∨ Js.includes "too many" (Js.toLowerCase (error_message o))
                 = true))).
Proof.
  split.
  - intros o Hc Hs. unfold categorizeError. rewrite Hc, Hs. reflexivity.
  - intros [|e|o|]; cbn [categorizeError]; [done|by eauto| |done].
    intros H. right. exists o. split; [done|].
    destruct (error_code o ≫= system_error_category) as [c|] eqn:Ec.
    { subst c. destruct (error_code o) as [code|]; [|done]. cbn in Ec.
      unfold system_error_category in Ec.
      repeat destruct (bool_decide _); done. }
    cbv zeta in H.
    set (status := or_else _ _) in H.
    destruct (if truthy_number status then status ≫= status_category else None)
      as [c|] eqn:Es.
    { subst c. destruct (truthy_number status); [|done].
      destruct status as [s|]; [|done]. cbn in Es.
      by apply status_category_not_rate_limit in Es. }
    destruct (is_Error o); [|done]. split; [done|].
    unfold message_category in H.
    destruct (Js.includes "must be set" _ || _ || _ || _); [done|].
    destruct (Js.includes "network" _ || _ || _ || _); [done|].
    destruct (Js.includes "unauthorized" _ || _ || _); [done|].
    destruct (Js.includes "timeout" _ || _); [done|].
    destruct (Js.includes "rate limit" _ || _) eqn:E; [|done].
    by apply orb_true_iff in E.
Qed.

(** X21 — An [Error] (without a system code or a status that decide first)
    whose message mentions an invalid key is categorized as CONFIGURATION,
    not AUTHENTICATION: the test for ["invalid"] comes before the one for
    ["invalid key"]. *)
Theorem categorizeError_invalid_key_is_configuration (o : ErrorObject) :
  error_code o ≫= system_error_category = None →
  truthy_number
    (or_else (or_else (error_status o) (error_statusCode o))
       (error_response_status o)) = false →
  is_Error o = true →
  Js.includes "invalid key" (Js.toLowerCase (error_message o)) = true →
  categorizeError (IsObject o) = CONFIGURATION.
Proof.
  intros Hc Hs He Hm. unfold categorizeError. rewrite Hc. cbv zeta.
  rewrite Hs, He. unfold message_category.
  apply (Js.includes_prefix "invalid" " key") in Hm. rewrite Hm.
  by rewrite orb_true_r.
Qed.

Definition invalid_key_error : ErrorObject :=
  {| error_code := None; error_status := None; error_statusCode := None;
     error_response_status := None; is_Error := true;
     error_message := "Invalid key for provider" |}.

Lemma categorizeError_invalid_key_is_configuration_witness :
  categorizeError (IsObject invalid_key_error) = CONFIGURATION.
Proof.
  apply categorizeError_invalid_key_is_configuration; reflexivity.
Defined.

(** *** The unified configuration, run *)

(** The first result of [m] from manager state [u], after
    [clearEnvCache()]. *)
Definition run_U {A} (m : U A) (u : UnifiedConfigManager) : Result A :=
  fst (m {| unifiedConfigManager := u; world := cleared clock0 |}).

Lemma returns_U_run {A} env (m : U A) u r u' :
  returns_U env m u r u' → run_U m u = r.
Proof.
  intros H. destruct (H (cleared clock0) (cleared_coherent env clock0))
    as (w' & E & _). unfold run_U. by rewrite E.
Qed.

(** [openai] has a key but no model, temperature, token limit or
    timeout, and the unified configuration is switched on. *)
Definition env_unified : gmap string string :=
  <[ "CONFIG_UNIFIED" := "1" ]> {[ "OPENAI_API_KEY" := "sk-abc123realkey" ]}.

Definition fresh_manager : UnifiedConfigManager :=
  {| providerConfigs := ∅; initialized := false |}.

Definition no_overrides : Overrides :=
  {| override_temperature := None; override_maxTokens := None;
     modelOverride := None |}.

Lemma getProviderConfigWithOverrides_unified_defaults_witness :
  ∃ cfg,
    run_U (getProviderConfigWithOverrides env_unified sample_providers
             sample_api_keys (λ _ _, false) "openai" no_overrides)
      fresh_manager = Ok cfg
    ∧ call_apiKey cfg = Some "sk-abc123realkey"
    ∧ call_model cfg = ""
    ∧ call_temperature cfg = number_0_7
    ∧ call_maxTokens cfg = JsNumber.of_Z 2000
    ∧ call_timeout cfg = JsNumber.of_Z 30000.
Proof.
  destruct (getProviderConfigWithOverrides_unified_defaults
              env_unified sample_providers sample_api_keys (λ _ _, false)
              "openai" no_overrides fresh_manager eq_refl) as [H _].
  assert (env_unified !! "CONFIG_STRICT" ≠ Some "1") as Hstrict
    by (vm_compute; discriminate).
  assert ("openai" ∈ sample_providers) as Hin by (by left).
  destruct (H eq_refl Hstrict Hin)
    as (cfg & u' & Hr & _ & _ & Hk & m & t & x & o & Em & Et & Ex & Eo & Hc).
  exists cfg. split; [by eapply returns_U_run|].
  apply (returns_run env_unified) in Hk.
  split; [by injection Hk|].
  destruct Hc as [(_ & Hm & _)|(_ & -> & -> & -> & ->)].
  - apply (returns_run env_unified) in Hm. discriminate Hm.
  - by repeat split.
Defined.

End Config.

(** ** Unified read-files tool ([src/internal-tools/unified-read-files.ts]) *)

Module ReadFiles.

Local Open Scope list_scope.

(** A file is a sequence of bytes; a decoded string is a sequence of
    code points. *)
Abbreviation bytes := (list ascii).
Abbreviation text := (list N).

Definition byte_val (b : ascii) : N := N_of_ascii b.

Definition nl : N := 10.

(** *** [toString("utf-8")]

    The decoder reads one byte at a time; an ill-formed sequence yields
    U+FFFD and decoding resumes at the byte that broke it. *)

Definition REPLACEMENT : N := 65533.

(** A sequence under way: the code point so far, the continuation bytes
    still needed, and the range the next byte must lie in. *)
Record pending := {
  code_point : N;
  bytes_needed : nat;
  lower : N;
  upper : N
}.

Definition utf8_start (n : N) : text * option pending :=
  (if n <=? 127 then ([n], None)
   else if (194 <=? n) && (n <=? 223) then
     ([], Some {| code_point := n - 192; bytes_needed := 1;
                  lower := 128; upper := 191 |})
   else if (224 <=? n) && (n <=? 239) then
     ([], Some {| code_point := n - 224; bytes_needed := 2;
                  lower := if n =? 224 then 160 else 128;
                  upper := if n =? 237 then 159 else 191 |})
   else if (240 <=? n) && (n <=? 244) then
     ([], Some {| code_point := n - 240; bytes_needed := 3;
                  lower := if n =? 240 then 144 else 128;
                  upper := if n =? 244 then 143 else 191 |})
   else ([REPLACEMENT], None))%N.

Definition utf8_step (st : option pending) (n : N) : text * option pending :=
  match st with
  | None => utf8_start n
  | Some p =>
      if ((lower p <=? n) && (n <=? upper p))%N then
        let cp := (code_point p * 64 + (n - 128))%N in
        match bytes_needed p with
        | S (S k) =>
            ([], Some {| code_point := cp; bytes_needed := S k;
                         lower := 128; upper := 191 |})
        | _ => ([cp], None)
        end
      else
        let '(out, st') := utf8_start n in (REPLACEMENT :: out, st')
  end.

Fixpoint utf8_decode (st : option pending) (bs : bytes) : text :=
  match bs with
  | [] => match st with
          | None => []
          | Some _ => [REPLACEMENT]
          end
  | b :: rest =>
      let '(out, st') := utf8_step st (byte_val b) in
      out ++ utf8_decode st' rest
  end.

Definition toString (bs : bytes) : text := utf8_decode None bs.

(** *** String operations on decoded text *)

(** [s.split("\n")] *)
Fixpoint split (s : text) : list text :=
  match s with
  | [] => [[]]
  | c :: s' =>
      if (c =? nl)%N then [] :: split s'
      else match split s' with
           | piece :: pieces => (c :: piece) :: pieces
           | [] => [[c]]
           end
  end.

(** [l.join("\n")] *)
Fixpoint join (l : list text) : text :=
  match l with
  | [] => []
  | [x] => x
  | x :: rest => x ++ nl :: join rest
  end.

(** [s.lastIndexOf("\n")], [None] for [-1]. *)
Fixpoint lastIndexOf (s : text) : option nat :=
  match s with
  | [] => None
  | c :: s' =>
      match lastIndexOf s' with
      | Some i => Some (S i)
      | None => if (c =? nl)%N then Some 0%nat else None
      end
  end.

(** [l.slice(-n)] for a positive [n]. *)
Definition slice_last {A} (n : nat) (l : list A) : list A :=
  drop (length l - n) l.

(** [l.slice(start, end)] for non-negative indices. *)
Definition slice {A} (i j : nat) (l : list A) : list A :=
  drop i (take j l).

(** *** Files *)

(** What a path names: a regular file with its content, or something
    that cannot be opened or read, with the message of the error Node
    throws for it.  A path the map does not hold does not exist. *)
Inductive entry :=
  | Regular (content : bytes)
  | Unreadable (message : string).

Definition FileSystem := gmap string entry.

Definition ENOENT (path : string) : string :=
  "ENOENT: no such file or directory, open '" +:+ path +:+ "'".

(** [fs.open(path, "r")] (and [fs.stat], [fs.readFile]): the content, or
    the error message. *)
Definition open (fs : FileSystem) (path : string) : bytes + string :=
  match fs !! path with
  | Some (Regular content) => inl content
  | Some (Unreadable message) => inr message
  | None => inr (ENOENT path)
  end.

(** [fileHandle.read(chunk, 0, length, position)]: the bytes a read of a
    regular file delivers. *)
Definition read (file : bytes) (length position : nat) : bytes :=
  take length (drop position file).

Definition CHUNK_SIZE : nat := 1024.

(** *** [headFile]

    The state of the [while] loop is [lines], [buffer] and [bytesRead];
    [None] when the fuel runs out. *)
Fixpoint headFile_loop (fuel : nat) (file : bytes) (numLines : nat)
    (lines : list text) (buffer : text) (bytesRead : nat)
  : option (list text * text) :=
  match fuel with
  | O => None
  | S fuel' =>
      if (length lines <? numLines)%nat then
        let chunk := read file CHUNK_SIZE bytesRead in
        if (length chunk =? 0)%nat then Some (lines, buffer)
        else
          let bytesRead := (bytesRead + length chunk)%nat in
          let buffer := buffer ++ toString chunk in
          match lastIndexOf buffer with
          | Some newLineIndex =>
              let completeLines := split (take newLineIndex buffer) in
              let lines := lines ++ completeLines in
              let buffer := drop (S newLineIndex) buffer in
              if (numLines <=? length lines)%nat then Some (lines, buffer)
              else headFile_loop fuel' file numLines lines buffer bytesRead
          | None => headFile_loop fuel' file numLines lines buffer bytesRead
          end
      else Some (lines, buffer)
  end.

Definition headFile (file : bytes) (numLines : nat) : option text :=
  '(lines, buffer) ← headFile_loop (S (length file)) file numLines [] [] 0;
  let lines :=
    if (0 <? length buffer)%nat && (length lines <? numLines)%nat
    then lines ++ [buffer] else lines in
  Some (join (take numLines lines)).

(** *** [tailFile] *)

(** The [for] loop over [parts[length-1] .. parts[1]], given in that
    order. *)
Fixpoint unshift_parts (numLines : nat) (parts_rev : list text)
    (lines : list text) (linesFound : nat) : list text * nat :=
  match parts_rev with
  | [] => (lines, linesFound)
  | part :: rest =>
      let lines := part :: lines in
      let linesFound := S linesFound in
      if (numLines <=? linesFound)%nat then (lines, linesFound)
      else unshift_parts numLines rest lines linesFound
  end.

Fixpoint tailFile_loop (fuel : nat) (file : bytes) (numLines : nat)
    (lines : list text) (position linesFound : nat) (remainingText : text)
  : option (list text * nat * text) :=
  match fuel with
  | O => None
  | S fuel' =>
      if (0 <? position)%nat && (linesFound <? numLines)%nat then
        let chunkSize := Nat.min CHUNK_SIZE position in
        let position := (position - chunkSize)%nat in
        let text := toString (read file chunkSize position) in
        let combined := text ++ remainingText in
        let parts := split combined in
        let remainingText := hd [] parts in
        let '(lines, linesFound) :=
          unshift_parts numLines (rev (tl parts)) lines linesFound in
        tailFile_loop fuel' file numLines lines position linesFound
          remainingText
      else Some (lines, linesFound, remainingText)
  end.

Definition tailFile (file : bytes) (numLines : nat) : option text :=
  let fileSize := length file in
  if (fileSize =? 0)%nat then Some []
  else
    '(lines, linesFound, remainingText) ←
      tailFile_loop (S (length file)) file numLines [] fileSize 0 [];
    let lines :=
      if (linesFound <? numLines)%nat && (0 <? length remainingText)%nat
      then remainingText :: lines else lines in
    Some (join (slice_last numLines lines)).

(** *** [rangeFile] *)

(** The [for (const line of lines)] loop. *)
Fixpoint collect_lines (startLine endLine : nat) (lines : list text)
    (targetLines : list text) (currentLineNumber : nat) : list text * nat :=
  match lines with
  | [] => (targetLines, currentLineNumber)
  | line :: rest =>
      let currentLineNumber := S currentLineNumber in
      let targetLines :=
        if (startLine <=? currentLineNumber)%nat
           && (currentLineNumber <=? endLine)%nat
        then targetLines ++ [line] else targetLines in
      if (endLine <=? currentLineNumber)%nat
      then (targetLines, currentLineNumber)
      else collect_lines startLine endLine rest targetLines currentLineNumber
  end.

Fixpoint rangeFile_loop (fuel : nat) (file : bytes) (startLine endLine : nat)
    (targetLines : list text) (currentLineNumber : nat) (buffer : text)
    (bytesRead : nat) : option (list text) :=
  match fuel with
  | O => None
  | S fuel' =>
      if (currentLineNumber <? endLine)%nat then
        let chunk := read file CHUNK_SIZE bytesRead in
        if (length chunk =? 0)%nat then
          if (0 <? length buffer)%nat then
            let currentLineNumber := S currentLineNumber in
            if (startLine <=? currentLineNumber)%nat
               && (currentLineNumber <=? endLine)%nat
            then Some (targetLines ++ [buffer]) else Some targetLines
          else Some targetLines
        else
          let bytesRead := (bytesRead + length chunk)%nat in
          let buffer := buffer ++ toString chunk in
          match lastIndexOf buffer with
          | Some newLineIndex =>
              let lines := split (take newLineIndex buffer) in
              let buffer := drop (S newLineIndex) buffer in
              let '(targetLines, currentLineNumber) :=
                collect_lines startLine endLine lines targetLines
                  currentLineNumber in
              rangeFile_loop fuel' file startLine endLine targetLines
                currentLineNumber buffer bytesRead
          | None =>
              rangeFile_loop fuel' file startLine endLine targetLines
                currentLineNumber buffer bytesRead
          end
      else Some targetLines
  end.

Definition rangeFile (file : bytes) (startLine endLine : nat) : option text :=
  targetLines ←
    rangeFile_loop (S (length file)) file startLine endLine [] 0 [] 0;
  Some (join targetLines).

(** *** Schemas ([src/types/internal-tool-types.ts]) *)

(** The modes ["full"], ["head"], ["tail"] and ["range"]. *)
Inductive Mode := Full | Head | Tail | Range.

(** A JavaScript number given as a line count or line number: an
    integer, or a number that is none, with the string it prints as. *)
Inductive number := Integer (z : Z) | NotInteger (shown : string).

Record ReadFileArgs := {
  path : string;
  mode : option Mode;
  lines : option number;
  startLine : option number;
  endLine : option number
}.

(** [z.number().positive().int().optional()] *)
Definition positive_int (v : option number) : bool :=
  match v with
  | None => true
  | Some (Integer z) => 0 <? z
  | Some (NotInteger _) => false
  end.

(** [!v] for an optional number that passed [positive_int]. *)
Definition missing (v : option number) : bool :=
  match v with
  | None => true
  | Some (Integer z) => z =? 0
  | Some (NotInteger _) => false
  end.

Definition defined (v : option number) : bool :=
  match v with
  | None => false
  | Some _ => true
  end.

Definition number_gt (a b : option number) : bool :=
  match a, b with
  | Some (Integer x), Some (Integer y) => y <? x
  | _, _ => false
  end.

(** The [refine] predicate of [ReadFileArgsSchema], on data whose mode
    has been defaulted. *)
Definition refinement (m : Mode) (data : ReadFileArgs) : bool :=
  match m with
  | Head | Tail =>
      negb (missing (lines data))
      && negb (defined (startLine data) || defined (endLine data))
  | Range =>
      negb (missing (startLine data) || missing (endLine data))
      && negb (number_gt (startLine data) (endLine data))
      && negb (defined (lines data))
  | Full =>
      negb (defined (lines data) || defined (startLine data)
            || defined (endLine data))
  end.

(** [ReadFileArgsSchema.parse(args)]: the validated data, or [None] for a
    [ZodError]. *)
Definition ReadFileArgsSchema_parse (args : ReadFileArgs) : option ReadFileArgs :=
  let m := default Full (mode args) in
  if positive_int (lines args) && positive_int (startLine args)
     && positive_int (endLine args) && refinement m args
  then Some {| path := path args; mode := Some m; lines := lines args;
               startLine := startLine args; endLine := endLine args |}
  else None.

Definition arity_ok (n : nat) : bool := ((1 <=? n) && (n <=? 50))%nat.

(** [ReadMultipleFilesArgsSchema.parse(args)], on [args.files]. *)
Fixpoint parse_each (files : list ReadFileArgs) : option (list ReadFileArgs) :=
  match files with
  | [] => Some []
  | f :: rest =>
      v ← ReadFileArgsSchema_parse f;
      vs ← parse_each rest;
      Some (v :: vs)
  end.

Definition ReadMultipleFilesArgsSchema_parse (files : list ReadFileArgs)
  : option (list ReadFileArgs) :=
  if arity_ok (length files) then parse_each files else None.

(** The text of a [ZodError] lists its issues; the message of the
    refinement stands for it here. *)
Definition ZodError_message : string :=
  "Invalid parameter combination. For 'head' or 'tail' mode: 'lines' is required (startLine/endLine not allowed). For 'range' mode: both 'startLine' and 'endLine' are required (startLine <= endLine), 'lines' not allowed. For 'full' mode: no optional parameters should be provided.".

(** *** [readSingleFile] and [readMultipleFilesTool] *)

Record ReadFileResult := {
  success : bool;
  content : option text;
  error : option string
}.

Definition succeeded (c : text) : ReadFileResult :=
  {| success := true; content := Some c; error := None |}.

Definition failed (message : string) : ReadFileResult :=
  {| success := false; content := None; error := Some message |}.

Definition line_count (v : option number) : nat :=
  match v with
  | Some (Integer z) => Z.to_nat z
  | _ => 0
  end.

(** The result, and the paths the call opened.  [None] only if a read
    loop ran out of fuel. *)
Definition readSingleFile (fs : FileSystem) (args : ReadFileArgs)
  : option (ReadFileResult * list string) :=
  match ReadFileArgsSchema_parse args with
  | None => Some (failed ZodError_message, [])
  | Some validated =>
      let path := path validated in
      let with_file (f : bytes → option text) :=
        match open fs path with
        | inl file => c ← f file; Some (succeeded c, [path])
        | inr message => Some (failed message, [path])
        end in
      match default Full (mode validated) with
      | Head =>
          if missing (lines validated)
          then Some (failed "'lines' parameter required for head mode", [])
          else with_file (λ file, headFile file (line_count (lines validated)))
      | Tail =>
          if missing (lines validated)
          then Some (failed "'lines' parameter required for tail mode", [])
          else with_file (λ file, tailFile file (line_count (lines validated)))
      | Range =>
          if missing (startLine validated) || missing (endLine validated)
          then Some (failed "'startLine' and 'endLine' parameters required for range mode", [])
          else with_file (λ file,
                 rangeFile file (line_count (startLine validated))
                   (line_count (endLine validated)))
      | Full => with_file (λ file, Some (toString file))
      end
  end.

Record FileSlot := {
  slot_path : string;
  slot_content : option text;
  slot_error : option string
}.

Record ReadMultipleFilesResult := {
  batch_success : bool;
  results : list FileSlot
}.

(** [Promise.all(files.map(...))]: the slots in the order of the
    requests, and the paths opened. *)
Fixpoint read_each (fs : FileSystem) (files : list ReadFileArgs)
  : option (list FileSlot * list string) :=
  match files with
  | [] => Some ([], [])
  | fileRequest :: rest =>
      '(result, opened) ← readSingleFile fs fileRequest;
      '(slots, opened') ← read_each fs rest;
      Some ({| slot_path := path fileRequest;
               slot_content := content result;
               slot_error := error result |} :: slots,
            opened ++ opened')
  end.

Definition readMultipleFilesTool (fs : FileSystem) (files : list ReadFileArgs)
  : option (ReadMultipleFilesResult * list string) :=
  match ReadMultipleFilesArgsSchema_parse files with
  | None => Some ({| batch_success := false; results := [] |}, [])
  | Some validated =>
      '(slots, opened) ← read_each fs validated;
      Some ({| batch_success := true; results := slots |}, opened)
  end.

(** [readFileTool] *)
Definition readFileTool := readSingleFile.

(** *** The naive reference: read the whole file, split, slice, join *)

Definition naive_head (file : bytes) (n : nat) : text :=
  join (take n (split (toString file))).

Definition naive_tail (file : bytes) (n : nat) : text :=
  join (slice_last n (split (toString file))).

Definition naive_range (file : bytes) (startLine endLine : nat) : text :=
  join (slice (startLine - 1) endLine (split (toString file))).

(** *** Facts about [split], [join] and [lastIndexOf] *)

Lemma split_nonempty (s : text) : ∃ piece pieces, split s = piece :: pieces.
Proof.
  induction s as [|c s (p & ps & IH)]; cbn; [by eauto|].
  destruct (c =? nl)%N; [by eauto|]. rewrite IH. eauto.
Qed.

Lemma split_cons_other c (s : text) piece pieces :
  c ≠ nl → split s = piece :: pieces →
  split (c :: s) = (c :: piece) :: pieces.
Proof.
  intros Hc E. cbn. rewrite E.
  by destruct (N.eqb_spec c nl).
Qed.

Lemma split_no_newline (s : text) : nl ∉ s → split s = [s].
Proof.
  induction s as [|c s IH]; [done|]. intros H.
  apply not_elem_of_cons in H as [Hc Hs].
  apply split_cons_other; [done|by apply IH].
Qed.

Lemma split_pieces_no_newline (s : text) : Forall (λ p, nl ∉ p) (split s).
Proof.
  induction s as [|c s IH]; cbn.
  - repeat constructor. apply not_elem_of_nil.
  - destruct (N.eqb_spec c nl) as [->|Hc].
    + constructor; [apply not_elem_of_nil|done].
    + destruct (split s) as [|p ps].
      * repeat constructor. intros [?|?%elem_of_nil]%elem_of_cons; done.
      * apply Forall_cons in IH as [Hp Hps].
        constructor; [|done]. intros [?|?]%elem_of_cons; done.
Qed.

(** Splitting at a newline splits the list of pieces. *)
Lemma split_app_newline (x y : text) :
  split (x ++ nl :: y) = split x ++ split y.
Proof.
  induction x as [|c x IH]; [done|]. cbn [app split].
  destruct (c =? nl)%N; [by rewrite IH|].
  rewrite IH. destruct (split_nonempty x) as (p & ps & ->). done.
Qed.

(** Text appended after the last piece. *)
Lemma split_app_last (a b : text) ls x :
  split a = ls ++ [x] → split (a ++ b) = ls ++ split (x ++ b).
Proof.
  revert ls x. induction a as [|c a IH]; intros ls x E.
  - destruct ls as [|l [|l' ls]]; cbn in E; by simplify_eq.
  - cbn [app]. cbn [split] in E |- *.
    destruct (split_nonempty a) as (p & ps & Ea). rewrite Ea in E.
    destruct (N.eqb_spec c nl) as [->|Hc].
    + destruct ls as [|l ls]; [by destruct ps; simplify_eq|].
      cbn in E. injection E as <- E. rewrite Ea in IH.
      by rewrite (IH ls x E).
    + destruct ls as [|l ls]; cbn in E; simplify_eq.
      * rewrite (IH [] p); [|by rewrite Ea].
        cbn [app]. destruct (split_nonempty (p ++ b)) as (q & qs & Eq).
        rewrite Eq. symmetry. by apply split_cons_other.
      * rewrite (IH (p :: ls) x); [|by rewrite Ea]. done.
Qed.

(** Text put before the first piece. *)
Lemma split_app_first (t d : text) r ls :
  split d = r :: ls → split (t ++ d) = split (t ++ r) ++ ls.
Proof.
  intros E. induction t as [|c t IH]; cbn [app].
  - rewrite E. rewrite split_no_newline; [done|].
    pose proof (split_pieces_no_newline d) as H. rewrite E in H.
    by apply Forall_cons in H as [H _].
  - cbn [split]. rewrite IH.
    destruct (c =? nl)%N; [done|].
    by destruct (split_nonempty (t ++ r)) as (p & ps & ->).
Qed.

Lemma lastIndexOf_None (s : text) : lastIndexOf s = None → nl ∉ s.
Proof.
  induction s as [|c s IH]; cbn; [intros _; apply not_elem_of_nil|].
  destruct (lastIndexOf s); [done|].
  destruct (N.eqb_spec c nl); [done|]. intros _.
  apply not_elem_of_cons. auto.
Qed.

Lemma lastIndexOf_Some (s : text) i :
  lastIndexOf s = Some i →
  s = take i s ++ nl :: drop (S i) s ∧ nl ∉ drop (S i) s.
Proof.
  revert i. induction s as [|c s IH]; cbn; [done|]. intros i.
  destruct (lastIndexOf s) as [j|] eqn:Ej.
  - intros [= <-]. destruct (IH j eq_refl) as [E H]. cbn.
    split; [by rewrite <- E|done].
  - destruct (N.eqb_spec c nl) as [->|]; [|done]. intros [= <-]. cbn.
    split; [by rewrite drop_0|]. rewrite drop_0. by apply lastIndexOf_None.
Qed.

(** The pieces of a buffer cut at its last newline. *)
Lemma split_at_last_newline (s : text) i :
  lastIndexOf s = Some i →
  split s = split (take i s) ++ [drop (S i) s].
Proof.
  intros H. destruct (lastIndexOf_Some s i H) as [E Hn].
  rewrite E at 1. rewrite split_app_newline.
  by rewrite (split_no_newline _ Hn).
Qed.

(** *** The lines the forward readers see

    [headFile] and [rangeFile] take a final newline as the end of the
    last line: of the pieces of [split] they drop an empty last one. *)
Fixpoint lines_of (pieces : list text) : list text :=
  match pieces with
  | [] => []
  | [piece] => match piece with
               | [] => []
               | _ => [piece]
               end
  | piece :: rest => piece :: lines_of rest
  end.

Lemma lines_of_app (ls ms : list text) :
  ms ≠ [] → lines_of (ls ++ ms) = ls ++ lines_of ms.
Proof.
  intros Hms. induction ls as [|l ls IH]; [done|].
  cbn [app]. rewrite <- IH.
  destruct (ls ++ ms) as [|y ys] eqn:E; [|done].
  by apply app_eq_nil in E as [_ ->].
Qed.

Lemma lines_of_snoc (ls : list text) x :
  lines_of (ls ++ [x]) = ls ++ match x with [] => [] | _ => [x] end.
Proof. rewrite lines_of_app by done. by destruct x. Qed.

Lemma take_plus_app {A} (l : list A) i k :
  take (i + k) l = take i l ++ take k (drop i l).
Proof.
  revert l. induction i as [|i IH]; intros [|x l]; cbn;
    rewrite ?take_nil; try done.
  by rewrite IH.
Qed.

Lemma toString_ascii (bs : bytes) :
  Forall (λ b, (byte_val b < 128)%N) bs → toString bs = map byte_val bs.
Proof.
  unfold toString. induction 1 as [|b bs Hb _ IH]; [done|].
  cbn [utf8_decode utf8_step map]. unfold utf8_start.
  assert ((byte_val b <=? 127)%N = true) as -> by (apply N.leb_le; lia).
  cbn. by rewrite IH.
Qed.

(** One more line, counted as line [S (length L)]. *)
Lemma slice_snoc {A} (s e : nat) (L : list A) x :
  (length L < e)%nat →
  (if (s <=? S (length L))%nat && (S (length L) <=? e)%nat
   then slice (s - 1) e L ++ [x] else slice (s - 1) e L)
  = slice (s - 1) e (L ++ [x]).
Proof.
  intros Hlt. unfold slice.
  rewrite (take_ge L) by lia.
  rewrite (take_ge (L ++ [x])) by (rewrite length_app; cbn; lia).
  rewrite (proj2 (Nat.leb_le (S (length L)) e)) by lia.
  rewrite andb_true_r.
  destruct (Nat.leb_spec s (S (length L))).
  - by rewrite drop_app_le by lia.
  - rewrite !drop_ge; [done| |lia]. rewrite length_app. cbn. lia.
Qed.

Lemma collect_lines_spec s e (ls L : list text) :
  (length L < e)%nat →
  collect_lines s e ls (slice (s - 1) e L) (length L)
  = (slice (s - 1) e (L ++ ls), Nat.min e (length (L ++ ls))).
Proof.
  revert L. induction ls as [|line rest IH]; intros L Hlt.
  - rewrite app_nil_r. cbn. f_equal. lia.
  - cbn [collect_lines]. rewrite slice_snoc by done.
    change (L ++ line :: rest) with (L ++ [line] ++ rest).
    rewrite app_assoc.
    destruct (Nat.leb_spec e (S (length L))) as [Hle|Hgt].
    + assert (e ≤ length (L ++ [line]))%nat as He
        by (rewrite length_app; cbn; lia).
      unfold slice. rewrite (take_app_le (L ++ [line]) rest e He).
      rewrite !length_app. cbn [length].
      replace (Nat.min e (length L + 1 + length rest)) with (S (length L))
        by lia.
      done.
    + replace (S (length L)) with (length (L ++ [line]))
        by (rewrite length_app; cbn; lia).
      apply IH. rewrite length_app. cbn. lia.
Qed.

Lemma slice_last_all {A} n (l : list A) :
  (length l ≤ n)%nat → slice_last n l = l.
Proof.
  intros H. unfold slice_last.
  by replace (length l - n)%nat with 0%nat by lia.
Qed.

Lemma length_slice_last {A} n (l : list A) :
  length (slice_last n l) = Nat.min n (length l).
Proof. unfold slice_last. rewrite length_drop. lia. Qed.

Lemma slice_last_app {A} n (k l : list A) :
  (n ≤ length l)%nat → slice_last n (k ++ l) = slice_last n l.
Proof.
  intros H. unfold slice_last. rewrite length_app.
  replace (length k + length l - n)%nat
    with (length k + (length l - n))%nat by lia.
  by rewrite <- drop_drop, drop_app_length.
Qed.

Lemma unshift_parts_spec n (ps lines : list text) :
  (length lines < n)%nat →
  unshift_parts n ps lines (length lines)
  = (slice_last n (rev ps ++ lines), Nat.min n (length (rev ps ++ lines))).
Proof.
  revert lines. induction ps as [|part rest IH]; intros lines Hlt.
  - cbn. unfold slice_last. f_equal; [|lia].
    replace (length lines - n)%nat with 0%nat by lia. done.
  - cbn [unshift_parts rev]. rewrite <- app_assoc. cbn [app].
    destruct (Nat.leb_spec n (S (length lines))) as [Hle|Hgt].
    + f_equal.
      * unfold slice_last. rewrite length_app. cbn [length].
        replace (length (rev rest) + S (length lines) - n)%nat
          with (length (rev rest)) by lia.
        by rewrite drop_app_length.
      * rewrite length_app. cbn. lia.
    + apply (IH (part :: lines)). cbn. lia.
Qed.

(** The pieces [tailFile] returns: the last [n], and all of them but
    an empty first one when there are no more than [n]. *)
Definition tail_pieces (n : nat) (pieces : list text) : list text :=
  if (n <? length pieces)%nat then slice_last n pieces
  else match pieces with
       | [] :: rest => rest
       | _ => pieces
       end.

(** *** The text the readers decode

    Each chunk is decoded by itself.  [headFile] and [rangeFile] read the
    chunks of [CHUNK_SIZE] bytes counted from the start of the file,
    [tailFile] those counted from its end. *)

(** The state of the decoder after the bytes [bs]. *)
Fixpoint utf8_state (st : option pending) (bs : bytes) : option pending :=
  match bs with
  | [] => st
  | b :: rest => utf8_state (snd (utf8_step st (byte_val b))) rest
  end.

Definition chunk_count (file : bytes) : nat :=
  (length file + (CHUNK_SIZE - 1)) / CHUNK_SIZE.

Definition forward_chunk (file : bytes) (i : nat) : bytes :=
  read file CHUNK_SIZE (i * CHUNK_SIZE).

Definition backward_chunk (file : bytes) (i : nat) : bytes :=
  let position := (length file - i * CHUNK_SIZE)%nat in
  let chunkSize := Nat.min CHUNK_SIZE position in
  read file chunkSize (position - chunkSize).

(** The text of the first [k] chunks, and of the last [k]. *)
Definition forward_upto (file : bytes) (k : nat) : text :=
  flat_map (λ i, toString (forward_chunk file i)) (seq 0 k).

Definition backward_upto (file : bytes) (k : nat) : text :=
  flat_map (λ i, toString (backward_chunk file i)) (rev (seq 0 k)).

Definition forward_text (file : bytes) : text :=
  forward_upto file (chunk_count file).

Definition backward_text (file : bytes) : text :=
  backward_upto file (chunk_count file).

(** No character is under way after the first [position] bytes. *)
Definition clean_cut (file : bytes) (position : nat) : bool :=
  match utf8_state None (take position file) with
  | None => true
  | Some _ => false
  end.

(** The places inside the file where one chunk ends and the next
    begins. *)
Definition forward_cuts (file : bytes) : list nat :=
  map (λ j, j * CHUNK_SIZE)%nat (seq 1 (chunk_count file - 1)).

Definition backward_cuts (file : bytes) : list nat :=
  map (λ j, length file - j * CHUNK_SIZE)%nat (seq 1 (chunk_count file - 1)).

Lemma utf8_decode_app st (a b : bytes) :
  utf8_state st a = None →
  utf8_decode st (a ++ b) = utf8_decode st a ++ utf8_decode None b.
Proof.
  revert st. induction a as [|x a IH]; intros st H; cbn in H.
  - by subst st.
  - cbn [app utf8_decode].
    destruct (utf8_step st (byte_val x)) as [out st'] eqn:E. cbn in H.
    by rewrite (IH st' H), app_assoc.
Qed.

Lemma utf8_state_app st (a b : bytes) :
  utf8_state st (a ++ b) = utf8_state (utf8_state st a) b.
Proof. revert st. induction a as [|x a IH]; intros st; [done|apply IH]. Qed.

Lemma utf8_state_ascii (bs : bytes) :
  Forall (λ b, (byte_val b < 128)%N) bs → utf8_state None bs = None.
Proof.
  induction 1 as [|b bs Hb _ IH]; [done|].
  cbn [utf8_state utf8_step]. unfold utf8_start.
  assert ((byte_val b <=? 127)%N = true) as -> by (apply N.leb_le; lia).
  exact IH.
Qed.

Lemma chunk_count_enough (file : bytes) :
  (length file ≤ chunk_count file * CHUNK_SIZE)%nat.
Proof.
  unfold chunk_count, CHUNK_SIZE.
  pose proof (Nat.div_mod_eq (length file + (1024 - 1)) 1024).
  pose proof (Nat.mod_upper_bound (length file + (1024 - 1)) 1024).
  lia.
Qed.

Lemma chunk_count_least (file : bytes) k :
  (length file ≤ k * CHUNK_SIZE)%nat → (chunk_count file ≤ k)%nat.
Proof.
  unfold chunk_count, CHUNK_SIZE. intros H.
  apply Nat.lt_succ_r, Nat.Div0.div_lt_upper_bound. lia.
Qed.

Lemma chunk_count_small (file : bytes) :
  (length file ≤ CHUNK_SIZE)%nat → (chunk_count file ≤ 1)%nat.
Proof. intros H. apply chunk_count_least. lia. Qed.

Section Reading.

Variable file : bytes.

Lemma length_read len pos :
  length (read file len pos) = Nat.min len (length file - pos).
Proof. unfold read. by rewrite length_take, length_drop. Qed.

Lemma read_past_end len pos : (length file ≤ pos)%nat → read file len pos = [].
Proof. intros H. unfold read. by rewrite drop_ge, take_nil. Qed.

Lemma forward_upto_S k :
  forward_upto file (S k)
  = forward_upto file k ++ toString (forward_chunk file k).
Proof.
  unfold forward_upto. rewrite seq_S, flat_map_app. cbn. by rewrite app_nil_r.
Qed.

Lemma backward_upto_S k :
  backward_upto file (S k)
  = toString (backward_chunk file k) ++ backward_upto file k.
Proof.
  unfold backward_upto. by rewrite seq_S, rev_app_distr.
Qed.

Lemma forward_upto_stable k j :
  (length file ≤ k * CHUNK_SIZE)%nat →
  forward_upto file (k + j) = forward_upto file k.
Proof.
  intros Hk. induction j as [|j IH]; [by rewrite Nat.add_0_r|].
  rewrite Nat.add_succ_r, forward_upto_S, IH.
  unfold forward_chunk. rewrite read_past_end by lia. apply app_nil_r.
Qed.

Lemma backward_upto_stable k j :
  (length file ≤ k * CHUNK_SIZE)%nat →
  backward_upto file (k + j) = backward_upto file k.
Proof.
  intros Hk. induction j as [|j IH]; [by rewrite Nat.add_0_r|].
  rewrite Nat.add_succ_r, backward_upto_S, IH.
  unfold backward_chunk.
  replace (length file - (k + j) * CHUNK_SIZE)%nat with 0%nat by lia.
  by rewrite Nat.min_0_r.
Qed.

(** Once the chunks read cover the file, the text read is all of it. *)
Lemma forward_upto_all k :
  (length file ≤ k * CHUNK_SIZE)%nat → forward_upto file k = forward_text file.
Proof.
  intros Hk. unfold forward_text.
  pose proof (chunk_count_least file k Hk).
  replace k with (chunk_count file + (k - chunk_count file))%nat by lia.
  apply forward_upto_stable, chunk_count_enough.
Qed.

Lemma backward_upto_all k :
  (length file ≤ k * CHUNK_SIZE)%nat →
  backward_upto file k = backward_text file.
Proof.
  intros Hk. unfold backward_text.
  pose proof (chunk_count_least file k Hk).
  replace k with (chunk_count file + (k - chunk_count file))%nat by lia.
  apply backward_upto_stable, chunk_count_enough.
Qed.

(** What has been read is the start, or the end, of the text. *)
Lemma forward_upto_prefix k :
  ∃ rest, forward_text file = forward_upto file k ++ rest.
Proof.
  destruct (Nat.le_gt_cases (length file) (k * CHUNK_SIZE)) as [H|H].
  - exists []. by rewrite app_nil_r, forward_upto_all.
  - assert (∀ j, ∃ rest,
              forward_upto file (k + j) = forward_upto file k ++ rest) as Hj.
    { induction j as [|j [rest IH]].
      - exists []. by rewrite Nat.add_0_r, app_nil_r.
      - eexists. by rewrite Nat.add_succ_r, forward_upto_S, IH, <- app_assoc. }
    destruct (Hj (chunk_count file - k)%nat) as [rest Hrest].
    exists rest. rewrite <- Hrest. unfold forward_text. f_equal.
    pose proof (chunk_count_enough file). nia.
Qed.

Lemma backward_upto_suffix k :
  ∃ rest, backward_text file = rest ++ backward_upto file k.
Proof.
  destruct (Nat.le_gt_cases (length file) (k * CHUNK_SIZE)) as [H|H].
  - exists []. by rewrite backward_upto_all.
  - assert (∀ j, ∃ rest,
              backward_upto file (k + j) = rest ++ backward_upto file k) as Hj.
    { induction j as [|j [rest IH]].
      - exists []. by rewrite Nat.add_0_r.
      - eexists. by rewrite Nat.add_succ_r, backward_upto_S, IH, app_assoc. }
    destruct (Hj (chunk_count file - k)%nat) as [rest Hrest].
    exists rest. rewrite <- Hrest. unfold backward_text. f_equal.
    pose proof (chunk_count_enough file). nia.
Qed.

(** Enough complete lines have been read. *)
Lemma lines_read_enough n lines buffer k :
  split (forward_upto file k) = lines ++ [buffer] →
  (n ≤ length lines)%nat →
  take n lines = take n (lines_of (split (forward_text file))).
Proof.
  intros E Hn. destruct (forward_upto_prefix k) as [rest ->].
  rewrite (split_app_last _ _ _ _ E).
  destruct (split_nonempty (buffer ++ rest)) as (p & ps & Ep).
  rewrite lines_of_app by (by rewrite Ep).
  by rewrite take_app_le.
Qed.

(** The forward readers after [k] chunks: the position, and what the
    next read does. *)
Lemma forward_read_done k pos :
  pos = Nat.min (k * CHUNK_SIZE) (length file) →
  length (read file CHUNK_SIZE pos) = 0%nat →
  forward_upto file k = forward_text file.
Proof.
  intros -> Hz. rewrite length_read in Hz. unfold CHUNK_SIZE in *.
  apply forward_upto_all. unfold CHUNK_SIZE. lia.
Qed.

Lemma forward_read_more k pos :
  pos = Nat.min (k * CHUNK_SIZE) (length file) →
  length (read file CHUNK_SIZE pos) ≠ 0%nat →
  forward_upto file (S k)
  = forward_upto file k ++ toString (read file CHUNK_SIZE pos)
  ∧ (pos + length (read file CHUNK_SIZE pos))%nat
    = Nat.min (S k * CHUNK_SIZE) (length file).
Proof.
  intros -> Hnz. rewrite length_read in *. unfold CHUNK_SIZE in *.
  assert (k * 1024 < length file)%nat as Hlt by lia.
  rewrite (Nat.min_l (k * 1024)) by lia.
  split; [apply forward_upto_S|lia].
Qed.

Lemma headFile_loop_spec n fuel lines buffer pos k :
  pos = Nat.min (k * CHUNK_SIZE) (length file) →
  split (forward_upto file k) = lines ++ [buffer] →
  (length file - pos < fuel)%nat →
  ∃ lines' buffer',
    headFile_loop fuel file n lines buffer pos = Some (lines', buffer')
    ∧ take n (if (0 <? length buffer')%nat && (length lines' <? n)%nat
              then lines' ++ [buffer'] else lines')
      = take n (lines_of (split (forward_text file))).
Proof.
  revert lines buffer pos k.
  induction fuel as [|fuel IH]; intros lines buffer pos k Hpos E Hfuel; [lia|].
  cbn [headFile_loop].
  destruct (length lines <? n)%nat eqn:Hlt.
  2:{ eexists _, _. split; [done|]. rewrite Hlt, andb_false_r.
      apply Nat.ltb_ge in Hlt. by eapply lines_read_enough. }
  apply Nat.ltb_lt in Hlt.
  destruct (Nat.eqb_spec (length (read file CHUNK_SIZE pos)) 0) as [Hz|Hnz].
  { eexists _, _. split; [done|].
    rewrite (forward_read_done k pos Hpos Hz) in E.
    rewrite E, lines_of_snoc.
    rewrite (proj2 (Nat.ltb_lt _ _) Hlt), andb_true_r.
    destruct buffer; [by rewrite app_nil_r|done]. }
  destruct (forward_read_more k pos Hpos Hnz) as [Hnext Hpos'].
  assert (length file - (pos + length (read file CHUNK_SIZE pos)) < fuel)%nat
    as Hfuel' by (rewrite length_read in *; unfold CHUNK_SIZE in *; lia).
  assert (split (forward_upto file (S k))
          = lines ++ split (buffer ++ toString (read file CHUNK_SIZE pos)))
    as Esplit by (rewrite Hnext; by apply split_app_last).
  destruct (lastIndexOf (buffer ++ toString (read file CHUNK_SIZE pos)))
    as [i|] eqn:Ei.
  - rewrite (split_at_last_newline _ _ Ei), app_assoc in Esplit.
    destruct (n <=? length (lines ++ split (take i
                (buffer ++ toString (read file CHUNK_SIZE pos)))))%nat
      eqn:Hen.
    + eexists _, _. split; [done|].
      apply Nat.leb_le in Hen.
      rewrite (proj2 (Nat.ltb_ge _ _) Hen), andb_false_r.
      by eapply lines_read_enough.
    + by apply (IH _ _ _ (S k)).
  - rewrite (split_no_newline _ (lastIndexOf_None _ Ei)) in Esplit.
    by apply (IH _ _ _ (S k)).
Qed.

Theorem headFile_lines n :
  headFile file n
  = Some (join (take n (lines_of (split (forward_text file))))).
Proof.
  unfold headFile.
  destruct (headFile_loop_spec n (S (length file)) [] [] 0 0)
    as (lines & buffer & -> & H); [done|done|lia|].
  cbn [mbind option_bind]. by rewrite H.
Qed.

Lemma rangeFile_loop_spec s e fuel (L target : list text) cur buffer pos k :
  pos = Nat.min (k * CHUNK_SIZE) (length file) →
  split (forward_upto file k) = L ++ [buffer] →
  target = slice (s - 1) e L →
  cur = Nat.min e (length L) →
  (length file - pos < fuel)%nat →
  rangeFile_loop fuel file s e target cur buffer pos
  = Some (slice (s - 1) e (lines_of (split (forward_text file)))).
Proof.
  revert L target cur buffer pos k.
  induction fuel as [|fuel IH];
    intros L target cur buffer pos k Hpos E -> -> Hfuel; [lia|].
  cbn [rangeFile_loop].
  destruct (Nat.ltb_spec (Nat.min e (length L)) e) as [Hlt|Hge].
  2:{ f_equal. unfold slice. f_equal.
      eapply lines_read_enough; [exact E|lia]. }
  assert (length L < e)%nat as HL by lia.
  replace (Nat.min e (length L)) with (length L) by lia.
  destruct (Nat.eqb_spec (length (read file CHUNK_SIZE pos)) 0) as [Hz|Hnz].
  { rewrite (forward_read_done k pos Hpos Hz) in E.
    rewrite E, lines_of_snoc.
    destruct buffer as [|c buffer].
    - by rewrite app_nil_r.
    - change (0 <? length (c :: buffer))%nat with true. cbv iota.
      rewrite <- slice_snoc by done.
      by destruct ((s <=? S (length L))%nat && (S (length L) <=? e)%nat). }
  destruct (forward_read_more k pos Hpos Hnz) as [Hnext Hpos'].
  assert (length file - (pos + length (read file CHUNK_SIZE pos)) < fuel)%nat
    as Hfuel' by (rewrite length_read in *; unfold CHUNK_SIZE in *; lia).
  assert (split (forward_upto file (S k))
          = L ++ split (buffer ++ toString (read file CHUNK_SIZE pos)))
    as Esplit by (rewrite Hnext; by apply split_app_last).
  destruct (lastIndexOf (buffer ++ toString (read file CHUNK_SIZE pos)))
    as [i|] eqn:Ei.
  - rewrite (split_at_last_newline _ _ Ei), app_assoc in Esplit.
    rewrite collect_lines_spec by done.
    by eapply (IH _ _ _ _ _ (S k)).
  - rewrite (split_no_newline _ (lastIndexOf_None _ Ei)) in Esplit.
    eapply (IH _ _ _ _ _ (S k)); [exact Hpos'|exact Esplit|done|lia|done].
Qed.

Theorem rangeFile_lines s e :
  rangeFile file s e
  = Some (join (slice (s - 1) e (lines_of (split (forward_text file))))).
Proof.
  unfold rangeFile.
  rewrite (rangeFile_loop_spec s e (S (length file)) [] [] 0 [] 0 0);
    [done|done|done|unfold slice; by rewrite take_nil, drop_nil
    |cbn; lia|lia].
Qed.

Lemma tailFile_loop_spec n fuel (lines rest : list text) pos found r k :
  pos = (length file - k * CHUNK_SIZE)%nat →
  split (backward_upto file k) = r :: rest →
  lines = slice_last n rest →
  found = Nat.min n (length rest) →
  (pos < fuel)%nat →
  ∃ lines' found' r',
    tailFile_loop fuel file n lines pos found r = Some (lines', found', r')
    ∧ slice_last n (if (found' <? n)%nat && (0 <? length r')%nat
                    then r' :: lines' else lines')
      = tail_pieces n (split (backward_text file)).
Proof.
  revert lines rest pos found r k.
  induction fuel as [|fuel IH]; intros lines rest pos found r k Hpos E -> ->
    Hfuel; [lia|].
  cbn [tailFile_loop].
  destruct ((0 <? pos)%nat && (Nat.min n (length rest) <? n)%nat) eqn:Hc.
  - apply andb_true_iff in Hc as [Hp%Nat.ltb_lt Hf%Nat.ltb_lt].
    assert (length rest < n)%nat as Hr by lia.
    assert (slice_last n rest = rest) as Hsl.
    { unfold slice_last. by replace (length rest - n)%nat with 0%nat by lia. }
    rewrite Hsl. replace (Nat.min n (length rest)) with (length rest) by lia.
    set (chunkSize := Nat.min CHUNK_SIZE pos).
    assert (read file chunkSize (pos - chunkSize) = backward_chunk file k)
      as Hchunk by (unfold backward_chunk; by rewrite <- Hpos).
    rewrite Hchunk.
    pose proof (split_app_first (toString (backward_chunk file k)) _ _ _ E)
      as Es.
    rewrite <- backward_upto_S in Es.
    destruct (split_nonempty (toString (backward_chunk file k) ++ r))
      as (p & ps & Ep).
    rewrite Ep in Es |- *. cbn [hd tl].
    rewrite unshift_parts_spec by done. rewrite rev_involutive.
    eapply (IH _ _ _ _ _ (S k));
      [subst chunkSize; unfold CHUNK_SIZE in *; lia|exact Es|done|done
      |subst chunkSize; unfold CHUNK_SIZE; lia].
  - eexists _, _, _. split; [done|].
    unfold tail_pieces.
    destruct (Nat.ltb_spec (Nat.min n (length rest)) n) as [Hf|Hf].
    + (* the start of the file has been reached *)
      rewrite andb_true_r in Hc. apply Nat.ltb_ge in Hc.
      assert (length file ≤ k * CHUNK_SIZE)%nat as Hall by lia.
      rewrite (backward_upto_all k Hall) in E. rewrite E.
      assert (slice_last n rest = rest) as ->.
      { unfold slice_last. by replace (length rest - n)%nat with 0%nat by lia. }
      cbn [andb length].
      destruct (Nat.ltb_spec n (S (length rest))); [lia|].
      destruct r as [|c r]; cbn [length Nat.ltb Nat.leb];
        unfold slice_last; cbn [length].
      * by replace (length rest - n)%nat with 0%nat by lia.
      * by replace (S (length rest) - n)%nat with 0%nat by lia.
    + (* [n] lines have been found *)
      cbn [andb].
      destruct (backward_upto_suffix k) as [before ->].
      rewrite (split_app_first _ _ _ _ E).
      destruct (split_nonempty (before ++ r)) as (p & ps & ->).
      rewrite length_app. cbn [length].
      destruct (Nat.ltb_spec n (S (length ps) + length rest)); [|lia].
      rewrite (slice_last_all n (slice_last n rest))
        by (rewrite length_slice_last; lia).
      symmetry. apply slice_last_app. lia.
Qed.

Theorem tailFile_pieces n :
  tailFile file n
  = Some (join (tail_pieces n (split (backward_text file)))).
Proof.
  unfold tailFile.
  destruct (Nat.eqb_spec (length file) 0) as [Hz|Hnz].
  { assert (backward_text file = []) as ->.
    { rewrite <- (backward_upto_all 0) by lia. done. }
    unfold tail_pieces. by destruct n. }
  destruct (tailFile_loop_spec n (S (length file)) [] [] (length file) 0 [] 0)
    as (lines & found & r & -> & H).
  - cbn. lia.
  - done.
  - by destruct n.
  - cbn. lia.
  - lia.
  - cbn [mbind option_bind]. by rewrite H.
Qed.

(** *** When the text decoded in chunks is the text of the file *)

Lemma clean_cut_state pos :
  clean_cut file pos = true → utf8_state None (take pos file) = None.
Proof. unfold clean_cut. by destruct (utf8_state None (take pos file)). Qed.

Lemma forward_cut_clean j :
  forallb (clean_cut file) (forward_cuts file) = true →
  (j * CHUNK_SIZE < length file)%nat →
  utf8_state None (take (j * CHUNK_SIZE) file) = None.
Proof.
  intros Hall Hj. destruct j as [|j]; [done|].
  apply clean_cut_state.
  rewrite forallb_forall in Hall. apply Hall.
  unfold forward_cuts. apply in_map_iff. exists (S j). split; [done|].
  apply in_seq.
  assert (¬ (chunk_count file ≤ S j)%nat); [|lia].
  intros Hle. pose proof (chunk_count_enough file). nia.
Qed.

Lemma backward_cut_clean j :
  forallb (clean_cut file) (backward_cuts file) = true →
  (j * CHUNK_SIZE < length file)%nat → (0 < j)%nat →
  utf8_state None (take (length file - j * CHUNK_SIZE) file) = None.
Proof.
  intros Hall Hj Hpos.
  apply clean_cut_state.
  rewrite forallb_forall in Hall. apply Hall.
  unfold backward_cuts.
  apply (in_map (λ j, length file - j * CHUNK_SIZE)%nat).
  apply in_seq.
  assert (¬ (chunk_count file ≤ j)%nat); [|lia].
  intros Hle. pose proof (chunk_count_enough file). nia.
Qed.

Lemma forward_upto_toString k :
  forallb (clean_cut file) (forward_cuts file) = true →
  forward_upto file k = toString (take (k * CHUNK_SIZE) file).
Proof.
  intros Hall. induction k as [|k IH]; [done|].
  rewrite forward_upto_S, IH. unfold forward_chunk.
  destruct (Nat.le_gt_cases (length file) (k * CHUNK_SIZE)) as [H|H].
  - rewrite read_past_end by done. rewrite app_nil_r.
    rewrite !take_ge; [done|lia|lia].
  - unfold toString at 3.
    replace (S k * CHUNK_SIZE)%nat with (k * CHUNK_SIZE + CHUNK_SIZE)%nat
      by lia.
    rewrite take_plus_app, utf8_decode_app; [done|].
    by apply forward_cut_clean.
Qed.

Theorem forward_text_toString :
  forallb (clean_cut file) (forward_cuts file) = true →
  forward_text file = toString file.
Proof.
  intros Hall. unfold forward_text. rewrite forward_upto_toString by done.
  by rewrite take_ge by apply chunk_count_enough.
Qed.

Lemma backward_chunk_bytes k :
  drop (length file - S k * CHUNK_SIZE) file
  = backward_chunk file k ++ drop (length file - k * CHUNK_SIZE) file.
Proof.
  unfold backward_chunk, read.
  set (position := (length file - k * CHUNK_SIZE)%nat).
  set (chunkSize := Nat.min CHUNK_SIZE position).
  replace (length file - S k * CHUNK_SIZE)%nat with (position - chunkSize)%nat
    by (subst position chunkSize; unfold CHUNK_SIZE; lia).
  rewrite <- (take_drop chunkSize (drop (position - chunkSize) file)) at 1.
  f_equal. rewrite drop_drop. f_equal.
  subst position chunkSize. lia.
Qed.

Lemma backward_upto_toString k :
  forallb (clean_cut file) (backward_cuts file) = true →
  backward_upto file k = toString (drop (length file - k * CHUNK_SIZE) file).
Proof.
  intros Hall. induction k as [|k IH].
  { cbn. by rewrite Nat.sub_0_r, drop_all. }
  rewrite backward_upto_S, IH, backward_chunk_bytes.
  destruct k as [|k].
  { cbn [Nat.mul]. rewrite Nat.sub_0_r, drop_all.
    unfold toString. cbn [utf8_decode]. by rewrite !app_nil_r. }
  destruct (Nat.le_gt_cases (length file) (S k * CHUNK_SIZE)) as [H|H].
  { unfold backward_chunk.
    replace (length file - S k * CHUNK_SIZE)%nat with 0%nat by lia.
    by rewrite Nat.min_0_r. }
  unfold toString at 3. rewrite utf8_decode_app; [done|].
  (* the chunk starts and ends between characters *)
  pose proof (backward_cut_clean (S k) Hall H ltac:(lia)) as Hend.
  rewrite <- (take_drop (length file - S (S k) * CHUNK_SIZE)
                (take (length file - S k * CHUNK_SIZE) file)) in Hend.
  rewrite utf8_state_app in Hend.
  rewrite take_take in Hend.
  replace (Nat.min (length file - S (S k) * CHUNK_SIZE)
             (length file - S k * CHUNK_SIZE))
    with (length file - S (S k) * CHUNK_SIZE)%nat in Hend by lia.
  assert (utf8_state None (take (length file - S (S k) * CHUNK_SIZE) file)
          = None) as Hstart.
  { destruct (Nat.le_gt_cases (length file) (S (S k) * CHUNK_SIZE)) as [H'|H'].
    - by replace (length file - S (S k) * CHUNK_SIZE)%nat with 0%nat by lia.
    - apply backward_cut_clean; [done|done|lia]. }
  rewrite Hstart in Hend.
  assert (drop (length file - S (S k) * CHUNK_SIZE)
            (take (length file - S k * CHUNK_SIZE) file)
          = backward_chunk file (S k)) as <-; [|exact Hend].
  pose proof (backward_chunk_bytes (S k)) as Hb.
  apply (f_equal (take (length (backward_chunk file (S k))))) in Hb.
  rewrite take_app_length in Hb. rewrite <- Hb.
  rewrite take_drop_commute. f_equal. f_equal.
  unfold backward_chunk. rewrite length_read. unfold CHUNK_SIZE in *. lia.
Qed.

Theorem backward_text_toString :
  forallb (clean_cut file) (backward_cuts file) = true →
  backward_text file = toString file.
Proof.
  intros Hall. unfold backward_text. rewrite backward_upto_toString by done.
  pose proof (chunk_count_enough file).
  by replace (length file - chunk_count file * CHUNK_SIZE)%nat with 0%nat
    by lia.
Qed.

Lemma clean_cut_ascii pos :
  Forall (λ b, (byte_val b < 128)%N) file → clean_cut file pos = true.
Proof.
  intros H. unfold clean_cut.
  by rewrite utf8_state_ascii by (by apply Forall_take).
Qed.

End Reading.

(** *** Termination: the loops finish within their fuel, whatever the
    bytes *)

Lemma headFile_loop_total fuel file n lines buffer pos :
  (length file - pos < fuel)%nat →
  is_Some (headFile_loop fuel file n lines buffer pos).
Proof.
  revert lines buffer pos.
  induction fuel as [|fuel IH]; intros lines buffer pos Hfuel; [lia|].
  cbn [headFile_loop].
  destruct (length lines <? n)%nat; [|done].
  destruct (Nat.eqb_spec (length (read file CHUNK_SIZE pos)) 0); [done|].
  assert (length file - (pos + length (read file CHUNK_SIZE pos)) < fuel)%nat
    by (rewrite length_read in *; unfold CHUNK_SIZE in *; lia).
  destruct (lastIndexOf _); [|by apply IH].
  destruct (n <=? _)%nat; [done|by apply IH].
Qed.

Lemma rangeFile_loop_total fuel file s e target cur buffer pos :
  (length file - pos < fuel)%nat →
  is_Some (rangeFile_loop fuel file s e target cur buffer pos).
Proof.
  revert target cur buffer pos.
  induction fuel as [|fuel IH]; intros target cur buffer pos Hfuel; [lia|].
  cbn [rangeFile_loop].
  destruct (cur <? e)%nat; [|done].
  destruct (Nat.eqb_spec (length (read file CHUNK_SIZE pos)) 0).
  { destruct (0 <? length buffer)%nat; [|done].
    by destruct (_ && _). }
  assert (length file - (pos + length (read file CHUNK_SIZE pos)) < fuel)%nat
    by (rewrite length_read in *; unfold CHUNK_SIZE in *; lia).
  destruct (lastIndexOf _); [|by apply IH].
  destruct (collect_lines _ _ _ _ _). by apply IH.
Qed.

Lemma tailFile_loop_total fuel file n lines pos found r :
  (pos < fuel)%nat →
  is_Some (tailFile_loop fuel file n lines pos found r).
Proof.
  revert lines pos found r.
  induction fuel as [|fuel IH]; intros lines pos found r Hfuel; [lia|].
  cbn [tailFile_loop].
  destruct ((0 <? pos)%nat && (found <? n)%nat) eqn:Hc; [|done].
  apply andb_true_iff in Hc as [Hp%Nat.ltb_lt _].
  destruct (unshift_parts _ _ _ _). apply IH.
  unfold CHUNK_SIZE. lia.
Qed.

Lemma headFile_total file n : is_Some (headFile file n).
Proof.
  unfold headFile.
  destruct (headFile_loop_total (S (length file)) file n [] [] 0)
    as [[lines buffer] ->]; [lia|done].
Qed.

Lemma rangeFile_total file s e : is_Some (rangeFile file s e).
Proof.
  unfold rangeFile.
  destruct (rangeFile_loop_total (S (length file)) file s e [] 0 [] 0)
    as [target ->]; [lia|done].
Qed.

Lemma tailFile_total file n : is_Some (tailFile file n).
Proof.
  unfold tailFile. destruct (length file =? 0)%nat; [done|].
  destruct (tailFile_loop_total (S (length file)) file n [] (length file) 0 [])
    as [[[lines found] r] ->]; [lia|done].
Qed.

(** A single read ends, with content and no error or with an error and
    no content. *)
Lemma readSingleFile_result fs args :
  ∃ result opened,
    readSingleFile fs args = Some (result, opened)
    ∧ ((∃ c, result = succeeded c) ∨ (∃ message, result = failed message)).
Proof.
  unfold readSingleFile.
  destruct (ReadFileArgsSchema_parse args) as [v|]; [|by eauto 6].
  assert (∀ f : bytes → option text, (∀ file, is_Some (f file)) →
    ∃ result opened,
      match open fs (path v) with
      | inl file => c ← f file; Some (succeeded c, [path v])
      | inr message => Some (failed message, [path v])
      end = Some (result, opened)
      ∧ ((∃ c, result = succeeded c) ∨ (∃ message, result = failed message)))
    as Hfile.
  { intros f Hf. destruct (open fs (path v)) as [file|message]; [|by eauto 6].
    destruct (Hf file) as [c ->]. cbn. by eauto 6. }
  destruct (default Full (mode v)).
  - apply Hfile. by eauto.
  - destruct (missing (lines v)); [by eauto 6|].
    apply Hfile. intros. apply headFile_total.
  - destruct (missing (lines v)); [by eauto 6|].
    apply Hfile. intros. apply tailFile_total.
  - destruct (missing (startLine v) || missing (endLine v)); [by eauto 6|].
    apply Hfile. intros. apply rangeFile_total.
Qed.

Lemma ReadFileArgsSchema_parse_Some args v :
  ReadFileArgsSchema_parse args = Some v →
  path v = path args ∧ ReadFileArgsSchema_parse v = Some v.
Proof.
  unfold ReadFileArgsSchema_parse. intros H.
  destruct (positive_int (lines args) && positive_int (startLine args)
            && positive_int (endLine args)
            && refinement (default Full (mode args)) args) eqn:Hc; [|done].
  injection H as <-. cbn. split; [done|].
  assert (refinement (default Full (mode args))
            {| path := path args; mode := Some (default Full (mode args));
               lines := lines args; startLine := startLine args;
               endLine := endLine args |}
          = refinement (default Full (mode args)) args) as ->
    by (by destruct (default Full (mode args))).
  by rewrite Hc.
Qed.

(** Reading validated data is reading the request it came from. *)
Lemma readSingleFile_validated fs args v :
  ReadFileArgsSchema_parse args = Some v →
  readSingleFile fs v = readSingleFile fs args.
Proof.
  intros H. destruct (ReadFileArgsSchema_parse_Some _ _ H) as [_ Hv].
  unfold readSingleFile. by rewrite H, Hv.
Qed.

Lemma parse_each_Some files validated :
  parse_each files = Some validated →
  length validated = length files
  ∧ ∀ i request, files !! i = Some request →
      ∃ v, validated !! i = Some v ∧ ReadFileArgsSchema_parse request = Some v.
Proof.
  revert validated. induction files as [|f files IH]; intros validated H.
  - injection H as <-. split; [done|]. intros i request. by rewrite lookup_nil.
  - cbn in H. destruct (ReadFileArgsSchema_parse f) as [v|] eqn:Ef; [|done].
    cbn in H. destruct (parse_each files) as [vs|]; [|done].
    injection H as <-. destruct (IH vs eq_refl) as [Hlen Hlook].
    split; [cbn; by rewrite Hlen|].
    intros [|i] request; cbn.
    + intros [= <-]. by eauto.
    + apply Hlook.
Qed.

Lemma read_each_slots fs (requests : list ReadFileArgs) :
  ∃ slots opened,
    read_each fs requests = Some (slots, opened)
    ∧ length slots = length requests
    ∧ ∀ i request, requests !! i = Some request →
        ∃ result log,
          readSingleFile fs request = Some (result, log)
          ∧ slots !! i = Some {| slot_path := path request;
                                 slot_content := content result;
                                 slot_error := error result |}.
Proof.
  induction requests as [|r requests (slots & opened & E & Hlen & Hlook)].
  - exists [], []. split; [done|]. split; [done|].
    intros i request. by rewrite lookup_nil.
  - destruct (readSingleFile_result fs r) as (result & log & Er & _).
    eexists _, _. cbn [read_each]. rewrite Er, E. cbn.
    split; [reflexivity|]. split; [cbn; by rewrite Hlen|].
    intros [|i] request; cbn.
    + intros [= <-]. by eauto.
    + apply Hlook.
Qed.

(** C9 — failures stay in their slot.  For a batch that passes the
    schema, the call reports success, and slot [i] holds the path of
    request [i] with the content and error of reading that request alone:
    a failed read leaves an error and no content in its own slot, a
    successful one its content and no error, whatever the other requests
    do. *)
Theorem readMultipleFilesTool_isolates_failures fs files validated :
  ReadMultipleFilesArgsSchema_parse files = Some validated →
  ∃ slots opened,
    readMultipleFilesTool fs files
    = Some ({| batch_success := true; results := slots |}, opened)
    ∧ length slots = length files
    ∧ ∀ i request, files !! i = Some request →
        ∃ result log,
          readSingleFile fs request = Some (result, log)
          ∧ slots !! i = Some {| slot_path := path request;
                                 slot_content := content result;
                                 slot_error := error result |}
          ∧ (success result = false →
               content result = None ∧ is_Some (error result))
          ∧ (success result = true →
               is_Some (content result) ∧ error result = None).
Proof.
  intros Hparse. unfold readMultipleFilesTool. rewrite Hparse.
  unfold ReadMultipleFilesArgsSchema_parse in Hparse.
  destruct (arity_ok (length files)); [|done].
  destruct (parse_each_Some _ _ Hparse) as [Hlen Hval].
  destruct (read_each_slots fs validated) as (slots & opened & -> & Hl & Hlook).
  exists slots, opened. split; [done|]. split; [congruence|].
  intros i request Hi.
  destruct (Hval i request Hi) as (v & Hv & Hp).
  destruct (Hlook i v Hv) as (result & log & Hr & Hs).
  rewrite (readSingleFile_validated fs _ _ Hp) in Hr.
  destruct (ReadFileArgsSchema_parse_Some _ _ Hp) as [Hpath _].
  rewrite Hpath in Hs.
  exists result, log. split; [done|]. split; [done|].
  destruct (readSingleFile_result fs request) as (r' & l' & Er & Hshape).
  rewrite Hr in Er. injection Er as <- <-.
  destruct Hshape as [[c ->]|[m ->]]; cbn; split; intros; try done; eauto.
Qed.

(** C10 — batch arity.  An empty batch, or one of more than 50
    requests, fails the schema: the call returns the batch-level failure
    without opening a file.  A batch of 1 to 50 requests passes the arity
    check, and is then judged on its requests alone. *)
Theorem readMultipleFilesTool_arity fs (files : list ReadFileArgs) :
  (length files = 0%nat ∨ (50 < length files)%nat →
     readMultipleFilesTool fs files
     = Some ({| batch_success := false; results := [] |}, []))
  ∧ ((1 ≤ length files ≤ 50)%nat →
     arity_ok (length files) = true
     ∧ ReadMultipleFilesArgsSchema_parse files = parse_each files).
Proof.
  split.
  - intros H. unfold readMultipleFilesTool, ReadMultipleFilesArgsSchema_parse.
    assert (arity_ok (length files) = false) as ->; [|done].
    unfold arity_ok. destruct H as [->|H]; [done|].
    apply andb_false_iff. right. apply Nat.leb_gt. exact H.
  - intros [H1 H2]. unfold ReadMultipleFilesArgsSchema_parse.
    assert (arity_ok (length files) = true) as ->; [|done].
    unfold arity_ok. apply andb_true_iff.
    split; apply Nat.leb_le; assumption.
Qed.

(** *** The readers against the naive reference *)

Lemma lines_of_cons (p q : text) (ps : list text) :
  lines_of (p :: q :: ps) = p :: lines_of (q :: ps).
Proof. reflexivity. Qed.

Lemma take_lines_of n (pieces : list text) :
  (n < length pieces)%nat → take n (lines_of pieces) = take n pieces.
Proof.
  revert n. induction pieces as [|p ps IH]; intros n Hn; [done|].
  destruct ps as [|q ps].
  - cbn in Hn. assert (n = 0)%nat as -> by lia. by rewrite !take_0.
  - rewrite lines_of_cons.
    destruct n as [|n]; [done|]. cbn [take]. rewrite IH; [done|].
    cbn [length] in *. lia.
Qed.

Lemma lines_of_no_trailing_newline (t : text) :
  t ≠ [] → last t ≠ Some nl → lines_of (split t) = split t.
Proof.
  induction t as [|c t IH]; [done|]. intros _ Hlast.
  destruct t as [|d t].
  - cbn in Hlast. cbn. destruct (N.eqb_spec c nl); [congruence|done].
  - assert (last (d :: t) ≠ Some nl) as Hlast' by exact Hlast.
    specialize (IH ltac:(done) Hlast').
    destruct (split_nonempty (d :: t)) as (p & ps & E).
    rewrite E in IH. cbn [split]. cbn [split] in E. rewrite E.
    destruct (c =? nl)%N.
    + by rewrite lines_of_cons, IH.
    + destruct ps as [|q ps]; [done|].
      rewrite (lines_of_cons p q ps) in IH.
      rewrite (lines_of_cons (c :: p) q ps).
      injection IH as IH. f_equal. exact IH.
Qed.

Lemma first_piece_nonempty (t : text) :
  t ≠ [] → head t ≠ Some nl → ∃ c p ps, split t = (c :: p) :: ps.
Proof.
  destruct t as [|c t]; [done|]. intros _ Hc. cbn in Hc. cbn.
  destruct (N.eqb_spec c nl); [congruence|].
  destruct (split_nonempty t) as (p & ps & ->). by eauto.
Qed.

(** What a valid request reads from a file. *)
Definition read_mode (v : ReadFileArgs) (file : bytes) : option text :=
  match default Full (mode v) with
  | Full => Some (toString file)
  | Head => headFile file (line_count (lines v))
  | Tail => tailFile file (line_count (lines v))
  | Range =>
      rangeFile file (line_count (startLine v)) (line_count (endLine v))
  end.

Lemma readSingleFile_valid fs args v :
  ReadFileArgsSchema_parse args = Some v →
  readSingleFile fs args
  = match open fs (path args) with
    | inl file => c ← read_mode v file; Some (succeeded c, [path args])
    | inr message => Some (failed message, [path args])
    end.
Proof.
  intros Hparse. unfold readSingleFile, read_mode. rewrite Hparse.
  unfold ReadFileArgsSchema_parse in Hparse.
  destruct (positive_int (lines args) && positive_int (startLine args)
            && positive_int (endLine args)) eqn:Hpos; [|done].
  destruct (refinement (default Full (mode args)) args) eqn:Href; [|done].
  injection Hparse as <-. cbn [path mode lines startLine endLine default].
  destruct (default Full (mode args)); cbn [refinement] in Href; cbn [default].
  - done.
  - apply andb_true_iff in Href as [->%negb_true_iff _]. done.
  - apply andb_true_iff in Href as [->%negb_true_iff _]. done.
  - apply andb_true_iff in Href as [Href _].
    apply andb_true_iff in Href as [->%negb_true_iff _]. done.
Qed.

Lemma read_mode_empty v : read_mode v [] = Some [].
Proof.
  unfold read_mode. destruct (default Full (mode v)).
  - done.
  - by destruct (line_count (lines v)).
  - done.
  - by destruct (line_count (endLine v)).
Qed.


(** Sample files. *)
Definition LF : ascii := ascii_of_nat 10.

Definition two_lines : bytes := list_ascii_of_string "ab" ++ LF :: list_ascii_of_string "cd".

Definition one_line_terminated : bytes := ["a"%char; LF].

Definition blank_then_line : bytes := [LF; "a"%char].

(** A file of two chunks with a two-byte character that ends where the
    first chunk ends. *)
Definition accented : bytes :=
  repeat "a"%char 1022
  ++ [ascii_of_nat 195; ascii_of_nat 169; LF; "b"%char].



(** A two-byte character that straddles the first chunk boundary is
    decoded as two replacement characters by [headFile], and as itself
    by a full read. *)
Definition straddling : bytes :=
  repeat "a"%char 1023 ++ [ascii_of_nat 195; ascii_of_nat 169].

Lemma headFile_splits_multibyte_sequence :
  headFile straddling 1 = Some (repeat 97%N 1023 ++ [REPLACEMENT; REPLACEMENT])
  ∧ toString straddling = repeat 97%N 1023 ++ [233%N]
  ∧ forward_cuts straddling = [1024%nat]
  ∧ clean_cut straddling 1024 = false.
Proof. repeat split; vm_compute; reflexivity. Qed.

Definition request (p : string) : ReadFileArgs :=
  {| path := p; mode := None; lines := None; startLine := None;
     endLine := None |}.

Definition sample_fs : FileSystem :=
  <[ "a.ts" := Regular two_lines ]>
    (<[ "b.ts" := Regular one_line_terminated ]>
       {[ "c.ts" := Regular [] ]}).

Definition sample_batch : list ReadFileArgs :=
  [ request "a.ts"; request "missing.ts";
    {| path := "b.ts"; mode := Some Head; lines := Some (Integer 1);
       startLine := None; endLine := None |};
    request "c.ts" ].

Lemma readMultipleFilesTool_isolates_failures_witness :
  ∃ opened,
    readMultipleFilesTool sample_fs sample_batch
    = Some ({| batch_success := true;
               results :=
                 [ {| slot_path := "a.ts";
                      slot_content := Some (toString two_lines);
                      slot_error := None |};
                   {| slot_path := "missing.ts";
                      slot_content := None;
                      slot_error := Some (ENOENT "missing.ts") |};
                   {| slot_path := "b.ts";
                      slot_content := Some [97%N];
                      slot_error := None |};
                   {| slot_path := "c.ts";
                      slot_content := Some [];
                      slot_error := None |} ] |}, opened).
Proof.
  destruct (readMultipleFilesTool_isolates_failures sample_fs sample_batch
              _ eq_refl) as (slots & opened & E & _ & _).
  exists opened. rewrite E. f_equal. f_equal.
  assert (readMultipleFilesTool sample_fs sample_batch
          = Some ({| batch_success := true;
               results :=
                 [ {| slot_path := "a.ts";
                      slot_content := Some (toString two_lines);
                      slot_error := None |};
                   {| slot_path := "missing.ts";
                      slot_content := None;
                      slot_error := Some (ENOENT "missing.ts") |};
                   {| slot_path := "b.ts";
                      slot_content := Some [97%N];
                      slot_error := None |};
                   {| slot_path := "c.ts";
                      slot_content := Some [];
                      slot_error := None |} ] |},
               ["a.ts"; "missing.ts"; "b.ts"; "c.ts"])) as E'
    by (vm_compute; reflexivity).
  rewrite E in E'. by injection E' as -> _.
Defined.

Lemma readMultipleFilesTool_arity_witness :
  readMultipleFilesTool sample_fs []
  = Some ({| batch_success := false; results := [] |}, [])
  ∧ readMultipleFilesTool sample_fs (repeat (request "a.ts") 51)
    = Some ({| batch_success := false; results := [] |}, [])
  ∧ arity_ok (length sample_batch) = true.
Proof.
  split; [|split].
  - apply (readMultipleFilesTool_arity sample_fs []). by left.
  - apply (readMultipleFilesTool_arity sample_fs (repeat (request "a.ts") 51)).
    right. rewrite repeat_length. lia.
  - apply (readMultipleFilesTool_arity sample_fs sample_batch).
    cbn. lia.
Defined.

(** *** Validation of a batch, and what validated requests look like *)

Lemma parse_each_None (files : list ReadFileArgs) request :
  request ∈ files → ReadFileArgsSchema_parse request = None →
  parse_each files = None.
Proof.
  intros Hin Hbad. induction files as [|f files IH]; [by apply elem_of_nil in Hin|].
  cbn [parse_each]. apply elem_of_cons in Hin as [<-|Hin].
  - by rewrite Hbad.
  - rewrite (IH Hin). by destruct (ReadFileArgsSchema_parse f).
Qed.

(** X22 — One request that does not pass the schema fails the batch as a
    whole: [success] is [false], there are no slots, and no file is opened,
    not even for the requests that are well formed. *)
Theorem readMultipleFilesTool_all_or_nothing fs (files : list ReadFileArgs)
    (request : ReadFileArgs) :
  request ∈ files →
  ReadFileArgsSchema_parse request = None →
  readMultipleFilesTool fs files
  = Some ({| batch_success := false; results := [] |}, []).
Proof.
  intros Hin Hbad. unfold readMultipleFilesTool,
    ReadMultipleFilesArgsSchema_parse.
  rewrite (parse_each_None files request Hin Hbad).
  by destruct (arity_ok (length files)).
Qed.

(** X23 — What passes [ReadFileArgsSchema]: the mode is ["full"] when none
    is given; a full read has no line parameter; a head or tail read has
    [lines], a positive integer, and no bounds; a range read has both
    bounds, positive integers with [startLine <= endLine], and no [lines].
    So the checks [readSingleFile] makes on validated data ("'lines'
    parameter required ...") never fail. *)
Theorem ReadFileArgsSchema_accepts (args v : ReadFileArgs) :
  ReadFileArgsSchema_parse args = Some v ↔
  v = {| path := path args; mode := Some (default Full (mode args));
         lines := lines args; startLine := startLine args;
         endLine := endLine args |}
  ∧ match default Full (mode args) with
    | Full =>
        lines args = None ∧ startLine args = None ∧ endLine args = None
    | Head | Tail =>
        (∃ n, lines args = Some (Integer n) ∧ 0 < n)
        ∧ startLine args = None ∧ endLine args = None
    | Range =>
        (∃ s e, startLine args = Some (Integer s)
                ∧ endLine args = Some (Integer e) ∧ 0 < s ∧ s ≤ e)
        ∧ lines args = None
    end.
Proof.
  unfold ReadFileArgsSchema_parse.
  destruct args as [p m l s e]. cbn [path mode lines startLine endLine].
  set (md := default Full m).
  split.
  - destruct (positive_int l && positive_int s && positive_int e
              && refinement md _) eqn:Hc; [|done].
    intros [= <-]. split; [done|].
    apply andb_true_iff in Hc as [Hc Hr].
    apply andb_true_iff in Hc as [Hc He].
    apply andb_true_iff in Hc as [Hl Hs].
    unfold refinement in Hr. cbn [lines startLine endLine] in Hr.
    destruct md.
    + apply negb_true_iff, orb_false_iff in Hr as [Hr He'].
      apply orb_false_iff in Hr as [Hl' Hs'].
      by destruct l, s, e.
    + apply andb_true_iff in Hr as [Hm Hd].
      apply negb_true_iff, orb_false_iff in Hd as [Hs' He'].
      apply negb_true_iff in Hm.
      destruct s, e; try done. split; [|done].
      destruct l as [[n|]|]; try done. exists n. split; [done|].
      cbn in Hl. lia.
    + apply andb_true_iff in Hr as [Hm Hd].
      apply negb_true_iff, orb_false_iff in Hd as [Hs' He'].
      apply negb_true_iff in Hm.
      destruct s, e; try done. split; [|done].
      destruct l as [[n|]|]; try done. exists n. split; [done|].
      cbn in Hl. lia.
    + apply andb_true_iff in Hr as [Hr Hd].
      apply andb_true_iff in Hr as [Hm Hgt].
      apply negb_true_iff in Hd, Hgt.
      apply negb_true_iff, orb_false_iff in Hm as [Hms Hme].
      destruct l; [done|]. split; [|done].
      destruct s as [[a|]|], e as [[b|]|]; try done.
      exists a, b. cbn in *. repeat split; lia.
  - intros [-> Hshape]. destruct md.
    + destruct Hshape as (-> & -> & ->). done.
    + destruct Hshape as ((n & -> & Hn) & -> & ->). cbn.
      rewrite (proj2 (Z.ltb_lt 0 n) Hn). cbn.
      by destruct (Z.eqb_spec n 0); [lia|].
    + destruct Hshape as ((n & -> & Hn) & -> & ->). cbn.
      rewrite (proj2 (Z.ltb_lt 0 n) Hn). cbn.
      by destruct (Z.eqb_spec n 0); [lia|].
    + destruct Hshape as ((a & b & -> & -> & Ha & Hab) & ->). cbn.
      rewrite (proj2 (Z.ltb_lt 0 a)), (proj2 (Z.ltb_lt 0 b)) by lia. cbn.
      destruct (Z.eqb_spec a 0); [lia|]. destruct (Z.eqb_spec b 0); [lia|].
      cbn. by destruct (Z.ltb_spec b a); [lia|].
Qed.

Lemma readMultipleFilesTool_all_or_nothing_witness :
  readMultipleFilesTool sample_fs
    [ request "a.ts";
      {| path := "b.ts"; mode := Some Head; lines := None;
         startLine := None; endLine := None |} ]
  = Some ({| batch_success := false; results := [] |}, []).
Proof.
  apply (readMultipleFilesTool_all_or_nothing sample_fs _
           {| path := "b.ts"; mode := Some Head; lines := None;
              startLine := None; endLine := None |}).
  - set_solver.
  - reflexivity.
Defined.

(** *** The forward readers agree, on every file *)

(** What [headFile] makes of the state its loop ends in. *)
Definition head_result (numLines : nat) (lines : list text) (buffer : text)
  : list text :=
  take numLines
    (if (0 <? length buffer)%nat && (length lines <? numLines)%nat
     then lines ++ [buffer] else lines).

Lemma rangeFile_loop_from_1 fuel file n (L : list text) buffer pos :
  (length file - pos < fuel)%nat →
  rangeFile_loop fuel file 1 n (slice 0 n L) (Nat.min n (length L)) buffer pos
  = '(lines, buffer') ← headFile_loop fuel file n L buffer pos;
    Some (head_result n lines buffer').
Proof.
  revert L buffer pos.
  induction fuel as [|fuel IH]; intros L buffer pos Hfuel; [lia|].
  cbn [rangeFile_loop headFile_loop].
  destruct (Nat.ltb_spec (length L) n) as [Hlt|Hge].
  2:{ rewrite (proj2 (Nat.ltb_ge (Nat.min n (length L)) n)) by lia.
      cbn. unfold head_result, slice.
      rewrite (proj2 (Nat.ltb_ge (length L) n)) by lia.
      by rewrite andb_false_r. }
  rewrite (proj2 (Nat.ltb_lt (Nat.min n (length L)) n)) by lia.
  replace (Nat.min n (length L)) with (length L) by lia.
  assert (slice 0 n L = L) as HL by (unfold slice; cbn; apply take_ge; lia).
  destruct (Nat.eqb_spec (length (read file CHUNK_SIZE pos)) 0) as [Heof|Hread].
  { rewrite (proj2 (Nat.leb_le (S (length L)) n)) by lia.
    rewrite (proj2 (Nat.leb_le 1 (S (length L)))) by lia.
    cbn [andb mbind option_bind]. unfold head_result.
    rewrite (proj2 (Nat.ltb_lt (length L) n)) by lia. rewrite andb_true_r.
    destruct (0 <? length buffer)%nat.
    - rewrite HL. f_equal. symmetry. apply take_ge.
      rewrite length_app. cbn. lia.
    - by rewrite HL, take_ge by lia. }
  assert (length file - (pos + length (read file CHUNK_SIZE pos)) < fuel)%nat
    as Hfuel'.
  { unfold read in *. rewrite length_take, length_drop in *. lia. }
  destruct (lastIndexOf (buffer ++ toString (read file CHUNK_SIZE pos)))
    as [i|] eqn:Ei.
  2:{ rewrite <- (IH L _ _ Hfuel'). f_equal. lia. }
  set (cl := split (take i (buffer ++ toString (read file CHUNK_SIZE pos)))).
  pose proof (collect_lines_spec 1 n cl L Hlt) as Hcl.
  change (1 - 1)%nat with 0%nat in Hcl. rewrite Hcl.
  rewrite (IH (L ++ cl) _ _ Hfuel').
  destruct (Nat.leb_spec n (length (L ++ cl))) as [Hn|Hn]; [|done].
  destruct fuel as [|fuel']; [lia|]. cbn [headFile_loop].
  rewrite (proj2 (Nat.ltb_ge (length (L ++ cl)) n)) by lia. done.
Qed.

Lemma rangeFile_1 (file : bytes) (n : nat) :
  rangeFile file 1 n = headFile file n.
Proof.
  unfold rangeFile, headFile.
  pose proof (rangeFile_loop_from_1 (S (length file)) file n [] [] 0) as H.
  assert (slice 0 n (@nil text) = []) as E
    by (unfold slice; by rewrite take_nil).
  rewrite E in H. cbn [length] in H. rewrite Nat.min_0_r in H.
  rewrite H by lia.
  by destruct (headFile_loop _ _ _ _ _ _) as [[lines buffer]|].
Qed.

(** X24 — Reading the lines 1 to [n] of a file as a range gives what reading
    its first [n] lines gives, whatever bytes the file holds. *)
Theorem rangeFile_from_1_is_headFile (file : bytes) (n : nat) :
  rangeFile file 1 n = headFile file n.
Proof. apply rangeFile_1. Qed.

(** *** No more lines than were asked for *)

Lemma split_join (ls : list text) :
  ls ≠ [] → Forall (λ p, nl ∉ p) ls → split (join ls) = ls.
Proof.
  intros Hne Hall. induction Hall as [|x ls Hx Hls IH]; [done|].
  destruct ls as [|y ls]; [by apply split_no_newline|].
  change (join (x :: y :: ls)) with (x ++ nl :: join (y :: ls)).
  rewrite split_app_newline, (split_no_newline _ Hx).
  by rewrite IH.
Qed.

Lemma length_split_join_take (n : nat) (ls : list text) :
  (1 ≤ n)%nat → Forall (λ p, nl ∉ p) ls →
  (length (split (join (take n ls))) ≤ n)%nat.
Proof.
  intros Hn Hall. destruct (take n ls) as [|x l] eqn:E; [cbn; lia|].
  rewrite split_join.
  - rewrite <- E, length_take. lia.
  - done.
  - rewrite <- E. by apply Forall_take.
Qed.

Lemma headFile_loop_no_newline fuel file n lines buffer pos lines' buffer' :
  Forall (λ p, nl ∉ p) lines → nl ∉ buffer →
  headFile_loop fuel file n lines buffer pos = Some (lines', buffer') →
  Forall (λ p, nl ∉ p) lines' ∧ nl ∉ buffer'.
Proof.
  revert lines buffer pos.
  induction fuel as [|fuel IH]; intros lines buffer pos Hl Hb; [done|].
  cbn [headFile_loop].
  destruct (length lines <? n)%nat; [|by intros [= <- <-]].
  destruct (length (read file CHUNK_SIZE pos) =? 0)%nat;
    [by intros [= <- <-]|].
  destruct (lastIndexOf _) as [i|] eqn:Ei.
  - destruct (lastIndexOf_Some _ _ Ei) as [_ Hrest].
    assert (Forall (λ p, nl ∉ p)
              (lines ++ split (take i (buffer ++ toString (read file CHUNK_SIZE pos)))))
      as Hl' by (apply Forall_app; split; [done|apply split_pieces_no_newline]).
    destruct (n <=? _)%nat; [by intros [= <- <-]|].
    by apply IH.
  - apply IH; [done|]. by apply lastIndexOf_None.
Qed.

Lemma unshift_parts_no_newline n ps lines found :
  Forall (λ p, nl ∉ p) ps → Forall (λ p, nl ∉ p) lines →
  Forall (λ p, nl ∉ p) (fst (unshift_parts n ps lines found)).
Proof.
  revert lines found. induction ps as [|p ps IH]; intros lines found Hps Hl;
    [done|].
  cbn [unshift_parts]. apply Forall_cons in Hps as [Hp Hps].
  destruct (n <=? S found)%nat; [by constructor|].
  apply IH; [done|by constructor].
Qed.

Lemma tailFile_loop_no_newline fuel file n lines pos found r lines' found' r' :
  Forall (λ p, nl ∉ p) lines → nl ∉ r →
  tailFile_loop fuel file n lines pos found r = Some (lines', found', r') →
  Forall (λ p, nl ∉ p) lines' ∧ nl ∉ r'.
Proof.
  revert lines pos found r.
  induction fuel as [|fuel IH]; intros lines pos found r Hl Hr; [done|].
  cbn [tailFile_loop].
  destruct ((0 <? pos)%nat && (found <? n)%nat); [|by intros [= <- <- <-]].
  set (parts := split _).
  pose proof (split_pieces_no_newline
    (toString (read file (Nat.min CHUNK_SIZE pos) (pos - Nat.min CHUNK_SIZE pos))
     ++ r)) as Hparts. fold parts in Hparts.
  pose proof (unshift_parts_no_newline n (rev (tl parts)) lines found) as Hu.
  destruct (unshift_parts n (rev (tl parts)) lines found) as [ls fd].
  apply IH.
  - apply Hu; [|done]. apply Forall_rev. by destruct Hparts.
  - destruct Hparts; [apply not_elem_of_nil|done].
Qed.

(** X25 — A head or tail read of [n] lines, like a range read of the lines 1
    to [n], returns at most [n] lines, whatever bytes the file holds. *)
Theorem partial_reads_line_bound (file : bytes) (n : nat) (c : text) :
  (1 ≤ n)%nat →
  headFile file n = Some c ∨ tailFile file n = Some c
    ∨ rangeFile file 1 n = Some c →
  (length (split c) ≤ n)%nat.
Proof.
  intros Hn H.
  assert (headFile file n = Some c → (length (split c) ≤ n)%nat) as Hhead.
  { unfold headFile.
    destruct (headFile_loop _ _ _ _ _ _) as [[lines buffer]|] eqn:El; [|done].
    apply headFile_loop_no_newline in El as [Hl Hb];
      [|constructor|apply not_elem_of_nil].
    cbn. intros [= <-]. apply length_split_join_take; [done|].
    destruct (_ && _); [|done]. apply Forall_app. split; [done|].
    by constructor. }
  destruct H as [H|[H|H]]; [by apply Hhead| |].
  - revert H. unfold tailFile.
    destruct (length file =? 0)%nat; [intros [= <-]; cbn; lia|].
    destruct (tailFile_loop _ _ _ _ _ _ _) as [[[lines found] r]|] eqn:El;
      [|done].
    apply tailFile_loop_no_newline in El as [Hl Hr];
      [|constructor|apply not_elem_of_nil].
    cbn. intros [= <-].
    set (ls := if _ && _ then _ else _).
    assert (Forall (λ p, nl ∉ p) ls) as Hls.
    { subst ls. destruct (_ && _); [by constructor|done]. }
    unfold slice_last.
    destruct (drop (length ls - n) ls) as [|x l] eqn:E; [cbn; lia|].
    rewrite split_join.
    + rewrite <- E, length_drop. lia.
    + done.
    + rewrite <- E. by apply Forall_drop.
  - apply Hhead. by rewrite <- rangeFile_1.
Qed.

Lemma partial_reads_line_bound_witness :
  ∃ c, headFile two_lines 1 = Some c ∧ (length (split c) ≤ 1)%nat.
Proof.
  destruct (headFile_total two_lines 1) as [c Hc]. exists c.
  split; [exact Hc|].
  apply (partial_reads_line_bound two_lines 1 c); [lia|by left].
Defined.

End ReadFiles.

(** ** Targeted analysis ([analyzeTargetedSections] in
    [src/core/thinking-validator.ts]) *)

Module Assembler.

Import ReadFiles.
Local Open Scope list_scope.

Inductive Priority := critical | important | supplementary.

#[export] Instance Priority_eq_dec : EqDecision Priority.
Proof. solve_decision. Defined.

(** [AnalysisTarget] ([src/types/thinking-validation-types.ts]) *)
Record AnalysisTarget := {
  file : string;
  target_mode : option Mode;
  target_lines : option number;
  target_startLine : option number;
  target_endLine : option number;
  priority : option Priority
}.

(** A string of the program, as text. *)
Definition text_of (s : string) : text := map byte_val (list_ascii_of_string s).

Definition newline : string := String LF "".

(** [`${v}`] for an optional number and for an optional string. *)
Definition show_number (v : option number) : string :=
  match v with
  | None => "undefined"
  | Some (Integer z) => DecimalString.NilZero.string_of_int (Z.to_int z)
  | Some (NotInteger shown) => shown
  end.

Definition show_string (v : option string) : string := default "undefined" v.

Definition show_mode (m : Mode) : string :=
  match m with
  | Full => "full"
  | Head => "head"
  | Tail => "tail"
  | Range => "range"
  end.

(** Truthiness of an optional number. *)
Definition truthy_number (v : option number) : bool :=
  match v with
  | None => false
  | Some (Integer z) => negb (z =? 0)
  | Some (NotInteger _) => true
  end.

(** The lines pushed for one target and the slot read for it. *)
Definition section_lines (target : AnalysisTarget) (result : FileSlot)
  : list text :=
  let priorityLabel :=
    if decide (priority target = Some critical) then " [CRITICAL]" else "" in
  [text_of ("### " +:+ file target +:+ priorityLabel)]
  ++ (if bool_decide (is_Some (target_mode target))
         || truthy_number (target_startLine target)
      then
        let modeInfo :=
          match target_mode target with
          | Some m =>
              "Mode: " +:+ show_mode m
              +:+ (if truthy_number (target_lines target)
                   then " (" +:+ show_number (target_lines target) +:+ " lines)"
                   else "")
          | None =>
              "Lines " +:+ show_number (target_startLine target) +:+ "-"
              +:+ show_number (target_endLine target)
          end in
        [text_of ("**" +:+ modeInfo +:+ "**")]
      else [])
  ++ match slot_content result with
     | Some (c :: cs) =>
         [text_of "```"; c :: cs; text_of ("```" +:+ newline)]
     | _ =>
         [text_of ("Failed to read section: "
                   +:+ show_string (slot_error result) +:+ newline)]
     end.

Record Analysis := {
  content : text;
  fileAnalysisPerformed : bool;
  filesAnalyzed : nat;
  toolsUsed : list string
}.

Section Service.

(** [path.isAbsolute] and [path.resolve], and the reading service
    ([toolCallingService.readMultipleFiles]). *)
Variable isAbsolute : string → bool.
Variable resolve : string → string → string.
Variable readMultipleFiles : list ReadFileArgs → ReadMultipleFilesResult.

Definition fileRequest (projectRoot : string) (workingDirectory : option string)
    (target : AnalysisTarget) : ReadFileArgs :=
  let fullPath :=
    if isAbsolute (file target) then file target
    else
      match workingDirectory with
      | Some (String c wd) => resolve (String c wd) (file target)
      | _ => resolve projectRoot (file target)
      end in
  {| path := fullPath;
     mode := Some (default Range (target_mode target));
     lines := target_lines target;
     startLine := target_startLine target;
     endLine := target_endLine target |}.

(** [for (let i = 0; i < targetGroup.length; i++)], from index [i] on;
    [None] when [readResults.results[i]] is [undefined], whose [content]
    cannot be read. *)
Fixpoint push_sections (i : nat) (group : list AnalysisTarget)
    (results : list FileSlot) (analysis : list text)
    (filesProcessed : gset string) : option (list text * gset string) :=
  match group with
  | [] => Some (analysis, filesProcessed)
  | target :: rest =>
      result ← results !! i;
      push_sections (S i) rest results
        (analysis ++ section_lines target result)
        (filesProcessed ∪ {[ file target ]})
  end.

(** [for (const targetGroup of [critical, important, supplementary])] *)
Fixpoint process_groups (projectRoot : string)
    (workingDirectory : option string) (groups : list (list AnalysisTarget))
    (analysis : list text) (filesProcessed : gset string)
  : option (list text * gset string) :=
  match groups with
  | [] => Some (analysis, filesProcessed)
  | targetGroup :: rest =>
      match targetGroup with
      | [] => process_groups projectRoot workingDirectory rest analysis
                filesProcessed
      | _ =>
          let fileRequests :=
            map (fileRequest projectRoot workingDirectory) targetGroup in
          let readResults := readMultipleFiles fileRequests in
          if batch_success readResults then
            '(analysis, filesProcessed) ←
              push_sections 0 targetGroup (results readResults) analysis
                filesProcessed;
            process_groups projectRoot workingDirectory rest analysis
              filesProcessed
          else process_groups projectRoot workingDirectory rest analysis
                 filesProcessed
      end
  end.

Definition heading : list text :=
  [ text_of "## Targeted Code Analysis";
    text_of ("*(Client-specified code sections with mode support)*"
             +:+ newline) ].

Definition criticalTargets (targets : list AnalysisTarget) :=
  filter (λ t, priority t = Some critical) targets.

Definition importantTargets (targets : list AnalysisTarget) :=
  filter (λ t, priority t = Some important ∨ priority t = None) targets.

Definition supplementaryTargets (targets : list AnalysisTarget) :=
  filter (λ t, priority t = Some supplementary) targets.

Definition analyzeTargetedSections (targets : list AnalysisTarget)
    (projectRoot : string) (workingDirectory : option string)
  : option Analysis :=
  '(analysis, filesProcessed) ←
    process_groups projectRoot workingDirectory
      [ criticalTargets targets; importantTargets targets;
        supplementaryTargets targets ]
      heading ∅;
  Some {| content := join analysis;
          fileAnalysisPerformed := true;
          filesAnalyzed := size filesProcessed;
          toolsUsed := ["readMultipleFiles"] |}.

(** *** Order of the sections when every batch is read *)

Section Ordered.

(** The slot the service returns for a target. *)
Variable slot_of : AnalysisTarget → FileSlot.

Definition section_of (target : AnalysisTarget) : list text :=
  section_lines target (slot_of target).

Lemma push_sections_all (before group : list AnalysisTarget) analysis files :
  push_sections (length before) group (map slot_of (before ++ group))
    analysis files
  = Some (analysis ++ concat (map section_of group),
          files ∪ list_to_set (map file group)).
Proof.
  revert before analysis files.
  induction group as [|target rest IH]; intros before analysis files.
  - cbn. rewrite app_nil_r. f_equal. f_equal. set_solver.
  - cbn [push_sections].
    assert (map slot_of (before ++ target :: rest) !! length before
            = Some (slot_of target)) as ->.
    { rewrite map_app, lookup_app_r by (by rewrite length_map).
      by rewrite length_map, Nat.sub_diag. }
    cbn [mbind option_bind].
    replace (before ++ target :: rest) with ((before ++ [target]) ++ rest)
      by (by rewrite <- app_assoc).
    replace (S (length before)) with (length (before ++ [target]))
      by (rewrite length_app; cbn; lia).
    rewrite IH. cbn [map concat]. rewrite app_assoc. f_equal. f_equal.
    set_solver.
Qed.

Lemma process_groups_all projectRoot workingDirectory groups analysis files :
  (∀ group, group ∈ groups → group ≠ [] →
     readMultipleFiles (map (fileRequest projectRoot workingDirectory) group)
     = {| batch_success := true; results := map slot_of group |}) →
  process_groups projectRoot workingDirectory groups analysis files
  = Some (analysis ++ concat (map section_of (concat groups)),
          files ∪ list_to_set (map file (concat groups))).
Proof.
  revert analysis files.
  induction groups as [|group rest IH]; intros analysis files Hread.
  - cbn. rewrite app_nil_r. f_equal. f_equal. set_solver.
  - cbn [process_groups concat].
    assert (∀ g, g ∈ rest → g ≠ [] →
      readMultipleFiles (map (fileRequest projectRoot workingDirectory) g)
      = {| batch_success := true; results := map slot_of g |}) as Hrest
      by (intros g Hg; apply Hread; by right).
    destruct group as [|target group]; [by apply IH|].
    rewrite (Hread (target :: group)) by (by left || done).
    cbn [batch_success results].
    rewrite (push_sections_all [] (target :: group)).
    cbn [mbind option_bind]. rewrite (IH _ _ Hrest).
    rewrite map_app, concat_app, map_app, app_assoc.
    f_equal. f_equal. set_solver.
Qed.

(** X26 — When the service reads every batch, the sections come bucket by
    bucket (critical, important or without priority, supplementary) and,
    within a bucket, in the order of the targets; a target whose slot has no
    content is there with its error text. *)
Theorem analyzeTargetedSections_ordered targets projectRoot workingDirectory :
  (∀ group,
     group ∈ [criticalTargets targets; importantTargets targets;
              supplementaryTargets targets] →
     group ≠ [] →
     readMultipleFiles (map (fileRequest projectRoot workingDirectory) group)
     = {| batch_success := true; results := map slot_of group |}) →
  let ordered := criticalTargets targets ++ importantTargets targets
                 ++ supplementaryTargets targets in
  analyzeTargetedSections targets projectRoot workingDirectory
  = Some {| content := join (heading ++ concat (map section_of ordered));
            fileAnalysisPerformed := true;
            filesAnalyzed := size (list_to_set (map file ordered) : gset string);
            toolsUsed := ["readMultipleFiles"] |}.
Proof.
  intros Hread ordered. unfold analyzeTargetedSections.
  rewrite (process_groups_all _ _ _ _ _ Hread).
  cbn [mbind option_bind concat]. rewrite app_nil_r. fold ordered.
  f_equal. f_equal. f_equal. set_solver.
Qed.

End Ordered.

End Service.

(** *** The reading service ([ToolCallingService.readMultipleFiles] in
    [src/services/tool-calling-service.ts]) *)

(** The fields of [ToolCallingConfig] the reader consults. *)
Record ToolCallingConfig := {
  readFile_enabled : bool;
  maxFileSizeKB : spec_float;
  allowedFileExtensions : list string
}.

Definition DEFAULT_ALLOWED_FILE_EXTENSIONS : string :=
  ".js,.jsx,.ts,.tsx,.mjs,.cjs,.d.ts,.d.tsx,.html,.htm,.xhtml,.css,.scss,.sass,.less,.styl,.vue,.svelte,.astro,.py,.pyc,.pyo,.pyd,.rb,.rbw,.php,.phtml,.java,.class,.cs,.csx,.go,.rs,.swift,.kt,.kts,.json,.jsonc,.yml,.yaml,.xml,.xsd,.toml,.ini,.cfg,.md,.markdown,.txt,.rst,.adoc,.tex,.package.json,.package-lock.json,.yarn.lock,.pnpm-lock.yaml,.requirements.txt,.pipfile,.Pipfile.lock,.Gemfile,.Gemfile.lock,.composer.json,.composer.lock,.pom.xml,.build.gradle,.gradle.kts,.csproj,.fsproj,.vbproj,.Cargo.toml,.Cargo.lock,.go.mod,.go.sum,.webpack,.babelrc,.eslintrc,.prettierrc,.dockerfile,.Dockerfile,.docker-compose.yml,.Makefile,.makefile,.sql,.prisma,.sh,.bash,.zsh,.ps1,.bat,.cmd".

(** [v || fallback] for [v : string | undefined] *)
Definition or_else (v : option string) (fallback : string) : string :=
  match v with
  | Some (String c s) => String c s
  | _ => fallback
  end.

(** [loadToolCallingConfig] ([src/config-manager.ts]), for these
    fields. *)
Definition loadToolCallingConfig (process_env : gmap string string)
  : ToolCallingConfig :=
  {| readFile_enabled :=
       negb (bool_decide (process_env !! "TOOL_CALLING_READ_FILE_ENABLED"
                          = Some "false"));
     maxFileSizeKB :=
       JsNumber.parseInt
         (or_else (process_env !! "TOOL_CALLING_MAX_FILE_SIZE_KB") "1024");
     allowedFileExtensions :=
       map Js.trim
         (Js.split ","
            (or_else (process_env !! "TOOL_CALLING_ALLOWED_FILE_EXTENSIONS")
               DEFAULT_ALLOWED_FILE_EXTENSIONS)) |}.

(** [getFileExtension]: what follows the last dot of the path (all of it
    when there is none), in lower case, with a dot in front unless it is
    empty. *)
Definition getFileExtension (filePath : string) : string :=
  let ext := Js.toLowerCase (default "" (last (Js.split "." filePath))) in
  if Js.truthy ext then "." +:+ ext else "".

(** [Buffer.byteLength(s, "utf8")] *)
Definition utf8_length (c : N) : Z :=
  if (c <? 128)%N then 1
  else if (c <? 2048)%N then 2
  else if (c <? 65536)%N then 3
  else 4.

Definition byteLength (s : text) : Z :=
  foldr (λ c n, utf8_length c + n)%Z 0%Z s.

(** What [readMultipleFiles] of the service resolves to. *)
Record ServiceReply := {
  reply_success : bool;
  reply_results : list FileSlot;
  reply_error : option string
}.

(** The size check made on each slot that has (non-empty) content. *)
Definition limit_size (config : ToolCallingConfig) (fileResult : FileSlot)
  : FileSlot :=
  match slot_content fileResult with
  | Some (c :: cs) =>
      let fileSizeKB :=
        SFdiv JsNumber.prec JsNumber.emax
          (JsNumber.of_Z (byteLength (c :: cs))) (JsNumber.of_Z 1024) in
      if JsNumber.gt fileSizeKB (maxFileSizeKB config) then
        {| slot_path := slot_path fileResult;
           slot_content := None;
           slot_error :=
             Some ("File size (" +:+ JsNumber.toFixed 1 fileSizeKB
                   +:+ "KB) exceeds maximum allowed size ("
                   +:+ JsNumber.toString (maxFileSizeKB config) +:+ "KB)") |}
      else fileResult
  | _ => fileResult
  end.

(** [ToolCallingService.readMultipleFiles].  The reader of the tool
    registry, [readMultipleFilesTool], catches what is thrown while it
    reads, so the [catch] of the service is not entered; the last case
    below is that of a reader that does not return. *)
Definition readMultipleFiles (config : ToolCallingConfig) (fs : FileSystem)
    (files : list ReadFileArgs) : ServiceReply :=
  if negb (readFile_enabled config) then
    {| reply_success := false; reply_results := [];
       reply_error := Some "File reading is disabled in configuration" |}
  else
    match
      find (λ fileRequest,
              negb (bool_decide (getFileExtension (path fileRequest)
                                 ∈ allowedFileExtensions config)))
        files
    with
    | Some fileRequest =>
        {| reply_success := false; reply_results := [];
           reply_error :=
             Some ("File extension '" +:+ getFileExtension (path fileRequest)
                   +:+ "' is not allowed for " +:+ path fileRequest
                   +:+ ". Allowed extensions: "
                   +:+ Js.join ", " (allowedFileExtensions config)) |}
    | None =>
        match readMultipleFilesTool fs files with
        | Some (result, _) =>
            {| reply_success := batch_success result;
               reply_results := map (limit_size config) (results result);
               reply_error := None |}
        | None =>
            {| reply_success := false; reply_results := [];
               reply_error := None |}
        end
    end.

(** The service as [analyzeTargetedSections] uses it: [success] and
    [results] are read. *)
Definition tool_service (config : ToolCallingConfig) (fs : FileSystem)
    (requests : list ReadFileArgs) : ReadMultipleFilesResult :=
  let readResults := readMultipleFiles config fs requests in
  {| batch_success := reply_success readResults;
     results := reply_results readResults |}.

(** [path.isAbsolute] and [path.resolve] on POSIX paths without [.] and
    [..] segments. *)
Definition posix_isAbsolute (p : string) : bool := Js.startsWith "/" p.

Definition posix_resolve (base p : string) : string := base +:+ "/" +:+ p.

(** The configuration loaded when no [TOOL_CALLING_] variable is set:
    reading enabled, 1024 KB, the default extensions. *)
Definition default_config : ToolCallingConfig := loadToolCallingConfig ∅.

Definition project_fs : FileSystem :=
  <[ "/proj/A.ts" := Regular (list_ascii_of_string "alpha") ]>
    (<[ "/proj/B.ts" := Regular (list_ascii_of_string "beta") ]>
       {[ "/proj/C.ts" := Regular (list_ascii_of_string "gamma") ]}).

Definition whole (f : string) (p : option Priority) : AnalysisTarget :=
  {| file := f; target_mode := Some Full; target_lines := None;
     target_startLine := None; target_endLine := None; priority := p |}.

(** A target that names a file and nothing else. *)
Definition bare (f : string) : AnalysisTarget :=
  {| file := f; target_mode := None; target_lines := None;
     target_startLine := None; target_endLine := None; priority := None |}.

Definition analyze (targets : list AnalysisTarget) : option Analysis :=
  analyzeTargetedSections posix_isAbsolute posix_resolve
    (tool_service default_config project_fs) targets "/proj" None.

(** Targets given as supplementary A, critical B, important C are
    reported as B, C, A. *)
Lemma analyzeTargetedSections_priority_example :
  content <$> analyze [ whole "A.ts" (Some supplementary);
                        whole "B.ts" (Some critical);
                        whole "C.ts" (Some important) ]
  = Some (join (heading
      ++ [ text_of "### B.ts [CRITICAL]"; text_of "**Mode: full**";
           text_of "```"; text_of "beta"; text_of ("```" +:+ newline);
           text_of "### C.ts"; text_of "**Mode: full**";
           text_of "```"; text_of "gamma"; text_of ("```" +:+ newline);
           text_of "### A.ts"; text_of "**Mode: full**";
           text_of "```"; text_of "alpha"; text_of ("```" +:+ newline) ])).
Proof. vm_compute. reflexivity. Qed.

(** A file above the size limit keeps its place, with the message of the
    service in place of its content. *)
Lemma limit_size_example :
  limit_size (loadToolCallingConfig {[ "TOOL_CALLING_MAX_FILE_SIZE_KB" := "1" ]})
    {| slot_path := "/proj/big.ts";
       slot_content := Some (replicate 1500 97%N);
       slot_error := None |}
  = {| slot_path := "/proj/big.ts";
       slot_content := None;
       slot_error :=
         Some "File size (1.5KB) exceeds maximum allowed size (1KB)" |}.
Proof. vm_compute. reflexivity. Qed.

(** C8 — a target that names only a file is sent as a range request
    without bounds, the schema refuses the batch, and the whole bucket is
    left out: no section for A.ts and none for B.ts, which was read
    in the same bucket, while the critical C.ts is reported. *)
Theorem analyzeTargetedSections_drops_refused_bucket :
  analyze [bare "A.ts"]
  = Some {| content := join heading; fileAnalysisPerformed := true;
            filesAnalyzed := 0; toolsUsed := ["readMultipleFiles"] |}
  ∧ analyze [ whole "B.ts" (Some important); bare "A.ts";
              whole "C.ts" (Some critical) ]
    = Some {| content :=
                join (heading
                  ++ [ text_of "### C.ts [CRITICAL]"; text_of "**Mode: full**";
                       text_of "```"; text_of "gamma";
                       text_of ("```" +:+ newline) ]);
              fileAnalysisPerformed := true;
              filesAnalyzed := 1; toolsUsed := ["readMultipleFiles"] |}.
Proof. split; vm_compute; reflexivity. Qed.

(** *** A section that was read and is empty *)

Section EmptySection.

Variable isAbsolute : string → bool.
Variable resolve : string → string → string.

(** X27 — A target read in full whose file exists and holds no byte.  When
    the service lets the request through (reading is enabled and the
    extension of the path is among the allowed ones) the target is reported
    as a failure, with the error text ["undefined"]: the content is tested
    for truthiness, and the empty string is not truthy; the file still
    counts as analysed.  When the service refuses the request the target
    has no section and no file counts. *)
Theorem analyzeTargetedSections_reports_empty_file_as_failure
    (config : ToolCallingConfig) (fs : FileSystem) (f : string)
    (p : option Priority) (projectRoot : string)
    (workingDirectory : option string) :
  fs !! path (fileRequest isAbsolute resolve projectRoot workingDirectory
                (whole f p))
  = Some (Regular []) →
  analyzeTargetedSections isAbsolute resolve (tool_service config fs)
    [whole f p] projectRoot workingDirectory
  = Some
      (if readFile_enabled config
          && bool_decide
               (getFileExtension
                  (path (fileRequest isAbsolute resolve projectRoot
                           workingDirectory (whole f p)))
                ∈ allowedFileExtensions config)
       then
         {| content :=
              join (heading
                ++ [ text_of ("### " +:+ f
                              +:+ (if decide (p = Some critical)
                                   then " [CRITICAL]" else ""));
                     text_of "**Mode: full**";
                     text_of ("Failed to read section: undefined" +:+ newline) ]);
            fileAnalysisPerformed := true;
            filesAnalyzed := 1;
            toolsUsed := ["readMultipleFiles"] |}
       else
         {| content := join heading;
            fileAnalysisPerformed := true;
            filesAnalyzed := 0;
            toolsUsed := ["readMultipleFiles"] |}).
Proof.
  intros Hfile.
  set (req := fileRequest isAbsolute resolve projectRoot workingDirectory
                (whole f p)) in *.
  set (allowed := readFile_enabled config
                  && bool_decide (getFileExtension (path req)
                                  ∈ allowedFileExtensions config)).
  assert (req = {| path := path req; mode := Some Full; lines := None;
                   startLine := None; endLine := None |}) as Hreq
    by reflexivity.
  assert (tool_service config fs [req]
          = if allowed then
              {| batch_success := true;
                 results := [ {| slot_path := path req;
                                 slot_content := Some [];
                                 slot_error := None |} ] |}
            else {| batch_success := false; results := [] |}) as Hread.
  { subst allowed. unfold tool_service, readMultipleFiles.
    destruct (readFile_enabled config); [|reflexivity]. cbn [negb andb find].
    destruct (bool_decide (getFileExtension (path req)
                           ∈ allowedFileExtensions config));
      [|reflexivity]. cbn [negb].
    rewrite Hreq. generalize dependent (path req). intros pth Hfile _.
    unfold readMultipleFilesTool, ReadMultipleFilesArgsSchema_parse.
    cbn [length arity_ok].
    cbn [parse_each]. unfold ReadFileArgsSchema_parse at 1. cbn.
    unfold readSingleFile, ReadFileArgsSchema_parse. cbn.
    unfold open. rewrite Hfile. reflexivity. }
  assert (∀ rest analysis files,
    process_groups isAbsolute resolve (tool_service config fs) projectRoot
      workingDirectory ([whole f p] :: rest) analysis files
    = process_groups isAbsolute resolve (tool_service config fs) projectRoot
        workingDirectory rest
        (if allowed then
           analysis
           ++ [ text_of ("### " +:+ f
                         +:+ (if decide (p = Some critical)
                              then " [CRITICAL]" else ""));
                text_of "**Mode: full**";
                text_of ("Failed to read section: undefined" +:+ newline) ]
         else analysis)
        (if allowed then files ∪ {[ f ]} else files)) as Hgroup.
  { intros rest analysis files. cbn [process_groups map]. fold req.
    rewrite Hread. by destruct allowed. }
  assert (size ((∅ : gset string) ∪ {[ f ]}) = 1%nat) as Hsize
    by (rewrite (left_id_L ∅ (∪)); apply size_singleton).
  unfold analyzeTargetedSections, criticalTargets, importantTargets,
    supplementaryTargets.
  assert (∃ before after,
    [ filter (λ t, priority t = Some critical) [whole f p];
      filter (λ t, priority t = Some important ∨ priority t = None)
        [whole f p];
      filter (λ t, priority t = Some supplementary) [whole f p] ]
    = before ++ [whole f p] :: after
    ∧ Forall (λ g, g = []) before ∧ Forall (λ g, g = []) after)
    as (before & after & -> & Hb & Ha).
  { destruct p as [[| |]|].
    - exists [], [[]; []]. repeat split; repeat constructor.
    - exists [[]], [[]]. repeat split; repeat constructor.
    - exists [[]; []], []. repeat split; repeat constructor.
    - exists [[]], [[]]. repeat split; repeat constructor. }
  assert (∀ empties rest analysis files,
    Forall (λ g, g = []) empties →
    process_groups isAbsolute resolve (tool_service config fs) projectRoot
      workingDirectory (empties ++ rest) analysis files
    = process_groups isAbsolute resolve (tool_service config fs) projectRoot
        workingDirectory rest analysis files) as Hskip.
  { intros empties rest analysis files He.
    induction He as [|g gs -> _ IH]; [done|exact IH]. }
  rewrite (Hskip before _ _ _ Hb), Hgroup.
  rewrite <- (app_nil_r after), (Hskip after [] _ _ Ha).
  cbn [process_groups mbind option_bind].
  destruct allowed; [by rewrite Hsize|by rewrite size_empty].
Qed.

End EmptySection.

Definition empty_file_fs : FileSystem :=
  <[ "/proj/E.ts" := Regular [] ]> {[ "/proj/E.exe" := Regular [] ]}.

Lemma analyzeTargetedSections_reports_empty_file_as_failure_witness :
  content <$> analyzeTargetedSections posix_isAbsolute posix_resolve
                (tool_service default_config empty_file_fs)
                [whole "E.ts" None] "/proj" None
  = Some (join (heading
      ++ [ text_of "### E.ts"; text_of "**Mode: full**";
           text_of ("Failed to read section: undefined" +:+ newline) ]))
  ∧ analyzeTargetedSections posix_isAbsolute posix_resolve
      (tool_service default_config empty_file_fs)
      [whole "E.exe" None] "/proj" None
    = Some {| content := join heading; fileAnalysisPerformed := true;
              filesAnalyzed := 0; toolsUsed := ["readMultipleFiles"] |}.
Proof.
  split.
  - rewrite (analyzeTargetedSections_reports_empty_file_as_failure
               posix_isAbsolute posix_resolve default_config empty_file_fs
               "E.ts" None "/proj" None); reflexivity.
  - rewrite (analyzeTargetedSections_reports_empty_file_as_failure
               posix_isAbsolute posix_resolve default_config empty_file_fs
               "E.exe" None "/proj" None); reflexivity.
Defined.

(** The slot the service returns for a target read alone. *)
Definition read_alone (target : AnalysisTarget) : FileSlot :=
  default {| slot_path := ""; slot_content := None; slot_error := None |}
    (head (results
             (tool_service default_config project_fs
                [fileRequest posix_isAbsolute posix_resolve "/proj" None
                   target]))).

Lemma analyzeTargetedSections_ordered_witness :
  content <$> analyze [ whole "A.ts" (Some supplementary);
                        whole "missing.ts" (Some critical);
                        whole "C.ts" None ]
  = Some (join (heading
      ++ concat (map (section_of read_alone)
                   [ whole "missing.ts" (Some critical);
                     whole "C.ts" None;
                     whole "A.ts" (Some supplementary) ]))).
Proof.
  unfold analyze.
  rewrite (analyzeTargetedSections_ordered posix_isAbsolute posix_resolve
             (tool_service default_config project_fs) read_alone).
  - reflexivity.
  - intros group Hin _.
    apply elem_of_cons in Hin as [->|Hin]; [vm_compute; reflexivity|].
    apply elem_of_cons in Hin as [->|Hin]; [vm_compute; reflexivity|].
    apply elem_of_cons in Hin as [->|Hin]; [vm_compute; reflexivity|].
    by apply elem_of_nil in Hin.
Defined.

End Assembler.
